(** * Fuel route planner: geometry codec, route projection and refuelling plan

    A shallow embedding of [core/services/fuel_plan.py] and the properties
    its specification states about it.

    Conventions of the embedding.
    - Python [int] is [Z]; bit operations are [Z.land], [Z.lor], [Z.shiftl],
      [Z.shiftr] and [Z.lnot], which agree with Python on negative numbers.
    - Python [float] is modelled by the rationals [Q]: every finite float
      is a rational.  Where a decision or an exception of the code hangs on
      the rounding of a float operation, the operation is rounded as
      binary64 does ([float_round], [to_float]): the feasibility test of
      line 113, the range test of line 126 and the division of an [int]
      by a float of line 41.  The arithmetic of the scan (the fuel level, the purchases and their
      costs) and of the geometry is taken without rounding error; the
      properties stated about it either tolerate rounding (values rounded
      to four decimals, orderings, bounds) or say how they are to be read.
      Where the code stores [float("inf")] (the price of the synthetic
      terminal node) or multiplies and adds prices, the value is an
      [xfloat]: a rational, an infinity or NaN.
    - Python exceptions are results: a function that can raise returns a
      [py_result].
    - [round(x, n)] is rounding to the nearest multiple of [10^-n], ties to
      even.
    - [list.sort(key=...)] is a stable sort; it is modelled by the stable
      insertion sort [sort_by].
    - The functions of the [math] module ([sin], [cos], [asin], [sqrt],
      [radians]) are parameters of the geometry section. *)

From Stdlib Require Import ZArith QArith Qround Qabs Qminmax Qpower Lqa Lia.
From Stdlib Require Import List Bool.
From Stdlib Require Import String Ascii Sorted Permutation.
Import ListNotations.

Open Scope Q_scope.

(** ** Python values *)

Inductive exn : Type :=
| IndexError
| ZeroDivisionError
| OverflowError.

Inductive py_result (A : Type) : Type :=
| Returned (a : A)
| Raised (e : exn).

Arguments Returned {A} a.
Arguments Raised {A} e.

(** A float that may be infinite or NaN. *)
Inductive xfloat : Type :=
| Fin (q : Q)
| PInf
| NInf
| NaN.

Definition Qltb (x y : Q) : bool := negb (Qle_bool y x).

(** [a < b] on floats: false as soon as a NaN is involved. *)
Definition xltb (a b : xfloat) : bool :=
  match a, b with
  | Fin x, Fin y => Qltb x y
  | Fin _, PInf => true
  | NInf, Fin _ => true
  | NInf, PInf => true
  | _, _ => false
  end.

Definition xadd (a b : xfloat) : xfloat :=
  match a, b with
  | NaN, _ => NaN
  | _, NaN => NaN
  | Fin x, Fin y => Fin (x + y)
  | PInf, NInf => NaN
  | NInf, PInf => NaN
  | PInf, _ => PInf
  | _, PInf => PInf
  | NInf, _ => NInf
  | _, NInf => NInf
  end.

(** [g * p] for a finite [g]. *)
Definition xscale (g : Q) (p : xfloat) : xfloat :=
  match p with
  | Fin q => Fin (g * q)
  | PInf => if Qltb 0 g then PInf else if Qltb g 0 then NInf else NaN
  | NInf => if Qltb 0 g then NInf else if Qltb g 0 then PInf else NaN
  | NaN => NaN
  end.

(** Python's [min(a, b)] and [max(a, b)]: the first argument wins a tie. *)
Definition py_min (a b : Q) : Q := if Qltb b a then b else a.
Definition py_max (a b : Q) : Q := if Qltb a b then b else a.

(** Nearest integer, ties to even. *)
Definition round_half_even (x : Q) : Z :=
  let f := Qfloor x in
  match Qcompare (x - inject_Z f) (1 # 2) with
  | Lt => f
  | Gt => (f + 1)%Z
  | Eq => if Z.even f then f else (f + 1)%Z
  end.

(** [round(x, ndigits)] on a finite float. *)
Definition py_round (x : Q) (ndigits : nat) : Q :=
  let s := inject_Z (10 ^ Z.of_nat ndigits) in
  Qred (inject_Z (round_half_even (x * s)) / s).

(** [round] leaves infinities and NaN as they are. *)
Definition xround (x : xfloat) (ndigits : nat) : xfloat :=
  match x with
  | Fin q => Fin (py_round q ndigits)
  | other => other
  end.

(** ** Binary64 floats *)

(** The binade of a positive [x]: the [e] with [2^e <= x < 2^(e+1)].  The
    difference of the bit lengths of numerator and denominator is that
    [e] or one more. *)
Definition binade (x : Q) : Z :=
  let e0 := (Z.log2 (Qnum x) - Z.log2 (Zpos (Qden x)))%Z in
  if Qle_bool (2 ^ e0) x then e0 else (e0 - 1)%Z.

(** The exponent of the last place of the binary64 floats in the binade
    of [x]: 53 significant bits, and no place below [2^-1074]. *)
Definition quantum (x : Q) : Z := Z.max (binade x - 52) (-1074).

(** The multiple of [2^q] nearest to [x], ties to even. *)
Definition round_to (q : Z) (x : Q) : Q :=
  inject_Z (round_half_even (x / 2 ^ q)) * 2 ^ q.

(** Rounding to nearest, ties to even, with the 53 bits of binary64 and
    its smallest exponent, as a fraction in lowest terms; the largest
    exponent is checked by [to_float]. *)
Definition float_round (x : Q) : Q :=
  match Qcompare x 0 with
  | Gt => Qred (round_to (quantum x) x)
  | Lt => Qred (- round_to (quantum (- x)) (- x))
  | Eq => 0
  end.

(** The float a binary64 operation returns when its exact result is [x]:
    the rounding of [x], or an infinity when that reaches [2^1024]. *)
Definition to_float (x : Q) : xfloat :=
  let r := float_round x in
  if Qle_bool (2 ^ 1024) r then PInf
  else if Qle_bool r (- 2 ^ 1024) then NInf
  else Fin r.

(** [x + y] and [x - y] on finite floats. *)
Definition float_add (x y : Q) : xfloat := to_float (x + y).
Definition float_sub (x y : Q) : xfloat := to_float (x - y).

(** The conversion of an [int] to a float: Python rounds to nearest, and
    raises [OverflowError] ("int too large to convert to float") where the
    rounding leaves the range. *)
Definition float_of_int (n : Z) : py_result Q :=
  match to_float (inject_Z n) with
  | Fin f => Returned f
  | _ => Raised OverflowError
  end.

(** [n / d] for an [int] [n] and a float [d] that is not zero: the [int]
    is converted first, then the floats are divided. *)
Definition int_div_float (n : Z) (d : Q) : py_result Q :=
  match float_of_int n with
  | Returned f => Returned (float_round (f / d))
  | Raised e => Raised e
  end.

(** ** Data model *)

(** [core.models.FuelStop], the fields the planner reads. *)
Module FuelStop.
Record t : Type := mk {
  id : Z;
  name : string;
  city : string;
  state : string;
  price : Q;
  lat : Q;
  lon : Q
}.
End FuelStop.

(** A planner node: the dict [{"fs": ..., "route_miles": ..., "price": ...}].
    [fs = None] is how the code marks the synthetic terminal node. *)
Module Node.
Record t : Type := mk {
  fs : option FuelStop.t;
  route_miles : Q;
  price : xfloat
}.
End Node.

(** An entry of the plan's [stops] list. *)
Module Stop.
Record t : Type := mk {
  id : Z;
  name : string;
  city : string;
  state : string;
  lat : Q;
  lon : Q;
  price : xfloat;
  route_miles : Q;
  gallons_bought : Q;
  cost : xfloat
}.
End Stop.

(** The dict [min_cost_plan] returns on success. *)
Module Plan.
Record t : Type := mk {
  stops : list Stop.t;
  total_cost : xfloat;
  tank_gallons_capacity : Q
}.
End Plan.

(** The error dict [{"error": "NO_FEASIBLE_PLAN", "gap_miles": ...}]. *)
Inductive plan_error : Type :=
| NO_FEASIBLE_PLAN (gap_miles : xfloat).

(** ** [min_cost_plan] *)

(** The epsilon [1e-6] of the test that records a purchase and of the
    sampling walk. *)
Definition eps : Q := 1 # 1000000.

(** The float the literal [1e-6] denotes. *)
Definition float_eps : Q := float_round eps.

(** The node appended at line 109. *)
Definition terminal (total_miles : Q) : Node.t :=
  Node.mk None total_miles PInf.

(** [list.sort(key=key)]: Python's sort is stable and compares keys with
    [<]; insertion from the right, each element going in front of the
    first element that is not smaller, is the stable ascending sort. *)
Section StableSort.

Context {A : Type} (key : A -> Q).

Fixpoint insert_by (x : A) (l : list A) : list A :=
  match l with
  | [] => [x]
  | y :: l' =>
      if Qle_bool (key x) (key y)
      then x :: y :: l'
      else y :: insert_by x l'
  end.

Definition sort_by (l : list A) : list A := fold_right insert_by [] l.

(** Ascending by [key]: every element is at most every later one. *)
Definition ascending_by (l : list A) : Prop :=
  StronglySorted (fun a b => key a <= key b) l.

End StableSort.

(** [nodes.sort(key=lambda x: x["route_miles"])]. *)
Definition sort_by_route_miles (l : list Node.t) : list Node.t :=
  sort_by Node.route_miles l.

(** Lines 108-110: filter, append the terminal, sort. *)
Definition build_nodes (stations : list Node.t) (total_miles : Q)
  : list Node.t :=
  sort_by_route_miles
    (filter (fun n => Qle_bool (Node.route_miles n) total_miles) stations
       ++ [terminal total_miles]).

(** Lines 113 and 114: [nodes[i+1]["route_miles"] - nodes[i]["route_miles"]],
    a float subtraction. *)
Definition node_gap (a b : Node.t) : xfloat :=
  float_sub (Node.route_miles b) (Node.route_miles a).

(** The test of line 113: the float gap against the float sum
    [max_range_miles + 1e-6]. *)
Definition too_far (max_range_miles : Q) (a b : Node.t) : bool :=
  xltb (float_add max_range_miles float_eps) (node_gap a b).

(** Lines 112-114: the gap of the first consecutive pair that fails the
    test, if there is one. *)
Fixpoint first_gap (max_range_miles : Q) (nodes : list Node.t)
  : option xfloat :=
  match nodes with
  | [] => None
  | a :: rest =>
      match rest with
      | [] => None
      | b :: _ =>
          if too_far max_range_miles a b
          then Some (node_gap a b)
          else first_gap max_range_miles rest
      end
  end.

(** The state of the loop of lines 116-157. *)
Record scan_state : Type := mk_state {
  fuel : Q;
  total_cost : xfloat;
  plan : list Stop.t
}.

Section Scan.

Variables total_miles mpg max_range_miles : Q.

(** The test of line 126: the float difference
    [nodes[k]["route_miles"] - here_mile] against the range. *)
Definition out_of_range (here_mile : Q) (nk : Node.t) : bool :=
  xltb (Fin max_range_miles) (float_sub (Node.route_miles nk) here_mile).

(** Lines 125-131: [nodes[j]] for the first [k > i] with a strictly lower
    price, giving up at the first node out of range. *)
Fixpoint lookahead (here_mile : Q) (here_price : xfloat)
    (ahead : list Node.t) : option Node.t :=
  match ahead with
  | [] => None
  | nk :: ahead' =>
      if out_of_range here_mile nk
      then None
      else if xltb (Node.price nk) here_price
           then Some nk
           else lookahead here_mile here_price ahead'
  end.

(** Line 133. *)
Definition target_miles (here : Node.t) (ahead : list Node.t) : Q :=
  match lookahead (Node.route_miles here) (Node.price here) ahead with
  | Some nj => Node.route_miles nj
  | None => py_min total_miles (Node.route_miles here + max_range_miles)
  end.

(** Lines 134-135. *)
Definition buy_gal (here : Node.t) (ahead : list Node.t) (fuel0 : Q) : Q :=
  let tank_gal := max_range_miles / mpg in
  let need_gal := (target_miles here ahead - Node.route_miles here) / mpg in
  py_max 0 (py_min tank_gal need_gal - fuel0).

(** Line 141. *)
Definition burn (here next : Node.t) : Q :=
  (Node.route_miles next - Node.route_miles here) / mpg.

(** Lines 146-157. *)
Definition plan_entry (s : FuelStop.t) (here_mile buy : Q) (cost : xfloat)
  : Stop.t :=
  Stop.mk (FuelStop.id s) (FuelStop.name s) (FuelStop.city s)
    (FuelStop.state s) (FuelStop.lat s) (FuelStop.lon s)
    (Fin (FuelStop.price s))
    (py_round here_mile 3) (py_round buy 4) (xround cost 4).

(** Lines 144-157: what one iteration appends to [plan].  The test of
    line 144 is against the float the literal [1e-6] denotes; on a float
    that is the test against [1e-6] itself ([eps_test_on_floats]). *)
Definition recorded (here : Node.t) (buy : Q) (cost : xfloat)
  : list Stop.t :=
  match Node.fs here with
  | Some s =>
      if Qltb eps buy
      then [plan_entry s (Node.route_miles here) buy cost]
      else []
  | None => []
  end.

(** One iteration of the loop of line 120, at [here = nodes[i]] with
    [ahead = nodes[i+1:]] and [next = nodes[i+1]]. *)
Definition scan_step (here next : Node.t) (ahead : list Node.t)
    (st : scan_state) : scan_state :=
  let buy := buy_gal here ahead (fuel st) in
  let cost := xscale buy (Node.price here) in
  mk_state (fuel st + buy - burn here next)
           (xadd (total_cost st) cost)
           (plan st ++ recorded here buy cost).

(** The loop [for i in range(len(nodes) - 1)]. *)
Fixpoint scan (nodes : list Node.t) (st : scan_state) : scan_state :=
  match nodes with
  | [] => st
  | here :: ahead =>
      match ahead with
      | [] => st
      | next :: _ => scan ahead (scan_step here next ahead st)
      end
  end.

(** What happens at one scanned node. *)
Record visit : Type := mk_visit {
  v_here : Node.t;
  v_ahead : list Node.t;
  v_fuel_in : Q;
  v_buy : Q;
  v_cost : xfloat;
  v_fuel_full : Q;
  v_fuel_out : Q
}.

(** The visits of the loop, in order: the same recursion as [scan],
    keeping every iteration instead of the running totals. *)
Fixpoint visits (nodes : list Node.t) (fuel0 : Q) : list visit :=
  match nodes with
  | [] => []
  | here :: ahead =>
      match ahead with
      | [] => []
      | next :: _ =>
          let buy := buy_gal here ahead fuel0 in
          let cost := xscale buy (Node.price here) in
          mk_visit here ahead fuel0 buy cost (fuel0 + buy)
                   (fuel0 + buy - burn here next)
            :: visits ahead (fuel0 + buy - burn here next)
      end
  end.

End Scan.

Definition init_state : scan_state := mk_state 0 (Fin 0) [].

(** [min_cost_plan(stations, total_miles, mpg, max_range_miles)].  The
    division of line 107 raises when [mpg] is zero, before anything else
    is done; every later division is by [mpg] too. *)
Definition min_cost_plan (stations : list Node.t)
    (total_miles mpg max_range_miles : Q)
  : py_result (option Plan.t * option plan_error) :=
  if Qeq_bool mpg 0 then Raised ZeroDivisionError
  else
    let tank_gal := max_range_miles / mpg in
    let nodes := build_nodes stations total_miles in
    match first_gap max_range_miles nodes with
    | Some gap => Returned (None, Some (NO_FEASIBLE_PLAN gap))
    | None =>
        let st := scan total_miles mpg max_range_miles nodes init_state in
        Returned
          (Some (Plan.mk (plan st) (xround (total_cost st) 4)
                         (py_round tank_gal 4)),
           None)
    end.

(** The unrounded state the successful path of [min_cost_plan] rounds. *)
Definition raw_scan (stations : list Node.t)
    (total_miles mpg max_range_miles : Q) : scan_state :=
  scan total_miles mpg max_range_miles (build_nodes stations total_miles)
       init_state.

(** ** Geometry: [haversine_miles], [cumulative_miles], [attach_route_miles] *)

(** A route vertex [(lat, lon)]. *)
Definition point : Type := (Q * Q)%type.

(** A candidate annotated by [attach_route_miles]. *)
Module Enriched.
Record t : Type := mk {
  fs : FuelStop.t;
  route_miles : Q;
  offroute_miles : Q
}.
End Enriched.

(** The initial [best_d = 1e18] of the nearest-vertex scan. *)
Definition far_away : Q := inject_Z (10 ^ 18).

Section Geometry.

(** [math.radians], [math.sin], [math.cos], [math.asin], [math.sqrt]. *)
Variables radians sin cos asin sqrt : Q -> Q.

Definition haversine_miles (lat1 lon1 lat2 lon2 : Q) : Q :=
  let R := 39587613 # 10000 in
  let phi1 := radians lat1 in
  let phi2 := radians lat2 in
  let dphi := radians (lat2 - lat1) in
  let dl := radians (lon2 - lon1) in
  let a := sin (dphi / 2) ^ 2 + cos phi1 * cos phi2 * sin (dl / 2) ^ 2 in
  2 * R * asin (sqrt a).

(** The loop of lines 46-47 from [poly[i-1] = prev] on, with
    [cum[-1] = last]: the entries it appends. *)
Fixpoint cumulative_loop (prev : point) (rest : list point) (last : Q)
  : list Q :=
  match rest with
  | [] => []
  | p :: rest' =>
      let c := last + haversine_miles (fst prev) (snd prev) (fst p) (snd p) in
      c :: cumulative_loop p rest' c
  end.

(** [cumulative_miles(poly)]: [cum] starts as [[0.0]] whatever [poly]
    is. *)
Definition cumulative_miles (poly : list point) : list Q :=
  0 :: match poly with
       | [] => []
       | p0 :: rest => cumulative_loop p0 rest 0
       end.

(** Lines 85-89 from vertex [i] on. *)
Fixpoint nearest_loop (s : FuelStop.t) (poly : list point) (i : nat)
    (best_i : nat) (best_d : Q) : nat * Q :=
  match poly with
  | [] => (best_i, best_d)
  | p :: poly' =>
      let d := haversine_miles (FuelStop.lat s) (FuelStop.lon s)
                               (fst p) (snd p) in
      if Qltb d best_d
      then nearest_loop s poly' (S i) i d
      else nearest_loop s poly' (S i) best_i best_d
  end.

(** Lines 83-89: [(best_i, best_d)]. *)
Definition nearest_vertex (s : FuelStop.t) (poly : list point) : nat * Q :=
  nearest_loop s poly 0%nat 0%nat far_away.

(** Lines 82-94: [cum[best_i]] raises [IndexError] out of range. *)
Fixpoint enrich (stops : list FuelStop.t) (poly : list point)
    (cum : list Q) : py_result (list Enriched.t) :=
  match stops with
  | [] => Returned []
  | s :: stops' =>
      let best := nearest_vertex s poly in
      match nth_error cum (fst best) with
      | None => Raised IndexError
      | Some m =>
          match enrich stops' poly cum with
          | Returned l => Returned (Enriched.mk s m (snd best) :: l)
          | Raised e => Raised e
          end
      end
  end.

(** [attach_route_miles(stops, poly, cum)]. *)
Definition attach_route_miles (stops : list FuelStop.t)
    (poly : list point) (cum : list Q) : py_result (list Enriched.t) :=
  match enrich stops poly cum with
  | Returned enriched => Returned (sort_by Enriched.route_miles enriched)
  | Raised e => Raised e
  end.

End Geometry.

(** ** [decode_polyline] *)

Definition ord (c : ascii) : Z := Z.of_nat (nat_of_ascii c).

(** [s[i]] on a Python string: a negative index counts from the end, an
    index out of range raises [IndexError]. *)
Definition str_index (s : string) (i : Z) : py_result ascii :=
  let n := Z.of_nat (String.length s) in
  let j := if (i <? 0)%Z then (i + n)%Z else i in
  if ((0 <=? j)%Z && (j <? n)%Z)%bool
  then match String.get (Z.to_nat j) s with
       | Some c => Returned c
       | None => Raised IndexError
       end
  else Raised IndexError.

(** A result together with the indices at which [polyline_str[index]]
    gave a character, in the order of the reads.  The result is [None]
    when the recursion budget is used up. *)
Definition traced (A : Type) : Type := (option (py_result A) * list Z)%type.

(** The loop [while True] of lines 20-26 (and 31-37): the result is
    [(result, index)] at the [break]. *)
Fixpoint read_group (budget : nat) (s : string) (index shift result : Z)
    (reads : list Z) : traced (Z * Z) :=
  match budget with
  | O => (None, reads)
  | S budget' =>
      match str_index s index with
      | Raised e => (Some (Raised e), reads)
      | Returned c =>
          let b := (ord c - 63)%Z in
          let index' := (index + 1)%Z in
          let result' := Z.lor result (Z.shiftl (Z.land b 31) shift) in
          let shift' := (shift + 5)%Z in
          if (b <? 32)%Z
          then (Some (Returned (result', index')), reads ++ [index])
          else read_group budget' s index' shift' result' (reads ++ [index])
      end
  end.

(** Lines 27 and 38: undo the zig-zag encoding. *)
Definition unzigzag (result : Z) : Z :=
  if (Z.land result 1 =? 0)%Z
  then Z.shiftr result 1
  else Z.lnot (Z.shiftr result 1).

(** The loop [while index < length] of lines 18-41.  Line 41 divides the
    two [int]s by the float [1e5], [lat] first: an [int] beyond the range
    of the floats raises [OverflowError] there. *)
Fixpoint decode_loop (budget : nat) (s : string) (index lat lng : Z)
    (coords : list point) (reads : list Z) : traced (list point) :=
  match budget with
  | O => (None, reads)
  | S budget' =>
      if (index <? Z.of_nat (String.length s))%Z
      then
        match read_group (S (String.length s)) s index 0 0 reads with
        | (Some (Returned (result1, index1)), reads1) =>
            let lat' := (lat + unzigzag result1)%Z in
            match read_group (S (String.length s)) s index1 0 0 reads1 with
            | (Some (Returned (result2, index2)), reads2) =>
                let lng' := (lng + unzigzag result2)%Z in
                match int_div_float lat' 100000 with
                | Returned y =>
                    match int_div_float lng' 100000 with
                    | Returned x =>
                        decode_loop budget' s index2 lat' lng'
                          (coords ++ [(y, x)]) reads2
                    | Raised e => (Some (Raised e), reads2)
                    end
                | Raised e => (Some (Raised e), reads2)
                end
            | (Some (Raised e), reads2) => (Some (Raised e), reads2)
            | (None, reads2) => (None, reads2)
            end
        | (Some (Raised e), reads1) => (Some (Raised e), reads1)
        | (None, reads1) => (None, reads1)
        end
      else (Some (Returned coords), reads)
  end.

(** The run of [decode_polyline(polyline_str)] with its reads. *)
Definition decode_run (s : string) : traced (list point) :=
  decode_loop (S (String.length s)) s 0 0 0 [] [].

(** [decode_polyline(polyline_str)]. *)
Definition decode_polyline (s : string) : option (py_result (list point)) :=
  fst (decode_run s).

(** The indices [decode_polyline] read a character at. *)
Definition decode_reads (s : string) : list Z := snd (decode_run s).

(** ** The station catalog: the [FuelStop] table and its queries *)

(** A row of the [FuelStop] table.  The coordinates are nullable in the
    schema; the price is taken nullable too, as the queries exclude rows
    without one. *)
Module Row.
Record t : Type := mk {
  id : Z;
  name : string;
  city : string;
  state : string;
  price : option Q;
  lat : option Q;
  lon : option Q
}.
End Row.

(** The model instance of a row that has a price and coordinates: what
    the planner reads of it. *)
Definition row_stop (r : Row.t) : option FuelStop.t :=
  match Row.price r, Row.lat r, Row.lon r with
  | Some p, Some la, Some lo =>
      Some (FuelStop.mk (Row.id r) (Row.name r) (Row.city r) (Row.state r)
                        p la lo)
  | _, _, _ => None
  end.

(** A bounding box [(lat_min, lat_max, lon_min, lon_max)]. *)
Definition box : Type := (Q * Q * Q * Q)%type.

(** [lat__gte=lat_min, lat__lte=lat_max, lon__gte=lon_min,
    lon__lte=lon_max]. *)
Definition stop_in_box (b : box) (s : FuelStop.t) : bool :=
  let '(lat_min, lat_max, lon_min, lon_max) := b in
  Qle_bool lat_min (FuelStop.lat s) && Qle_bool (FuelStop.lat s) lat_max
  && Qle_bool lon_min (FuelStop.lon s) && Qle_bool (FuelStop.lon s) lon_max.

(** The rows a query can return: a comparison with NULL excludes the
    row, and so does [exclude(price__isnull=True)]. *)
Definition priced_located (table : list Row.t) : list FuelStop.t :=
  flat_map (fun r => match row_stop r with
                     | Some s => [s]
                     | None => []
                     end) table.

(** [FuelStop.objects.filter(<box>).exclude(price__isnull=True)
    .order_by("price")].  Rows of equal price come in the order the
    database chooses; the model takes the order of the table. *)
Definition box_query (table : list Row.t) (b : box) : list FuelStop.t :=
  sort_by FuelStop.price (filter (stop_in_box b) (priced_located table)).

(** [candidates[k] = v] on a Python dict, which keeps insertion order: a
    new key goes last, an old key keeps its place. *)
Fixpoint dict_set (k : Z) (v : FuelStop.t) (d : list (Z * FuelStop.t))
  : list (Z * FuelStop.t) :=
  match d with
  | [] => [(k, v)]
  | (k', v') :: d' =>
      if (k =? k')%Z then (k, v) :: d' else (k', v') :: dict_set k v d'
  end.

(** ** [_box], [gather_candidates], [choose_start_station] *)

Section Corridor.

Variables radians sin cos asin sqrt : Q -> Q.
Variable table : list Row.t.

(** [_box(lat, lon, radius_miles)]. *)
Definition _box (lat lon radius_miles : Q) : box :=
  let dlat := radius_miles / 69 in
  let dlon := radius_miles / (69 * py_max (1 # 10) (cos (radians lat))) in
  (lat - dlat, lat + dlat, lon - dlon, lon + dlon).

(** Lines 66-73: the query at one sampled vertex and the update of
    [candidates] with its rows. *)
Definition sample_query (corridor_miles : Q) (max_per_sample : nat)
    (p : point) : list FuelStop.t :=
  firstn max_per_sample
    (box_query table (_box (fst p) (snd p) corridor_miles)).

Definition add_rows (candidates : list (Z * FuelStop.t))
    (qs : list FuelStop.t) : list (Z * FuelStop.t) :=
  fold_left (fun d s => dict_set (FuelStop.id s) s d) qs candidates.

(** The loop of lines 61-76 over [zip(poly, cum)]. *)
Fixpoint gather_loop (corridor_miles sample_every_miles : Q)
    (max_per_sample : nat) (total : Q) (pairs : list (point * Q))
    (next_sample : Q) (candidates : list (Z * FuelStop.t))
  : list (Z * FuelStop.t) :=
  match pairs with
  | [] => candidates
  | (p, m) :: pairs' =>
      if Qltb (m + eps) next_sample
      then gather_loop corridor_miles sample_every_miles max_per_sample
             total pairs' next_sample candidates
      else
        let next_sample' := next_sample + sample_every_miles in
        let candidates' :=
          add_rows candidates
                   (sample_query corridor_miles max_per_sample p) in
        if Qltb total next_sample'
        then candidates'
        else gather_loop corridor_miles sample_every_miles max_per_sample
               total pairs' next_sample' candidates'
  end.

(** [gather_candidates(poly, corridor_miles, sample_every_miles,
    max_per_sample)].  [cum[-1]] exists because [cum] is never empty. *)
Definition gather_candidates (poly : list point)
    (corridor_miles sample_every_miles : Q) (max_per_sample : nat)
  : list FuelStop.t * list Q :=
  let cum := cumulative_miles radians sin cos asin sqrt poly in
  let total := last cum 0 in
  (map snd
     (gather_loop corridor_miles sample_every_miles max_per_sample total
        (combine poly cum) 0 []),
   cum).

(** [choose_start_station(origin_lat, origin_lon, radius_miles)]:
    [.first()] of the ordered query. *)
Definition choose_start_station (origin_lat origin_lon radius_miles : Q)
  : option FuelStop.t :=
  hd_error (box_query table (_box origin_lat origin_lon radius_miles)).

End Corridor.


(** ** [RoutePlanView.post] *)

(** The dict [compute_route_osrm] returns. *)
Module Route.
Record t : Type := mk {
  distanceMeters : Z;
  duration : string;
  encodedPolyline : string
}.
End Route.

(** The validated data of a request; a key the request leaves out is
    [None]. *)
Module Request.
Record t : Type := mk {
  start : option string;
  end_ : option string;
  start_latlng : option (Q * Q);
  end_latlng : option (Q * Q);
  corridor_miles : option Q;
  max_range_miles : option Q;
  mpg : option Q
}.
End Request.

(** The error bodies of the 400 responses. *)
Inductive view_error : Type :=
| START_NOT_FOUND_OR_NOT_US
| END_NOT_FOUND_OR_NOT_US
| ROUTE_NOT_FOUND_OR_RATE_LIMIT
| BAD_ROUTE_POLYLINE
| NO_START_FUEL_STATION_NEAR_ORIGIN
| PLAN_FAILED (e : plan_error).

(** The body of the 200 response. *)
Module Body.
Record t : Type := mk {
  origin : string * Q * Q;
  destination : string * Q * Q;
  distance_miles : Q;
  distance_meters : Z;
  duration : string;
  encoded_polyline : string;
  mpg : Q;
  max_range_miles : Q;
  tank_capacity_gallons : Q;
  gallons_used_total : Q;
  stops : list Stop.t;
  total_money_spent : xfloat
}.
End Body.

Inductive response : Type :=
| Response400 (e : view_error)
| Response200 (b : Body.t).

(** [data.get(key, default)]. *)
Definition get_default {A : Type} (o : option A) (default : A) : A :=
  match o with
  | Some a => a
  | None => default
  end.

(** Lines 74-78: the node of the start station, forced to mile 0. *)
Definition start_node (start_fs : FuelStop.t) : Node.t :=
  Node.mk (Some start_fs) 0 (Fin (FuelStop.price start_fs)).

(** Lines 80-86: the node of an annotated candidate. *)
Definition enriched_node (x : Enriched.t) : Node.t :=
  Node.mk (Some (Enriched.fs x)) (Enriched.route_miles x)
          (Fin (FuelStop.price (Enriched.fs x))).

(** Lines 74-86: the [stations] handed to [min_cost_plan]. *)
Definition view_stations (start_fs : FuelStop.t)
    (enriched : list Enriched.t) : list Node.t :=
  start_node start_fs :: map enriched_node enriched.

Section View.

Variables radians sin cos asin sqrt : Q -> Q.
Variable table : list Row.t.

(** [geocode_us] and [compute_route_osrm] call services over the
    network; what they answer is a parameter.  [None] is their "not
    found". *)
Variable geocode_us : string -> option (Q * Q * string).
Variable compute_route_osrm : Q -> Q -> Q -> Q -> option Route.t.

(** Lines 27-38 (and 40-50): the coordinates and the name of an end of
    the route, or [None] when geocoding finds nothing. *)
Definition resolve_place (latlng : option (Q * Q)) (text : option string)
    (latlng_name : string) : option (Q * Q * string) :=
  match latlng with
  | Some (lat, lon) => Some (lat, lon, latlng_name)
  | None => geocode_us (get_default text EmptyString)
  end.

(** Lines 60-118: from the route on. *)
Definition plan_on_route (o d : Q * Q * string) (route : Route.t)
    (corridor_miles max_range_miles mpg : Q)
  : option (py_result response) :=
  let '(o_lat, o_lon, o_name) := o in
  let '(d_lat, d_lon, d_name) := d in
  match decode_polyline (Route.encodedPolyline route) with
  | None => None
  | Some (Raised e) => Some (Raised e)
  | Some (Returned poly) =>
      if (List.length poly <? 2)%nat
      then Some (Returned (Response400 BAD_ROUTE_POLYLINE))
      else
        let '(candidates, cum) :=
          gather_candidates radians sin cos asin sqrt table poly
            corridor_miles 20 25 in
        match attach_route_miles radians sin cos asin sqrt
                candidates poly cum with
        | Raised e => Some (Raised e)
        | Returned enriched =>
            let total_miles := last cum 0 in
            match choose_start_station radians cos table o_lat o_lon 25 with
            | None =>
                Some (Returned
                        (Response400 NO_START_FUEL_STATION_NEAR_ORIGIN))
            | Some start_fs =>
                match min_cost_plan (view_stations start_fs enriched)
                        total_miles mpg max_range_miles with
                | Raised e => Some (Raised e)
                | Returned (_, Some err) =>
                    Some (Returned (Response400 (PLAN_FAILED err)))
                | Returned (None, None) =>
                    (* Never returned by [min_cost_plan]; subscripting
                       the [None] plan would raise a [TypeError], which
                       [exn] does not have: no result. *)
                    None
                | Returned (Some plan, None) =>
                    let gallons_used := total_miles / mpg in
                    Some (Returned (Response200
                      (Body.mk (o_name, o_lat, o_lon) (d_name, d_lat, d_lon)
                         (py_round total_miles 3)
                         (Route.distanceMeters route)
                         (Route.duration route)
                         (Route.encodedPolyline route)
                         mpg max_range_miles
                         (Plan.tank_gallons_capacity plan)
                         (py_round gallons_used 4)
                         (Plan.stops plan)
                         (Plan.total_cost plan))))
                end
            end
        end
  end.

(** [RoutePlanView.post] on validated data. *)
Definition post (data : Request.t) : option (py_result response) :=
  let corridor_miles := get_default (Request.corridor_miles data) 10 in
  let max_range_miles := get_default (Request.max_range_miles data) 500 in
  let mpg := get_default (Request.mpg data) 10 in
  match resolve_place (Request.start_latlng data) (Request.start data)
          "start_latlng" with
  | None => Some (Returned (Response400 START_NOT_FOUND_OR_NOT_US))
  | Some o =>
      match resolve_place (Request.end_latlng data) (Request.end_ data)
              "end_latlng" with
      | None => Some (Returned (Response400 END_NOT_FOUND_OR_NOT_US))
      | Some d =>
          let '(o_lat, o_lon, _) := o in
          let '(d_lat, d_lon, _) := d in
          match compute_route_osrm o_lat o_lon d_lat d_lon with
          | None =>
              Some (Returned (Response400 ROUTE_NOT_FOUND_OR_RATE_LIMIT))
          | Some route =>
              plan_on_route o d route corridor_miles max_range_miles mpg
          end
      end
  end.

End View.


(** * Vocabulary of the properties *)

Abbreviation miles := Node.route_miles.

(** The stations that survive the filter of line 108, sorted. *)
Definition real_nodes (stations : list Node.t) (total_miles : Q)
  : list Node.t :=
  sort_by_route_miles
    (filter (fun n => Qle_bool (miles n) total_miles) stations).

(** Every consecutive pair of the list is at most [bound] apart. *)
Inductive gaps_within (bound : Q) : list Node.t -> Prop :=
| gaps_nil : gaps_within bound []
| gaps_one (a : Node.t) : gaps_within bound [a]
| gaps_cons (a b : Node.t) (l : list Node.t) :
    miles b - miles a <= bound ->
    gaps_within bound (b :: l) ->
    gaps_within bound (a :: b :: l).

(** No consecutive pair of the list fails the test of line 113. *)
Inductive within_reach (max_range_miles : Q) : list Node.t -> Prop :=
| reach_nil : within_reach max_range_miles []
| reach_one (a : Node.t) : within_reach max_range_miles [a]
| reach_cons (a b : Node.t) (l : list Node.t) :
    too_far max_range_miles a b = false ->
    within_reach max_range_miles (b :: l) ->
    within_reach max_range_miles (a :: b :: l).

(** What a visit appends to the plan. *)
Definition visit_entries (v : visit) : list Stop.t :=
  recorded (v_here v) (v_buy v) (v_cost v).

(** The state of the loop after the iteration of a visit. *)
Definition state_after (st : scan_state) (v : visit) : scan_state :=
  mk_state (v_fuel_out v) (xadd (total_cost st) (v_cost v))
           (plan st ++ visit_entries v).

(** The fuel levels of the visits follow one another from [fuel0]: a
    visit starts with the fuel the one before left, adds its purchase,
    and burns the fuel of the segment to the next node. *)
Fixpoint fuel_chain (mpg fuel0 : Q) (vs : list visit) : Prop :=
  match vs with
  | [] => True
  | v :: vs' =>
      v_fuel_in v = fuel0 /\
      v_fuel_full v = v_fuel_in v + v_buy v /\
      (exists next rest,
          v_ahead v = next :: rest /\
          v_fuel_out v = v_fuel_full v - burn mpg (v_here v) next) /\
      fuel_chain mpg (v_fuel_out v) vs'
  end.

(** The sum a loop accumulates from [acc], in the order of the loop. *)
Definition xsum_from (acc : xfloat) (l : list xfloat) : xfloat :=
  fold_left xadd l acc.

(** The entry [e] carries the fields of the station [s]. *)
Definition entry_of_station (e : Stop.t) (s : FuelStop.t) : Prop :=
  Stop.id e = FuelStop.id s /\
  Stop.name e = FuelStop.name s /\
  Stop.city e = FuelStop.city s /\
  Stop.state e = FuelStop.state s /\
  Stop.lat e = FuelStop.lat s /\
  Stop.lon e = FuelStop.lon s /\
  Stop.price e = Fin (FuelStop.price s).

(** The visit is one the loop records in the plan: at a node with a
    station record, buying more than [1e-6] gallons. *)
Definition is_recorded (v : visit) : bool :=
  match Node.fs (v_here v) with
  | Some _ => Qltb eps (v_buy v)
  | None => false
  end.

Definition is_skipped (v : visit) : bool := negb (is_recorded v).

(** The value of a float that is finite. *)
Definition finite_part (x : xfloat) : Q :=
  match x with
  | Fin q => q
  | _ => 0
  end.

(** The unrounded cost of the purchase of a visit. *)
Definition cost_q (v : visit) : Q := finite_part (v_cost v).

Definition qsum (l : list Q) : Q := fold_right Qplus 0 l.

(** The price of the node is a non-negative finite number. *)
Definition price_ok (n : Node.t) : Prop :=
  exists q, Node.price n = Fin q /\ 0 <= q.

(** A station node as the caller builds it: the node's price is the
    price of its record. *)
Definition station_at (i : Z) (route_mile station_price : Q) : Node.t :=
  Node.mk (Some (FuelStop.mk i "Stop" "City" "ST" station_price 0 0))
          route_mile (Fin station_price).

(** The fill-up target in the words of the specification: the first node
    ahead that is within range (its distance, the float difference of the
    route miles, is not above the range) and strictly cheaper; without
    one, the destination or the end of the range, whichever is nearer. *)
Definition spec_target (total_miles max_range_miles : Q) (here : Node.t)
    (ahead : list Node.t) : Q :=
  match find (fun n => negb (out_of_range max_range_miles (miles here) n)
                       && xltb (Node.price n) (Node.price here)) ahead with
  | Some n => miles n
  | None => Qmin total_miles (miles here + max_range_miles)
  end.

(** The gallons the specification has a node buy:
    [max(0, min(tankCapacity, requiredGallons) - fuelLevel)]. *)
Definition spec_buy (total_miles mpg max_range_miles : Q) (here : Node.t)
    (ahead : list Node.t) (fuel_level : Q) : Q :=
  let tank_capacity := max_range_miles / mpg in
  let required_gallons :=
    (spec_target total_miles max_range_miles here ahead - miles here) / mpg in
  Qmax 0 (Qmin tank_capacity required_gallons - fuel_level).

(** [k] is the lowest index of [poly] at which [dist] is least. *)
Definition first_nearest (dist : point -> Q) (poly : list point) (k : nat)
  : Prop :=
  exists p,
    nth_error poly k = Some p /\
    (forall j p', nth_error poly j = Some p' -> dist p <= dist p') /\
    (forall j p', (j < k)%nat -> nth_error poly j = Some p' ->
                  dist p < dist p').

(** Each entry is at least the one before it. *)
Definition non_decreasing (l : list Q) : Prop := Sorted Qle l.

(** Stand-ins for the [math] functions, for running the geometry on
    concrete routes: they keep the signs and bounds the properties below
    rely on, not the values. *)
Definition flat_radians (x : Q) : Q := x * (355 # 113) / 180.
Definition flat_sin (x : Q) : Q := x.
Definition flat_cos (x : Q) : Q := 1.
Definition flat_sqrt (x : Q) : Q := Qabs x.
Definition flat_asin (x : Q) : Q := Qmax 0 (Qmin x (3 # 2)).

(** The indices [0, 1, ..., n-1]. *)
Definition first_indices (n : Z) : list Z :=
  map Z.of_nat (seq 0 (Z.to_nat n)).

(** The character continues a group: the code's test [b < 0x20] fails. *)
Definition continues (c : ascii) : Prop := (32 <= ord c - 63)%Z.

(** Example inputs. *)

(** Stations at route miles 0, 100 and 650, all at 3.00. *)
Definition gap_stations : list Node.t :=
  [station_at 1 0 3; station_at 2 100 3; station_at 3 650 3].

(** Stations at route miles 0 and 100, both at 3.00. *)
Definition uniform_stations : list Node.t :=
  [station_at 1 0 3; station_at 2 100 3].

(** The start station at 4.00 and a station at mile 200 for 3.00. *)
Definition cheaper_ahead_stations : list Node.t :=
  [station_at 1 0 4; station_at 2 200 3].

(** The start station at 4.00, a station at mile 200 for 3.00 and one at
    mile 300 for 3.50. *)
Definition carry_stations : list Node.t :=
  [station_at 1 0 4; station_at 2 200 3; station_at 3 300 (7 # 2)].

(** The start station at 3.00 and a station 0.000005 miles on for
    2.00. *)
Definition skipping_stations : list Node.t :=
  [station_at 1 0 3; station_at 2 (5 # 1000000) 2].

(** A route of three vertices and two stations near it. *)
Definition example_route : list point := [(0, 0); (1, 0); (1, 1)].

Definition example_stops : list FuelStop.t :=
  [FuelStop.mk 7 "Far" "City" "ST" 3 1 (9 # 10);
   FuelStop.mk 8 "Near" "City" "ST" (31 # 10) (1 # 10) 0].


(** The character ends a group: the code's test [b < 0x20] holds. *)
Definition terminates (c : ascii) : bool := (ord c - 63 <? 32)%Z.

(** How many of the first [k] characters of [s] end a group. *)
Definition terminators_upto (s : string) (k : nat) : nat :=
  List.length (filter terminates (firstn k (list_ascii_of_string s))).

(** A truncated string with a coordinate beyond the floats: 205
    continuing characters and a terminator make a latitude of [-2^1024],
    the next group is complete, and the last character continues a
    group. *)
Definition overflowing_polyline : string :=
  string_of_list_ascii (repeat "~"%char 205) ++ "??_".

(** How many characters of [s] end a group. *)
Definition terminators (s : string) : nat :=
  terminators_upto s (String.length s).


(** The vertices at which the loop of [gather_candidates] queries the
    catalog, in order: the same walk as [gather_loop], keeping the
    vertices instead of the rows. *)
Fixpoint sampled (sample_every_miles total : Q) (pairs : list (point * Q))
    (next_sample : Q) : list point :=
  match pairs with
  | [] => []
  | (p, m) :: pairs' =>
      if Qltb (m + eps) next_sample
      then sampled sample_every_miles total pairs' next_sample
      else
        p :: (if Qltb total (next_sample + sample_every_miles)
              then []
              else sampled sample_every_miles total pairs'
                     (next_sample + sample_every_miles))
  end.

(** The station is a row of the table that has a price and coordinates. *)
Definition in_catalog (table : list Row.t) (s : FuelStop.t) : Prop :=
  exists r, In r table /\ row_stop r = Some s.


(** The candidates are well keyed: no key twice, and every value under
    its own id. *)
Definition well_keyed (d : list (Z * FuelStop.t)) : Prop :=
  NoDup (map fst d) /\ Forall (fun kv => fst kv = FuelStop.id (snd kv)) d.

(** A catalog of three rows, the last without coordinates, a route of
    three points as the route service would return it, and the request
    for it. *)
Definition example_table : list Row.t :=
  [Row.mk 1 "Origin Fuel" "City" "ST" (Some 3)
          (Some (385 # 10)) (Some (- (1202 # 10)));
   Row.mk 2 "Mid Fuel" "City" "ST" (Some (29 # 10))
          (Some (407 # 10)) (Some (- (12095 # 100)));
   Row.mk 3 "Unplaced" "City" "ST" (Some 2) None None].

Definition example_route_info : Route.t :=
  Route.mk 1000 "600s" "_p~iF~ps|U_ulLnnqC_mqNvxq`@".

Definition example_request : Request.t :=
  Request.mk None None
    (Some (385 # 10, - (1202 # 10)))
    (Some (43252 # 1000, - (126453 # 1000)))
    None None None.

Definition no_geocoder (text : string) : option (Q * Q * string) := None.

Definition example_router (o_lat o_lon d_lat d_lon : Q) : option Route.t :=
  Some example_route_info.


(** * Properties *)

(** ** Comparisons, [min], [max] *)

Lemma Qltb_spec (x y : Q) : BoolSpec (x < y) (y <= x) (Qltb x y).
Proof.
  unfold Qltb. destruct (Qle_bool y x) eqn:E; simpl; constructor.
  - now apply Qle_bool_iff.
  - apply Qnot_le_lt. intro H. apply Qle_bool_iff in H. congruence.
Qed.

Lemma Qle_bool_spec (x y : Q) : BoolSpec (x <= y) (y < x) (Qle_bool x y).
Proof.
  destruct (Qle_bool x y) eqn:E; constructor.
  - now apply Qle_bool_iff.
  - apply Qnot_le_lt. intro H. apply Qle_bool_iff in H. congruence.
Qed.

Lemma Qltb_true (x y : Q) : x < y -> Qltb x y = true.
Proof. intro H. destruct (Qltb_spec x y); [reflexivity | lra]. Qed.

Lemma Qltb_false (x y : Q) : y <= x -> Qltb x y = false.
Proof. intro H. destruct (Qltb_spec x y); [lra | reflexivity]. Qed.

Lemma Qle_bool_true (x y : Q) : x <= y -> Qle_bool x y = true.
Proof. intro H. now apply Qle_bool_iff. Qed.

Lemma Qle_bool_false (x y : Q) : y < x -> Qle_bool x y = false.
Proof. intro H. destruct (Qle_bool_spec x y); [lra | reflexivity]. Qed.

(** Split on every comparison of the goal. *)
Ltac qcases :=
  repeat match goal with
         | |- context [Qltb ?x ?y] => destruct (Qltb_spec x y)
         | |- context [Qle_bool ?x ?y] => destruct (Qle_bool_spec x y)
         end.

Lemma py_min_cases (a b : Q) :
  (b < a /\ py_min a b = b) \/ (a <= b /\ py_min a b = a).
Proof. unfold py_min. destruct (Qltb_spec b a); auto. Qed.

Lemma py_max_cases (a b : Q) :
  (a < b /\ py_max a b = b) \/ (b <= a /\ py_max a b = a).
Proof. unfold py_max. destruct (Qltb_spec a b); auto. Qed.

(** Split on every [py_min] and [py_max] of the goal and the context. *)
Ltac minmax_on a b cases :=
  let E := fresh "E" in
  destruct (cases a b) as [[? E] | [? E]]; rewrite E in *; clear E.

Ltac minmax :=
  repeat match goal with
         | |- context [py_min ?a ?b] => minmax_on a b py_min_cases
         | |- context [py_max ?a ?b] => minmax_on a b py_max_cases
         | _ : context [py_min ?a ?b] |- _ => minmax_on a b py_min_cases
         | _ : context [py_max ?a ?b] |- _ => minmax_on a b py_max_cases
         end.

Lemma py_min_le_l (a b : Q) : py_min a b <= a.
Proof. unfold py_min. qcases; lra. Qed.

Lemma py_min_le_r (a b : Q) : py_min a b <= b.
Proof. unfold py_min. qcases; lra. Qed.

Lemma py_min_glb (a b c : Q) : c <= a -> c <= b -> c <= py_min a b.
Proof. unfold py_min. qcases; lra. Qed.

Lemma py_max_le_l (a b : Q) : a <= py_max a b.
Proof. unfold py_max. qcases; lra. Qed.

Lemma py_max_le_r (a b : Q) : b <= py_max a b.
Proof. unfold py_max. qcases; lra. Qed.

Lemma py_max_lub (a b c : Q) : a <= c -> b <= c -> py_max a b <= c.
Proof. unfold py_max. qcases; lra. Qed.

Lemma py_min_Qmin (a b : Q) : py_min a b == Qmin a b.
Proof.
  unfold py_min. destruct (Qltb_spec b a).
  - rewrite Q.min_r; lra.
  - rewrite Q.min_l; lra.
Qed.

Lemma py_max_Qmax (a b : Q) : py_max a b == Qmax a b.
Proof.
  unfold py_max. destruct (Qltb_spec a b).
  - rewrite Q.max_r; lra.
  - rewrite Q.max_l; lra.
Qed.

(** Dividing by a positive [mpg] keeps the order. *)
Lemma Qdiv_le_mono (a b c : Q) : 0 < c -> a <= b -> a / c <= b / c.
Proof.
  intros Hc Hab. unfold Qdiv. apply Qmult_le_compat_r; [exact Hab|].
  apply Qlt_le_weak, Qinv_lt_0_compat, Hc.
Qed.

Lemma Qdiv_nonneg (a c : Q) : 0 < c -> 0 <= a -> 0 <= a / c.
Proof.
  intros Hc Ha. setoid_replace 0 with (0 / c) by (unfold Qdiv; ring).
  now apply Qdiv_le_mono.
Qed.

Lemma Qdiv_sub (a b c : Q) : (a - b) / c == a / c - b / c.
Proof. unfold Qdiv. ring. Qed.

(** ** The stable sort *)

Section StableSortFacts.

Context {A : Type} (key : A -> Q).

Lemma insert_by_perm (x : A) (l : list A) :
  Permutation (insert_by key x l) (x :: l).
Proof.
  induction l as [|y l IH]; simpl.
  - apply Permutation_refl.
  - destruct (Qle_bool (key x) (key y)).
    + apply Permutation_refl.
    + eapply perm_trans; [apply perm_skip, IH | apply perm_swap].
Qed.

Lemma sort_by_perm (l : list A) : Permutation (sort_by key l) l.
Proof.
  induction l as [|x l IH]; simpl.
  - apply perm_nil.
  - eapply perm_trans; [apply insert_by_perm | apply perm_skip, IH].
Qed.

Lemma insert_by_ascending (x : A) (l : list A) :
  ascending_by key l -> ascending_by key (insert_by key x l).
Proof.
  unfold ascending_by. induction l as [|y l IH]; simpl; intro Hs.
  - constructor; [constructor | constructor].
  - inversion Hs as [|? ? Hl Hy]; subst.
    destruct (Qle_bool_spec (key x) (key y)) as [Hle | Hlt].
    + constructor; [exact Hs|]. constructor; [exact Hle|].
      eapply Forall_impl; [|exact Hy]. simpl. intros; lra.
    + constructor; [now apply IH|].
      eapply Permutation_Forall;
        [apply Permutation_sym, insert_by_perm|].
      constructor; [lra | exact Hy].
Qed.

Lemma sort_by_ascending (l : list A) : ascending_by key (sort_by key l).
Proof.
  induction l as [|x l IH]; simpl.
  - constructor.
  - now apply insert_by_ascending.
Qed.

(** Stability: the elements of any one key keep their order. *)
Lemma insert_by_stable (q : Q) (x : A) (l : list A) :
  filter (fun a => Qeq_bool (key a) q) (insert_by key x l)
  = filter (fun a => Qeq_bool (key a) q) (x :: l).
Proof.
  induction l as [|y l IH]; [reflexivity|].
  simpl insert_by. destruct (Qle_bool_spec (key x) (key y)) as [Hle|Hlt];
    [reflexivity|].
  simpl. simpl in IH. rewrite IH.
  destruct (Qeq_bool (key x) q) eqn:Ex; destruct (Qeq_bool (key y) q) eqn:Ey;
    try reflexivity.
  apply Qeq_bool_iff in Ex. apply Qeq_bool_iff in Ey. lra.
Qed.

Lemma sort_by_stable (q : Q) (l : list A) :
  filter (fun a => Qeq_bool (key a) q) (sort_by key l)
  = filter (fun a => Qeq_bool (key a) q) l.
Proof.
  induction l as [|x l IH]; [reflexivity|].
  simpl sort_by. rewrite insert_by_stable. simpl. now rewrite IH.
Qed.

(** An element appended last with a key that is at least every other
    key stays last. *)
Lemma insert_by_snoc (x t : A) (l : list A) :
  key x <= key t -> insert_by key x (l ++ [t]) = insert_by key x l ++ [t].
Proof.
  intro Hxt. induction l as [|y l IH]; simpl.
  - now rewrite Qle_bool_true.
  - destruct (Qle_bool (key x) (key y)); [reflexivity|]. now rewrite IH.
Qed.

Lemma sort_by_snoc (t : A) (l : list A) :
  Forall (fun a => key a <= key t) l ->
  sort_by key (l ++ [t]) = sort_by key l ++ [t].
Proof.
  induction 1 as [|x l Hx Hl IH]; [reflexivity|].
  simpl. rewrite IH. now apply insert_by_snoc.
Qed.

End StableSortFacts.

(** ** The node list *)

Lemma build_nodes_shape (stations : list Node.t) (total_miles : Q) :
  build_nodes stations total_miles
  = real_nodes stations total_miles ++ [terminal total_miles].
Proof.
  unfold build_nodes, real_nodes, sort_by_route_miles.
  apply sort_by_snoc. apply Forall_forall. intros n Hn.
  apply filter_In in Hn. destruct Hn as [_ Hn]. simpl.
  now apply Qle_bool_iff.
Qed.

Lemma real_nodes_In (stations : list Node.t) (total_miles : Q) (n : Node.t) :
  In n (real_nodes stations total_miles) ->
  In n stations /\ miles n <= total_miles.
Proof.
  unfold real_nodes, sort_by_route_miles. intro Hn.
  eapply Permutation_in in Hn; [|apply sort_by_perm].
  apply filter_In in Hn. destruct Hn as [Hin Hle].
  split; [exact Hin | now apply Qle_bool_iff].
Qed.

Lemma build_nodes_ascending (stations : list Node.t) (total_miles : Q) :
  ascending_by miles (build_nodes stations total_miles).
Proof. apply sort_by_ascending. Qed.

Lemma build_nodes_le_total (stations : list Node.t) (total_miles : Q) :
  Forall (fun n => miles n <= total_miles) (build_nodes stations total_miles).
Proof.
  rewrite build_nodes_shape. apply Forall_app. split.
  - apply Forall_forall. intros n Hn. now apply real_nodes_In in Hn.
  - constructor; [simpl; lra | constructor].
Qed.

(** ** Rounding *)

Lemma round_half_even_mono (x y : Q) :
  x <= y -> (round_half_even x <= round_half_even y)%Z.
Proof.
  intro Hxy. unfold round_half_even.
  pose proof (Qfloor_resp_le x y Hxy) as Hf.
  pose proof (Qfloor_le x) as Hx1. pose proof (Qlt_floor x) as Hx2.
  pose proof (Qfloor_le y) as Hy1. pose proof (Qlt_floor y) as Hy2.
  rewrite inject_Z_plus in Hx2, Hy2. change (inject_Z 1) with 1 in Hx2, Hy2.
  destruct (Z.eq_dec (Qfloor x) (Qfloor y)) as [Heq | Hneq].
  - rewrite <- Heq in *.
    destruct (Qcompare_spec (x - inject_Z (Qfloor x)) (1 # 2));
      destruct (Qcompare_spec (y - inject_Z (Qfloor x)) (1 # 2));
      destruct (Z.even (Qfloor x)); try lia; lra.
  - assert (Qfloor x + 1 <= Qfloor y)%Z by lia.
    destruct (Qcompare_spec (x - inject_Z (Qfloor x)) (1 # 2));
      destruct (Qcompare_spec (y - inject_Z (Qfloor y)) (1 # 2));
      destruct (Z.even (Qfloor x)); destruct (Z.even (Qfloor y)); lia.
Qed.

Lemma round_half_even_close (x : Q) :
  Qabs (inject_Z (round_half_even x) - x) <= 1 # 2.
Proof.
  unfold round_half_even.
  pose proof (Qfloor_le x) as Hlo. pose proof (Qlt_floor x) as Hhi.
  rewrite inject_Z_plus in Hhi. change (inject_Z 1) with 1 in Hhi.
  apply Qabs_Qle_condition.
  destruct (Qcompare_spec (x - inject_Z (Qfloor x)) (1 # 2)) as [He|Hl|Hg].
  - destruct (Z.even (Qfloor x));
      rewrite ?inject_Z_plus; change (inject_Z 1) with 1; split; lra.
  - split; lra.
  - rewrite inject_Z_plus. change (inject_Z 1) with 1. split; lra.
Qed.

Lemma py_round_close_4 (x : Q) : Qabs (py_round x 4 - x) <= 1 # 20000.
Proof.
  unfold py_round. rewrite Qred_correct.
  change (inject_Z (10 ^ Z.of_nat 4)) with 10000.
  pose proof (round_half_even_close (x * 10000)) as H.
  apply Qabs_Qle_condition in H. apply Qabs_Qle_condition.
  set (r := inject_Z (round_half_even (x * 10000))) in *.
  assert (Hr : r / 10000 == r * (1 # 10000)) by (unfold Qdiv; reflexivity).
  rewrite Hr. split; lra.
Qed.

Lemma py_round_proper (x y : Q) (n : nat) : x == y -> py_round x n = py_round y n.
Proof.
  intro H. unfold py_round. apply Qred_complete.
  assert (Hr : round_half_even (x * inject_Z (10 ^ Z.of_nat n))
               = round_half_even (y * inject_Z (10 ^ Z.of_nat n))).
  { unfold round_half_even.
    set (s := inject_Z (10 ^ Z.of_nat n)).
    assert (Hxy : x * s == y * s) by now rewrite H.
    rewrite (Qfloor_comp _ _ Hxy).
    assert (Hc : Qcompare (x * s - inject_Z (Qfloor (y * s))) (1 # 2)
                 = Qcompare (y * s - inject_Z (Qfloor (y * s))) (1 # 2)).
    { apply Qcompare_comp; [now rewrite Hxy | reflexivity]. }
    now rewrite Hc. }
  now rewrite Hr.
Qed.

Lemma py_round_mono (x y : Q) (n : nat) :
  x <= y -> py_round x n <= py_round y n.
Proof.
  intro Hxy. unfold py_round. rewrite !Qred_correct.
  set (s := inject_Z (10 ^ Z.of_nat n)).
  assert (Hs : 0 < s).
  { unfold s. change 0 with (inject_Z 0). rewrite <- Zlt_Qlt.
    apply Z.pow_pos_nonneg; lia. }
  apply Qdiv_le_mono; [exact Hs|]. rewrite <- Zle_Qle.
  apply round_half_even_mono. apply Qmult_le_compat_r; [exact Hxy | lra].
Qed.

(** ** Binary64 rounding keeps the order *)

Lemma round_half_even_proper (x y : Q) :
  x == y -> round_half_even x = round_half_even y.
Proof.
  intro H. apply Z.le_antisymm; apply round_half_even_mono; lra.
Qed.

Lemma round_half_even_inject_Z (n : Z) : round_half_even (inject_Z n) = n.
Proof.
  unfold round_half_even. rewrite Qfloor_Z.
  destruct (Qcompare_spec (inject_Z n - inject_Z n) (1 # 2)) as [H|H|H];
    [lra | reflexivity | lra].
Qed.

Lemma two_pow_pos (e : Z) : 0 < 2 ^ e.
Proof. apply Qpower_0_lt. lra. Qed.

Lemma two_pow_succ (e : Z) : 2 ^ (e + 1) == 2 * 2 ^ e.
Proof. rewrite Qpower_plus by lra. rewrite Qpower_1_r. lra. Qed.

Lemma two_pow_inject_Z (k : Z) : (0 <= k)%Z -> inject_Z (2 ^ k) == 2 ^ k.
Proof. intro H. now rewrite Zpower_Qpower. Qed.

Lemma two_pow_div (a b : Z) : 2 ^ a / 2 ^ b == 2 ^ (a - b).
Proof. rewrite Qpower_minus by lra. reflexivity. Qed.

Lemma binade_spec (x : Q) :
  0 < x -> 2 ^ binade x <= x /\ x < 2 ^ (binade x + 1).
Proof.
  intro Hx. unfold binade.
  destruct x as [n d]. cbn [Qnum Qden].
  assert (Hn : (0 < n)%Z).
  { unfold Qlt in Hx. cbn in Hx. lia. }
  set (ln := Z.log2 n). set (ld := Z.log2 (Z.pos d)).
  assert (Hln : (0 <= ln)%Z) by apply Z.log2_nonneg.
  assert (Hld : (0 <= ld)%Z) by apply Z.log2_nonneg.
  destruct (Z.log2_spec n Hn) as [Hn1 Hn2].
  destruct (Z.log2_spec (Z.pos d) (Pos2Z.is_pos d)) as [Hd1 Hd2].
  fold ln in Hn1, Hn2. fold ld in Hd1, Hd2.
  rewrite Zle_Qle in Hn1, Hd1. rewrite Zlt_Qlt in Hn2, Hd2.
  rewrite two_pow_inject_Z in Hn1, Hd1 by assumption.
  rewrite two_pow_inject_Z in Hn2, Hd2 by lia.
  unfold Z.succ in Hn2, Hd2. rewrite two_pow_succ in Hn2, Hd2.
  assert (Hq : n # d == inject_Z n / inject_Z (Z.pos d)) by apply Qmake_Qdiv.
  set (N := inject_Z n) in *. set (D := inject_Z (Z.pos d)) in *.
  assert (HN : 0 < N).
  { unfold N. change 0 with (inject_Z 0). now rewrite <- Zlt_Qlt. }
  assert (HD : 0 < D).
  { unfold D. change 0 with (inject_Z 0). now rewrite <- Zlt_Qlt. }
  pose proof (two_pow_pos ln) as HA. pose proof (two_pow_pos ld) as HB.
  assert (Hup : n # d < 2 ^ (ln - ld + 1)).
  { rewrite Hq, two_pow_succ, <- two_pow_div.
    apply Qlt_shift_div_r; [exact HD|].
    assert (E : 2 * (2 ^ ln / 2 ^ ld) * D == 2 * 2 ^ ln * (D / 2 ^ ld))
      by (field; lra).
    rewrite E.
    assert (1 <= D / 2 ^ ld) by (apply Qle_shift_div_l; lra).
    nra. }
  assert (Hlo : 2 ^ (ln - ld - 1) < n # d).
  { rewrite Hq.
    assert (E : 2 ^ (ln - ld - 1) == 2 ^ ln / (2 * 2 ^ ld)).
    { rewrite <- two_pow_succ, two_pow_div. apply Qpower_comp; [reflexivity|lia]. }
    rewrite E.
    apply Qlt_shift_div_l; [exact HD|].
    assert (E2 : 2 ^ ln / (2 * 2 ^ ld) * D == 2 ^ ln * (D / (2 * 2 ^ ld)))
      by (field; lra).
    rewrite E2.
    assert (D / (2 * 2 ^ ld) < 1) by (apply Qlt_shift_div_r; lra).
    nra. }
  destruct (Qle_bool (2 ^ (ln - ld)) (n # d)) eqn:E.
  - apply Qle_bool_iff in E. split; assumption.
  - assert (Hlt : n # d < 2 ^ (ln - ld)).
    { destruct (Qlt_le_dec (n # d) (2 ^ (ln - ld))) as [H|H]; [exact H|].
      apply Qle_bool_iff in H. congruence. }
    split; [lra|].
    assert (E3 : 2 ^ (ln - ld - 1 + 1) == 2 ^ (ln - ld)).
    { apply Qpower_comp; [reflexivity|lia]. }
    rewrite E3. exact Hlt.
Qed.

Lemma binade_mono (x y : Q) : 0 < x -> x <= y -> (binade x <= binade y)%Z.
Proof.
  intros Hx Hxy.
  destruct (binade_spec x Hx) as [H1 _].
  destruct (binade_spec y) as [_ H2]; [lra|].
  assert (H : 2 ^ binade x < 2 ^ (binade y + 1)) by lra.
  apply Qpower_lt_compat_l_inv in H; [lia|lra].
Qed.

Lemma round_to_mono (q : Z) (x y : Q) :
  x <= y -> round_to q x <= round_to q y.
Proof.
  intro Hxy. unfold round_to. pose proof (two_pow_pos q) as Hq.
  apply Qmult_le_compat_r; [|lra].
  rewrite <- Zle_Qle. apply round_half_even_mono.
  apply Qdiv_le_mono; [exact Hq|exact Hxy].
Qed.


Lemma round_to_fix (q e : Z) : (q <= e)%Z -> round_to q (2 ^ e) == 2 ^ e.
Proof.
  intro H. unfold round_to.
  assert (E : 2 ^ e / 2 ^ q == inject_Z (2 ^ (e - q))).
  { rewrite two_pow_div. rewrite two_pow_inject_Z by lia. reflexivity. }
  rewrite (round_half_even_proper _ _ E), round_half_even_inject_Z.
  rewrite two_pow_inject_Z by lia. rewrite <- two_pow_div.
  field. pose proof (two_pow_pos q). lra.
Qed.

Lemma round_to_nonneg (q : Z) (x : Q) : 0 <= x -> 0 <= round_to q x.
Proof.
  intro Hx. unfold round_to. pose proof (two_pow_pos q) as Hq.
  apply Qmult_le_0_compat; [|lra].
  change 0 with (inject_Z 0). rewrite <- Zle_Qle.
  rewrite <- (round_half_even_inject_Z 0).
  apply round_half_even_mono. change (inject_Z 0) with 0.
  apply Qle_shift_div_l; [exact Hq|lra].
Qed.

Lemma round_to_proper (q : Z) (x y : Q) : x == y -> round_to q x == round_to q y.
Proof.
  intro H. apply Qle_antisym; apply round_to_mono; lra.
Qed.

Lemma float_round_pos_mono (x y : Q) :
  0 < x -> x <= y ->
  round_to (quantum x) x <= round_to (quantum y) y.
Proof.
  intros Hx Hxy. pose proof (binade_mono x y Hx Hxy) as He.
  unfold quantum.
  destruct (Z.eq_dec (Z.max (binade x - 52) (-1074))
                     (Z.max (binade y - 52) (-1074))) as [Heq|Hne].
  - rewrite Heq. now apply round_to_mono.
  - assert (Hlt : (binade x < binade y)%Z) by lia.
    assert (Hqy : Z.max (binade y - 52) (-1074) = (binade y - 52)%Z) by lia.
    rewrite Hqy.
    destruct (binade_spec x Hx) as [_ Hx2].
    destruct (binade_spec y) as [Hy1 _]; [lra|].
    assert (Hp : 2 ^ (binade x + 1) <= 2 ^ binade y).
    { apply Qpower_le_compat_l; [lia|lra]. }
    apply Qle_trans with (round_to (Z.max (binade x - 52) (-1074)) (2 ^ binade y)).
    + apply round_to_mono. lra.
    + rewrite round_to_fix by lia.
      rewrite <- (round_to_fix (binade y - 52) (binade y)) at 1 by lia.
      apply round_to_mono. exact Hy1.
Qed.

Lemma float_round_mono (x y : Q) : x <= y -> float_round x <= float_round y.
Proof.
  intro Hxy. unfold float_round.
  destruct (Qcompare_spec x 0) as [Hx|Hx|Hx];
    destruct (Qcompare_spec y 0) as [Hy|Hy|Hy];
    rewrite ?Qred_correct; try lra.
  - apply round_to_nonneg. lra.
  - assert (0 <= round_to (quantum (- x)) (- x)) by (apply round_to_nonneg; lra).
    lra.
  - assert (H : round_to (quantum (- y)) (- y) <= round_to (quantum (- x)) (- x))
      by (apply float_round_pos_mono; lra).
    lra.
  - assert (0 <= round_to (quantum (- x)) (- x)) by (apply round_to_nonneg; lra).
    assert (0 <= round_to (quantum y) y) by (apply round_to_nonneg; lra).
    lra.
  - now apply float_round_pos_mono.
Qed.

Lemma to_float_mono (x y : Q) :
  x <= y -> xltb (to_float y) (to_float x) = false.
Proof.
  intro Hxy. pose proof (float_round_mono x y Hxy) as H.
  pose proof (two_pow_pos 1024) as Hp.
  unfold to_float.
  destruct (Qle_bool (2 ^ 1024) (float_round y)) eqn:Ey1;
    destruct (Qle_bool (2 ^ 1024) (float_round x)) eqn:Ex1;
    try destruct (Qle_bool (float_round y) (- 2 ^ 1024)) eqn:Ey2;
    try destruct (Qle_bool (float_round x) (- 2 ^ 1024)) eqn:Ex2;
    try reflexivity;
    rewrite ?Qle_bool_iff in *; cbn [xltb].
  all: try (exfalso;
    repeat match goal with
    | E : Qle_bool ?a ?b = false |- _ =>
        assert (b < a) by (destruct (Qlt_le_dec b a) as [?|Hc];
          [assumption | apply Qle_bool_iff in Hc; congruence]); clear E
    end; lra).
  destruct (Qltb_spec (float_round y) (float_round x)); [lra|reflexivity].
Qed.

(** On a float the test against the exact [1e-6] is the test against the
    float the literal denotes. *)
Lemma eps_test_on_floats (x : Q) :
  float_round x == x -> Qltb eps x = Qltb float_eps x.
Proof.
  intro Hx.
  assert (Hle : float_eps <= eps) by (vm_compute; discriminate).
  destruct (Qltb_spec eps x) as [Hlt | Hge].
  - symmetry. apply Qltb_true. lra.
  - symmetry. apply Qltb_false. rewrite <- Hx.
    now apply float_round_mono.
Qed.

Lemma to_float_not_NaN (x : Q) : to_float x <> NaN.
Proof.
  unfold to_float.
  destruct (Qle_bool (2 ^ 1024) (float_round x)); [discriminate|].
  destruct (Qle_bool (float_round x) (- 2 ^ 1024)); discriminate.
Qed.

(** A node behind one that is out of range is out of range. *)
Lemma out_of_range_later (max_range_miles here_mile : Q) (nk n : Node.t) :
  miles nk <= miles n ->
  out_of_range max_range_miles here_mile nk = true ->
  out_of_range max_range_miles here_mile n = true.
Proof.
  intro Hle. unfold out_of_range, float_sub.
  assert (H : miles nk - here_mile <= miles n - here_mile) by lra.
  apply to_float_mono in H. revert H.
  pose proof (to_float_not_NaN (miles n - here_mile)) as Hn.
  destruct (to_float (miles nk - here_mile)) as [x| | |];
    destruct (to_float (miles n - here_mile)) as [y| | |];
    cbn [xltb]; intros Hyx Hx; try congruence.
  destruct (Qltb_spec y x); [discriminate|].
  destruct (Qltb_spec max_range_miles x); [|discriminate].
  apply Qltb_true. lra.
Qed.

(** A gap that is within the range in exact arithmetic passes the float
    test of line 113: rounding keeps the order, and [1e-6] is positive. *)
Lemma float_eps_nonneg : 0 <= float_eps.
Proof.
  unfold float_eps. change 0 with (float_round 0) at 1.
  apply float_round_mono. unfold eps. lra.
Qed.

Lemma too_far_false (max_range_miles : Q) (a b : Node.t) :
  miles b - miles a <= max_range_miles -> too_far max_range_miles a b = false.
Proof.
  intro H. unfold too_far, node_gap, float_add, float_sub.
  apply to_float_mono. pose proof float_eps_nonneg. lra.
Qed.

(** ** The feasibility check *)

#[local] Hint Constructors gaps_within : core.

Lemma first_gap_None (max_range_miles : Q) (nodes : list Node.t) :
  first_gap max_range_miles nodes = None <->
  within_reach max_range_miles nodes.
Proof.
  induction nodes as [|a rest IH]; [split; auto using within_reach|].
  destruct rest as [|b rest]; [split; auto using within_reach|].
  cbn [first_gap].
  destruct (too_far max_range_miles a b) eqn:Ef.
  - split; [discriminate|]. intro H. inversion H; subst. congruence.
  - rewrite IH. split.
    + intro H. now constructor.
    + intro H. now inversion H.
Qed.

(** When the check fails it reports the first pair that is too far
    apart. *)
Lemma first_gap_Some (max_range_miles : Q) (nodes : list Node.t)
    (g : xfloat) :
  first_gap max_range_miles nodes = Some g ->
  exists pre a b post,
    nodes = pre ++ a :: b :: post /\
    within_reach max_range_miles (pre ++ [a]) /\
    too_far max_range_miles a b = true /\
    g = node_gap a b.
Proof.
  induction nodes as [|a rest IH]; [discriminate|].
  destruct rest as [|b rest]; [discriminate|].
  cbn [first_gap].
  destruct (too_far max_range_miles a b) eqn:Ef.
  - intro H. injection H as <-.
    exists [], a, b, rest. simpl. auto using within_reach.
  - intro H. destruct (IH H) as (pre & a' & b' & post & Heq & Hok & Hfar & Hg).
    exists (a :: pre), a', b', post. repeat split; auto.
    + simpl. now rewrite Heq.
    + destruct pre as [|c pre]; simpl in *.
      * injection Heq as <- _. auto using within_reach.
      * injection Heq as <- _. auto using within_reach.
Qed.

Lemma within_reach_app (max_range_miles : Q) (pre : list Node.t)
    (a b : Node.t) (post : list Node.t) :
  within_reach max_range_miles (pre ++ a :: b :: post) ->
  too_far max_range_miles a b = false.
Proof.
  induction pre as [|c pre IH]; simpl; intro H.
  - now inversion H.
  - apply IH. destruct pre; simpl in *; now inversion H.
Qed.

Lemma gaps_within_reach (max_range_miles : Q) (nodes : list Node.t) :
  gaps_within max_range_miles nodes -> within_reach max_range_miles nodes.
Proof.
  induction 1; constructor; try assumption. now apply too_far_false.
Qed.

Lemma gaps_within_app (bound : Q) (pre : list Node.t) (a b : Node.t)
    (post : list Node.t) :
  gaps_within bound (pre ++ a :: b :: post) -> miles b - miles a <= bound.
Proof.
  induction pre as [|c pre IH]; simpl; intro H.
  - now inversion H.
  - apply IH. destruct pre; simpl in *; now inversion H.
Qed.

(** ** The scan and its visits *)

Section ScanFacts.

Variables total_miles mpg max_range_miles : Q.

Lemma scan_cons (here next : Node.t) (ahead : list Node.t) (st : scan_state) :
  scan total_miles mpg max_range_miles (here :: next :: ahead) st
  = scan total_miles mpg max_range_miles (next :: ahead)
      (scan_step total_miles mpg max_range_miles here next (next :: ahead) st).
Proof. reflexivity. Qed.

Lemma visits_cons (here next : Node.t) (ahead : list Node.t) (f : Q) :
  visits total_miles mpg max_range_miles (here :: next :: ahead) f
  = let buy := buy_gal total_miles mpg max_range_miles here (next :: ahead) f in
    let cost := xscale buy (Node.price here) in
    mk_visit here (next :: ahead) f buy cost (f + buy)
             (f + buy - burn mpg here next)
      :: visits total_miles mpg max_range_miles (next :: ahead)
           (f + buy - burn mpg here next).
Proof. reflexivity. Qed.

Lemma scan_plan (nodes : list Node.t) (st : scan_state) :
  plan (scan total_miles mpg max_range_miles nodes st)
  = plan st
    ++ flat_map visit_entries
         (visits total_miles mpg max_range_miles nodes (fuel st)).
Proof.
  revert st. induction nodes as [|here ahead IH]; intro st.
  - simpl. now rewrite app_nil_r.
  - destruct ahead as [|next ahead].
    + simpl. now rewrite app_nil_r.
    + rewrite scan_cons, visits_cons, IH.
      cbn [scan_step plan fuel flat_map]. now rewrite <- app_assoc.
Qed.

Lemma scan_total_cost (nodes : list Node.t) (st : scan_state) :
  total_cost (scan total_miles mpg max_range_miles nodes st)
  = xsum_from (total_cost st)
      (map v_cost (visits total_miles mpg max_range_miles nodes (fuel st))).
Proof.
  revert st. induction nodes as [|here ahead IH]; intro st; [reflexivity|].
  destruct ahead as [|next ahead]; [reflexivity|].
  rewrite scan_cons, visits_cons, IH. reflexivity.
Qed.

(** Every visit is at a node that has a successor in the list, and
    looks ahead at exactly the nodes after it. *)
Lemma visits_split (nodes : list Node.t) (f : Q) (v : visit) :
  In v (visits total_miles mpg max_range_miles nodes f) ->
  exists pre next post,
    nodes = pre ++ v_here v :: next :: post /\
    v_ahead v = next :: post /\
    v_buy v = buy_gal total_miles mpg max_range_miles
                (v_here v) (v_ahead v) (v_fuel_in v) /\
    v_cost v = xscale (v_buy v) (Node.price (v_here v)) /\
    v_fuel_full v = v_fuel_in v + v_buy v /\
    v_fuel_out v = v_fuel_full v - burn mpg (v_here v) next.
Proof.
  revert f. induction nodes as [|here ahead IH]; intro f; [intros []|].
  destruct ahead as [|next ahead]; [intros []|].
  rewrite visits_cons. intros [<- | Hin].
  - exists [], next, ahead. simpl. repeat split; reflexivity.
  - destruct (IH _ Hin) as (pre & nx & post & Heq & Hrest).
    exists (here :: pre), nx, post. split; [|exact Hrest].
    simpl. now rewrite Heq.
Qed.

(** The nodes visited are all the nodes but the last. *)
Lemma visits_here (nodes : list Node.t) (f : Q) :
  map v_here (visits total_miles mpg max_range_miles nodes f)
  = removelast nodes.
Proof.
  revert f. induction nodes as [|here ahead IH]; intro f; [reflexivity|].
  destruct ahead as [|next ahead]; [reflexivity|].
  rewrite visits_cons. cbn [map v_here]. rewrite IH. reflexivity.
Qed.

End ScanFacts.

(** On the node list of [min_cost_plan] the visited nodes are the
    stations that passed the filter: the terminal is last, and never
    visited. *)
Lemma visits_build_nodes_here (stations : list Node.t)
    (total_miles mpg max_range_miles f : Q) :
  map v_here (visits total_miles mpg max_range_miles
                (build_nodes stations total_miles) f)
  = real_nodes stations total_miles.
Proof.
  rewrite visits_here, build_nodes_shape. apply removelast_last.
Qed.

Lemma visit_build_nodes_station (stations : list Node.t)
    (total_miles mpg max_range_miles f : Q) (v : visit) :
  In v (visits total_miles mpg max_range_miles
          (build_nodes stations total_miles) f) ->
  In (v_here v) stations /\ miles (v_here v) <= total_miles.
Proof.
  intro Hv. apply real_nodes_In.
  rewrite <- (visits_build_nodes_here stations total_miles mpg
                max_range_miles f).
  now apply in_map.
Qed.

(** The successful result of [min_cost_plan], in terms of the scan. *)
Lemma min_cost_plan_Some (stations : list Node.t)
    (total_miles mpg max_range_miles : Q) (p : Plan.t) (e : option plan_error) :
  min_cost_plan stations total_miles mpg max_range_miles
    = Returned (Some p, e) ->
  ~ mpg == 0 /\
  within_reach max_range_miles (build_nodes stations total_miles) /\
  e = None /\
  p = Plan.mk
        (plan (raw_scan stations total_miles mpg max_range_miles))
        (xround (total_cost (raw_scan stations total_miles mpg
                               max_range_miles)) 4)
        (py_round (max_range_miles / mpg) 4).
Proof.
  unfold min_cost_plan, raw_scan.
  destruct (Qeq_bool mpg 0) eqn:Empg; [discriminate|].
  destruct (first_gap max_range_miles (build_nodes stations total_miles))
    eqn:Egap; [discriminate|].
  intro H. injection H as <- <-. repeat split.
  - intro Hz. apply Qeq_bool_iff in Hz. congruence.
  - now apply first_gap_None.
Qed.

Lemma min_cost_plan_within_reach (stations : list Node.t)
    (total_miles mpg max_range_miles : Q) :
  ~ mpg == 0 ->
  within_reach max_range_miles (build_nodes stations total_miles) ->
  min_cost_plan stations total_miles mpg max_range_miles
  = Returned
      (Some (Plan.mk
               (plan (raw_scan stations total_miles mpg max_range_miles))
               (xround (total_cost (raw_scan stations total_miles mpg
                                      max_range_miles)) 4)
               (py_round (max_range_miles / mpg) 4)),
       None).
Proof.
  intros Hmpg Hgaps. unfold min_cost_plan, raw_scan.
  destruct (Qeq_bool mpg 0) eqn:Empg.
  - apply Qeq_bool_iff in Empg. contradiction.
  - apply first_gap_None in Hgaps. now rewrite Hgaps.
Qed.

(** Gaps within the range in exact arithmetic pass the check. *)
Lemma min_cost_plan_feasible (stations : list Node.t)
    (total_miles mpg max_range_miles : Q) :
  ~ mpg == 0 ->
  gaps_within max_range_miles (build_nodes stations total_miles) ->
  min_cost_plan stations total_miles mpg max_range_miles
  = Returned
      (Some (Plan.mk
               (plan (raw_scan stations total_miles mpg max_range_miles))
               (xround (total_cost (raw_scan stations total_miles mpg
                                      max_range_miles)) 4)
               (py_round (max_range_miles / mpg) 4)),
       None).
Proof.
  intros Hmpg Hgaps. apply min_cost_plan_within_reach; [exact Hmpg|].
  now apply gaps_within_reach.
Qed.

Lemma raw_scan_plan (stations : list Node.t)
    (total_miles mpg max_range_miles : Q) :
  plan (raw_scan stations total_miles mpg max_range_miles)
  = flat_map visit_entries
      (visits total_miles mpg max_range_miles
         (build_nodes stations total_miles) 0).
Proof. unfold raw_scan. now rewrite scan_plan. Qed.

Lemma raw_scan_total_cost (stations : list Node.t)
    (total_miles mpg max_range_miles : Q) :
  total_cost (raw_scan stations total_miles mpg max_range_miles)
  = xsum_from (Fin 0)
      (map v_cost
         (visits total_miles mpg max_range_miles
            (build_nodes stations total_miles) 0)).
Proof. unfold raw_scan. now rewrite scan_total_cost. Qed.

(** ** C1: an unreachable gap fails the whole plan *)


(** C1 as stated fails when [mpg] is zero: the division of line 107 comes
    before the check and raises.  Stations at miles 0, 100 and 650 on a
    route of 700 miles with a range of 500: the nodes at 100 and 650 are
    550 miles apart, in exact arithmetic as by the test of line 113, and
    [min_cost_plan] raises [ZeroDivisionError] instead of returning
    [NO_FEASIBLE_PLAN]. *)
Lemma C1_zero_mpg_counterexample :
  build_nodes gap_stations 700
  = [station_at 1 0 3; station_at 2 100 3; station_at 3 650 3; terminal 700] /\
  500 + eps < miles (station_at 3 650 3) - miles (station_at 2 100 3) /\
  too_far 500 (station_at 2 100 3) (station_at 3 650 3) = true /\
  min_cost_plan gap_stations 700 0 500 = Raised ZeroDivisionError /\
  forall g : xfloat,
    min_cost_plan gap_stations 700 0 500
    <> Returned (None, Some (NO_FEASIBLE_PLAN g)).
Proof.
  split; [reflexivity|]. split; [reflexivity|].
  split; [vm_compute; reflexivity|]. split; [reflexivity|].
  intros g H. discriminate H.
Qed.

(** ** C4: the terminal node is never purchased from *)

Lemma recorded_entry (here : Node.t) (buy : Q) (cost : xfloat) (e : Stop.t) :
  In e (recorded here buy cost) ->
  exists s,
    Node.fs here = Some s /\ eps < buy /\
    e = plan_entry s (miles here) buy cost.
Proof.
  unfold recorded. destruct (Node.fs here) as [s|]; [|intros []].
  destruct (Qltb_spec eps buy) as [Hlt|Hge]; [|intros []].
  intros [<- | []]. now exists s.
Qed.

(** C4.  Every entry of the [stops] of a returned plan comes from one of
    the input stations, a node that has a station record and so is not the
    synthetic terminal; the entry carries that record's fields, and its
    price is the record's finite price. *)
Theorem C4_no_terminal_in_stops (stations : list Node.t)
    (total_miles mpg max_range_miles : Q) (p : Plan.t) :
  min_cost_plan stations total_miles mpg max_range_miles
    = Returned (Some p, None) ->
  Forall
    (fun e =>
       exists n s,
         In n stations /\ n <> terminal total_miles /\
         Node.fs n = Some s /\ entry_of_station e s /\
         Stop.route_miles e = py_round (miles n) 3 /\
         Stop.price e <> PInf /\
         exists q, Stop.price e = Fin q)
    (Plan.stops p).
Proof.
  intro H. apply min_cost_plan_Some in H.
  destruct H as (_ & _ & _ & ->). cbn [Plan.stops].
  rewrite raw_scan_plan. apply Forall_forall. intros e He.
  apply in_flat_map in He. destruct He as (v & Hv & He).
  apply recorded_entry in He. destruct He as (s & Hfs & _ & ->).
  apply visit_build_nodes_station in Hv. destruct Hv as [Hin _].
  exists (v_here v), s. repeat split; try assumption; try reflexivity.
  - intro Ht. rewrite Ht in Hfs. discriminate.
  - discriminate.
  - now exists (FuelStop.price s).
Qed.

(** ** The loop state after every iteration is the one the visits give *)

Lemma scan_as_visits (total_miles mpg max_range_miles : Q)
    (nodes : list Node.t) (st : scan_state) :
  scan total_miles mpg max_range_miles nodes st
  = fold_left state_after
      (visits total_miles mpg max_range_miles nodes (fuel st)) st.
Proof.
  revert st. induction nodes as [|here ahead IH]; intro st; [reflexivity|].
  destruct ahead as [|next ahead]; [reflexivity|].
  rewrite scan_cons, visits_cons, IH. reflexivity.
Qed.

Lemma raw_scan_as_visits (stations : list Node.t)
    (total_miles mpg max_range_miles : Q) :
  raw_scan stations total_miles mpg max_range_miles
  = fold_left state_after
      (visits total_miles mpg max_range_miles
         (build_nodes stations total_miles) (fuel init_state))
      init_state.
Proof.
  unfold raw_scan.
  exact (scan_as_visits total_miles mpg max_range_miles
           (build_nodes stations total_miles) init_state).
Qed.

Lemma visits_fuel_chain (total_miles mpg max_range_miles : Q)
    (nodes : list Node.t) (f : Q) :
  fuel_chain mpg f (visits total_miles mpg max_range_miles nodes f).
Proof.
  revert f. induction nodes as [|here ahead IH]; intro f; [exact I|].
  destruct ahead as [|next ahead]; [exact I|].
  rewrite visits_cons. cbv zeta.
  cbn [fuel_chain v_fuel_in v_fuel_full v_fuel_out v_buy v_ahead v_here].
  repeat split.
  - exists next, ahead. split; reflexivity.
  - apply IH.
Qed.

(** ** The lookahead *)

Lemma lookahead_Some (max_range_miles here_mile : Q) (here_price : xfloat)
    (ahead : list Node.t) (nj : Node.t) :
  lookahead max_range_miles here_mile here_price ahead = Some nj ->
  In nj ahead /\
  out_of_range max_range_miles here_mile nj = false /\
  xltb (Node.price nj) here_price = true.
Proof.
  induction ahead as [|nk ahead IH]; [discriminate|].
  cbn [lookahead].
  destruct (out_of_range max_range_miles here_mile nk) eqn:Er;
    [discriminate|].
  destruct (xltb (Node.price nk) here_price) eqn:Ep.
  - intro H. injection H as <-. repeat split; [now left | exact Er | exact Ep].
  - intro H. destruct (IH H) as (Hin & Hr & Hp). repeat split; auto.
    now right.
Qed.

(** ** C9: the tank never runs dry and never overflows *)

Section FuelBounds.

Variables total_miles mpg max_range_miles : Q.
Hypothesis mpg_pos : 0 < mpg.

(** The target of a fill-up is at least as far as the next node. *)
Lemma target_reaches_next (here next : Node.t) (ahead : list Node.t) :
  ascending_by miles (here :: next :: ahead) ->
  miles next <= total_miles ->
  miles next - miles here <= max_range_miles ->
  miles next <= target_miles total_miles max_range_miles here (next :: ahead).
Proof.
  intros Hasc Htot Hgap. unfold target_miles.
  destruct (lookahead max_range_miles (miles here) (Node.price here)
              (next :: ahead)) as [nj|] eqn:El.
  - apply lookahead_Some in El. destruct El as ([<- | Hin] & _ & _).
    + lra.
    + inversion Hasc as [|? ? Hasc' _]; subst.
      inversion Hasc' as [|? ? _ Hall]; subst.
      rewrite Forall_forall in Hall. now apply Hall.
  - apply py_min_glb; lra.
Qed.

(** A fill-up never targets a point beyond the destination. *)
Lemma target_le_total (here : Node.t) (ahead : list Node.t) :
  Forall (fun n => miles n <= total_miles) ahead ->
  target_miles total_miles max_range_miles here ahead <= total_miles.
Proof.
  intro Hall. unfold target_miles.
  destruct (lookahead max_range_miles (miles here) (Node.price here) ahead)
    as [nj|] eqn:El.
  - apply lookahead_Some in El. destruct El as (Hin & _ & _).
    rewrite Forall_forall in Hall. now apply Hall.
  - apply py_min_le_l.
Qed.

Lemma visits_fuel_bounds (nodes : list Node.t) (f : Q) :
  ascending_by miles nodes ->
  Forall (fun n => miles n <= total_miles) nodes ->
  gaps_within max_range_miles nodes ->
  f <= max_range_miles / mpg ->
  Forall (fun v => 0 <= v_fuel_out v /\
                   v_fuel_full v <= max_range_miles / mpg)
         (visits total_miles mpg max_range_miles nodes f).
Proof.
  revert f. induction nodes as [|here ahead IH]; intros f Hasc Htot Hgaps Hf;
    [constructor|].
  destruct ahead as [|next ahead]; [constructor|].
  rewrite visits_cons. cbv zeta.
  inversion Hgaps as [| |? ? ? Hgap Hgaps']; subst.
  inversion Htot as [|? ? _ Htot']; subst.
  inversion Hasc as [|? ? Hasc' Hhere]; subst.
  assert (Hnext : miles next <= total_miles) by now inversion Htot'.
  assert (Hup : miles here <= miles next) by now inversion Hhere.
  pose proof (target_reaches_next here next ahead Hasc Hnext Hgap) as Htgt.
  set (tank := max_range_miles / mpg) in *.
  set (need := (target_miles total_miles max_range_miles here (next :: ahead)
                - miles here) / mpg).
  assert (Hburn_need : burn mpg here next <= need).
  { unfold burn, need. apply Qdiv_le_mono; [exact mpg_pos | lra]. }
  assert (Hburn_tank : burn mpg here next <= tank).
  { unfold burn, tank. apply Qdiv_le_mono; [exact mpg_pos | lra]. }
  assert (Hburn0 : 0 <= burn mpg here next).
  { unfold burn. apply Qdiv_nonneg; [exact mpg_pos | lra]. }
  assert (Hbuy : buy_gal total_miles mpg max_range_miles here (next :: ahead) f
                 = py_max 0 (py_min tank need - f)) by reflexivity.
  assert (Hfull : f + py_max 0 (py_min tank need - f) <= tank).
  { minmax; lra. }
  assert (Hout : 0 <= f + py_max 0 (py_min tank need - f)
                      - burn mpg here next).
  { minmax; lra. }
  constructor.
  - cbn [v_fuel_out v_fuel_full]. rewrite Hbuy. split; assumption.
  - apply IH; try assumption. rewrite Hbuy. lra.
Qed.

End FuelBounds.

(** In exact arithmetic the fuel level is non-negative after every burn
    and at most the tank capacity after every purchase. *)
Lemma build_nodes_fuel_bounds (stations : list Node.t)
    (total_miles mpg max_range_miles : Q) :
  0 < mpg ->
  gaps_within max_range_miles (build_nodes stations total_miles) ->
  Forall (fun v => 0 <= v_fuel_out v /\
                   v_fuel_full v <= max_range_miles / mpg)
         (visits total_miles mpg max_range_miles
            (build_nodes stations total_miles) (fuel init_state)).
Proof.
  intros Hmpg Hgaps.
  destruct (build_nodes stations total_miles) as [|a [|b l]] eqn:En;
    [constructor | constructor |].
  rewrite <- En in *. apply visits_fuel_bounds; try assumption.
  - apply build_nodes_ascending.
  - apply build_nodes_le_total.
  - cbn [fuel init_state]. apply Qdiv_nonneg; [exact Hmpg|].
    pose proof (build_nodes_ascending stations total_miles) as Hasc.
    rewrite En in Hasc, Hgaps.
    inversion Hasc as [|? ? _ Ha]; subst. inversion Ha; subst.
    inversion Hgaps; subst. lra.
Qed.


(** C9 as stated fails for a negative [mpg], which nothing in the code
    excludes: stations at miles 0 and 100 on a route of 100 miles, a range
    of 500 and [mpg = -10].  Every gap is within the range and the plan is
    returned; the tank capacity [max_range_miles / mpg] is -50, nothing is
    bought, and the fuel level after the purchase, 0 at the first node and
    10 at the second, exceeds it. *)
Lemma C9_negative_mpg_counterexample :
  let vs := visits 100 (- (10)) 500 (build_nodes uniform_stations 100)
              (fuel init_state) in
  gaps_within 500 (build_nodes uniform_stations 100) /\
  (exists p,
      min_cost_plan uniform_stations 100 (- (10)) 500
        = Returned (Some p, None) /\
      Plan.tank_gallons_capacity p = - (50)) /\
  raw_scan uniform_stations 100 (- (10)) 500
    = fold_left state_after vs init_state /\
  Forall (fun v => 500 / - (10) < v_fuel_full v) vs /\
  Forall (fun v => ~ v_fuel_full v <= 500 / - (10)) vs /\
  vs <> [].
Proof.
  cbv zeta. split.
  { vm_compute.
    repeat first [apply gaps_nil | apply gaps_one
                  | apply gaps_cons; [discriminate|]]. }
  split.
  { eexists. split; [vm_compute; reflexivity | reflexivity]. }
  split; [apply raw_scan_as_visits|].
  split; [|split].
  - vm_compute. repeat constructor.
  - vm_compute. repeat constructor; intro H; apply H; reflexivity.
  - vm_compute. discriminate.
Qed.

(** ** C10: what [total_cost] adds up and what [stops] records *)

Lemma xsum_from_Fin (a : Q) (l : list Q) :
  exists c, xsum_from (Fin a) (map Fin l) = Fin c /\ c == a + qsum l.
Proof.
  revert a. induction l as [|x l IH]; intro a.
  - exists a. split; [reflexivity | simpl; lra].
  - destruct (IH (a + x)) as (c & Hc & Heq).
    exists c. split; [exact Hc | simpl; lra].
Qed.

Lemma qsum_split {A : Type} (f : A -> bool) (g : A -> Q) (l : list A) :
  qsum (map g l)
  == qsum (map g (filter f l)) + qsum (map g (filter (fun a => negb (f a)) l)).
Proof.
  induction l as [|x l IH]; [simpl; lra|].
  simpl. destruct (f x); simpl; lra.
Qed.

Lemma qsum_nonneg (l : list Q) : Forall (fun x => 0 <= x) l -> 0 <= qsum l.
Proof. induction 1; simpl; lra. Qed.

Lemma qsum_In_le (l : list Q) (x : Q) :
  Forall (fun y => 0 <= y) l -> In x l -> x <= qsum l.
Proof.
  induction 1 as [|y l Hy Hl IH]; [intros []|].
  pose proof (qsum_nonneg l Hl) as H0.
  intros [-> | Hin]; simpl; [lra|]. specialize (IH Hin). lra.
Qed.

Lemma py_max_0_nonneg (x : Q) : 0 <= py_max 0 x.
Proof. apply py_max_le_l. Qed.

Lemma flat_map_recorded (vs : list visit) :
  Forall2
    (fun v e =>
       exists s, Node.fs (v_here v) = Some s /\
                 e = plan_entry s (miles (v_here v)) (v_buy v) (v_cost v))
    (filter is_recorded vs) (flat_map visit_entries vs).
Proof.
  induction vs as [|v vs IH]; [constructor|].
  cbn [filter flat_map]. unfold is_recorded at 1, visit_entries at 1, recorded.
  destruct (Node.fs (v_here v)) as [s|] eqn:Efs; [|exact IH].
  destruct (Qltb eps (v_buy v)); [|exact IH].
  cbn [app]. constructor; [|exact IH]. now exists s.
Qed.

Section CostAccounting.

Variables (stations : list Node.t) (total_miles mpg max_range_miles : Q).

Let vs : list visit :=
  visits total_miles mpg max_range_miles (build_nodes stations total_miles) 0.

Hypothesis prices_ok : Forall price_ok stations.

Lemma visit_cost_finite (v : visit) :
  In v vs -> v_cost v = Fin (cost_q v) /\ 0 <= cost_q v.
Proof.
  intro Hv. pose proof (visit_build_nodes_station _ _ _ _ _ _ Hv) as [Hin _].
  rewrite Forall_forall in prices_ok.
  destruct (prices_ok _ Hin) as (q & Hq & Hq0).
  apply visits_split in Hv.
  destruct Hv as (pre & next & post & _ & _ & Hbuy & Hcost & _).
  unfold cost_q. rewrite Hcost, Hq. cbn [xscale finite_part].
  split; [reflexivity|].
  rewrite Hbuy. unfold buy_gal.
  apply Qmult_le_0_compat; [apply py_max_0_nonneg | exact Hq0].
Qed.

Lemma raw_total_is_recorded_plus_skipped :
  exists c,
    total_cost (raw_scan stations total_miles mpg max_range_miles) = Fin c /\
    c == qsum (map cost_q (filter is_recorded vs))
         + qsum (map cost_q (filter is_skipped vs)) /\
    0 <= qsum (map cost_q (filter is_skipped vs)).
Proof.
  rewrite raw_scan_total_cost. fold vs.
  assert (Hmap : map v_cost vs = map Fin (map cost_q vs)).
  { rewrite map_map. apply map_ext_in. intros v Hv.
    now apply visit_cost_finite. }
  rewrite Hmap. destruct (xsum_from_Fin 0 (map cost_q vs)) as (c & Hc & Heq).
  exists c. split; [exact Hc|]. split.
  - rewrite Heq, (qsum_split is_recorded cost_q vs). unfold is_skipped. lra.
  - apply qsum_nonneg. apply Forall_forall. intros x Hx.
    apply in_map_iff in Hx. destruct Hx as (v & <- & Hv).
    apply filter_In in Hv. now apply visit_cost_finite.
Qed.

(** A purchase that is not recorded is part of what is paid on top of
    the recorded ones. *)
Lemma skipped_cost_le (v : visit) :
  In v vs -> is_skipped v = true ->
  cost_q v <= qsum (map cost_q (filter is_skipped vs)).
Proof.
  intros Hv Hs. apply qsum_In_le.
  - apply Forall_forall. intros x Hx.
    apply in_map_iff in Hx. destruct Hx as (w & <- & Hw).
    apply filter_In in Hw. now apply visit_cost_finite.
  - apply in_map. apply filter_In. now split.
Qed.

End CostAccounting.


(** ** C2: with one price everywhere the plan buys exactly the fuel burnt *)

Lemma lookahead_None_no_cheaper (max_range_miles here_mile : Q)
    (here_price : xfloat) (ahead : list Node.t) :
  Forall (fun n => xltb (Node.price n) here_price = false) ahead ->
  lookahead max_range_miles here_mile here_price ahead = None.
Proof.
  induction 1 as [|nk ahead Hnk _ IH]; [reflexivity|].
  cbn [lookahead]. rewrite Hnk, IH.
  now destruct (out_of_range max_range_miles here_mile nk).
Qed.

Lemma xltb_irrefl_Fin (q : Q) : xltb (Fin q) (Fin q) = false.
Proof. simpl. apply Qltb_false. lra. Qed.

Section UniformPrice.

Variables total_miles mpg max_range_miles q : Q.
Variable t : Node.t.

Hypothesis mpg_pos : 0 < mpg.
Hypothesis t_at_total : miles t == total_miles.
Hypothesis t_not_cheaper : xltb (Node.price t) (Fin q) = false.

(** One fill-up when no node ahead is cheaper, in gallons: the purchase
    tops the tank up to the smaller of the tank capacity and the fuel for
    the rest of the route. *)
Lemma buy_gal_no_cheaper (here : Node.t) (ahead : list Node.t) (f : Q) :
  Node.price here = Fin q ->
  Forall (fun n => xltb (Node.price n) (Fin q) = false) ahead ->
  buy_gal total_miles mpg max_range_miles here ahead f
  = py_max 0
      (py_min (max_range_miles / mpg)
         ((py_min total_miles (miles here + max_range_miles) - miles here)
            / mpg) - f).
Proof.
  intros Hp Hno. unfold buy_gal, target_miles. rewrite Hp.
  now rewrite lookahead_None_no_cheaper.
Qed.

Lemma uniform_purchases (reals : list Node.t) :
  forall (here : Node.t) (f : Q),
    ascending_by miles (here :: reals ++ [t]) ->
    gaps_within max_range_miles (here :: reals ++ [t]) ->
    Forall (fun n => Node.price n = Fin q) (here :: reals) ->
    f <= (total_miles - miles here) / mpg ->
    qsum (map v_buy (visits total_miles mpg max_range_miles
                       (here :: reals ++ [t]) f))
    == (total_miles - miles here) / mpg - f.
Proof.
  pose proof (Qinv_lt_0_compat mpg mpg_pos) as Hi.
  induction reals as [|next reals' IH]; intros here f Hasc Hgaps Hprice Hf.
  - cbn [app]. rewrite visits_cons. cbv zeta.
    change (visits total_miles mpg max_range_miles [t]) with
      (fun _ : Q => @nil visit).
    cbn [map qsum fold_right v_buy].
    rewrite buy_gal_no_cheaper;
      [| now inversion Hprice
       | constructor; [exact t_not_cheaper | constructor]].
    inversion Hgaps as [| |? ? ? Hgap _]; subst.
    inversion Hasc as [|? ? _ Hup]; subst. inversion Hup as [|? ? Hle _]; subst.
    unfold Qdiv in *. set (i := / mpg) in *.
    minmax; nra.
  - cbn [app] in *. rewrite visits_cons. cbv zeta.
    cbn [map qsum fold_right v_buy]. fold (qsum).
    inversion Hprice as [|? ? Hp Hprice']; subst.
    assert (Hno : Forall (fun n => xltb (Node.price n) (Fin q) = false)
                         (next :: reals' ++ [t])).
    { apply (Forall_app _ (next :: reals') [t]). split.
      - eapply Forall_impl; [|exact Hprice']. simpl. intros n ->.
        apply xltb_irrefl_Fin.
      - constructor; [exact t_not_cheaper | constructor]. }
    rewrite (buy_gal_no_cheaper here _ f Hp Hno).
    inversion Hgaps as [| |? ? ? Hgap Hgaps']; subst.
    inversion Hasc as [|? ? Hasc' Hup]; subst.
    assert (Hle : miles here <= miles next) by now inversion Hup.
    assert (Hnt : miles next <= total_miles).
    { inversion Hasc' as [|? ? _ Hall]; subst.
      rewrite Forall_forall in Hall. rewrite <- t_at_total. apply Hall.
      apply in_or_app. right. now left. }
    set (buy := py_max 0 _).
    assert (Hf' : f + buy - burn mpg here next
                  <= (total_miles - miles next) / mpg).
    { unfold buy, burn, Qdiv in *. set (i := / mpg) in *. minmax; nra. }
    rewrite (IH next _ Hasc' Hgaps' Hprice' Hf').
    unfold burn, Qdiv. lra.
Qed.

End UniformPrice.

Lemma qsum_scale {A : Type} (g : A -> Q) (k : Q) (l : list A) :
  qsum (map (fun a => g a * k) l) == qsum (map g l) * k.
Proof. induction l as [|x l IH]; simpl; [lra | rewrite IH; lra]. Qed.

(** The purchases of the scan: with one price [q] at every station, a
    first node at mile 0 and no gap over the range, they add up to
    [total_miles / mpg] gallons and cost [q] each. *)
Lemma uniform_scan (stations : list Node.t)
    (total_miles mpg max_range_miles q : Q) :
  0 < mpg ->
  Forall (fun n => Node.price n = Fin q) stations ->
  gaps_within max_range_miles (build_nodes stations total_miles) ->
  (exists n0 rest,
      build_nodes stations total_miles = n0 :: rest /\ miles n0 == 0) ->
  let vs := visits total_miles mpg max_range_miles
              (build_nodes stations total_miles) 0 in
  qsum (map v_buy vs) == total_miles / mpg /\
  exists c,
    total_cost (raw_scan stations total_miles mpg max_range_miles) = Fin c /\
    c == total_miles / mpg * q.
Proof.
  intros Hmpg Hprice Hgaps (n0 & rest & Hnodes & Hzero) vs.
  assert (Hsum : qsum (map v_buy vs) == total_miles / mpg).
  { unfold vs. clear vs.
    pose proof (build_nodes_ascending stations total_miles) as Hasc.
    pose proof (build_nodes_le_total stations total_miles) as Htot.
    rewrite build_nodes_shape in *.
    destruct (real_nodes stations total_miles) as [|here reals] eqn:Er.
    - cbn [app] in *. injection Hnodes as <- _. simpl in Hzero.
      simpl. unfold Qdiv. rewrite Hzero. lra.
    - cbn [app] in *. injection Hnodes as <- _.
      inversion Htot as [|? ? Hhere _]; subst.
      rewrite (uniform_purchases total_miles mpg max_range_miles q
                 (terminal total_miles) Hmpg);
        try assumption.
      + unfold Qdiv. rewrite Hzero. lra.
      + reflexivity.
      + reflexivity.
      + rewrite <- Er. apply Forall_forall. intros n Hn.
        apply real_nodes_In in Hn. rewrite Forall_forall in Hprice.
        now apply Hprice.
      + apply Qdiv_nonneg; [exact Hmpg | lra]. }
  split; [exact Hsum|].
  rewrite raw_scan_total_cost. fold vs.
  assert (Hmap : map v_cost vs = map Fin (map (fun v => v_buy v * q) vs)).
  { rewrite map_map. apply map_ext_in. intros v Hv.
    pose proof (visit_build_nodes_station _ _ _ _ _ _ Hv) as [Hin _].
    rewrite Forall_forall in Hprice. pose proof (Hprice _ Hin) as Hq.
    apply visits_split in Hv.
    destruct Hv as (? & ? & ? & _ & _ & _ & Hc & _).
    now rewrite Hc, Hq. }
  rewrite Hmap.
  destruct (xsum_from_Fin 0 (map (fun v => v_buy v * q) vs)) as (c & Hc & Heq).
  exists c. split; [exact Hc|].
  rewrite Heq, qsum_scale, Hsum. lra.
Qed.

(** C2 (as amended).  When every station costs 3.00 per gallon, no two
    consecutive nodes are more than [max_range_miles] apart, [mpg] is
    positive and the first node lies at route mile 0 (the start station
    the caller puts there), the plan is returned, the purchases of the
    scan add up to exactly [total_miles / mpg] gallons, the unrounded
    total cost is [total_miles / mpg * 3], and the returned [total_cost]
    is that amount rounded to four decimals, so within [0.00005] of it. *)
Theorem C2_uniform_price_total_cost (stations : list Node.t)
    (total_miles mpg max_range_miles : Q) :
  0 < mpg ->
  Forall (fun n => Node.price n = Fin 3) stations ->
  gaps_within max_range_miles (build_nodes stations total_miles) ->
  (exists n0 rest,
      build_nodes stations total_miles = n0 :: rest /\ miles n0 == 0) ->
  exists p c,
    min_cost_plan stations total_miles mpg max_range_miles
      = Returned (Some p, None) /\
    qsum (map v_buy (visits total_miles mpg max_range_miles
                       (build_nodes stations total_miles) 0))
      == total_miles / mpg /\
    total_cost (raw_scan stations total_miles mpg max_range_miles) = Fin c /\
    c == total_miles / mpg * 3 /\
    Plan.total_cost p = Fin (py_round c 4) /\
    Qabs (py_round c 4 - total_miles / mpg * 3) <= 1 # 20000.
Proof.
  intros Hmpg Hprice Hgaps Hstart.
  destruct (uniform_scan stations total_miles mpg max_range_miles 3
              Hmpg Hprice Hgaps Hstart) as (Hsum & c & Hc & Heq).
  eexists. exists c. split.
  - apply min_cost_plan_feasible; [lra | exact Hgaps].
  - cbn [Plan.total_cost]. rewrite Hc. cbn [xround].
    repeat split; try assumption.
    rewrite <- Heq. apply py_round_close_4.
Qed.

(** C2 as stated fails without a station at mile 0: one station at mile
    50 of a 100-mile route, priced 3.00, with [mpg = 10] and a range of
    500.  Every gap is within range and the plan is returned, but it
    costs 15, not [100 / 10 * 3 = 30]. *)
Lemma C2_no_start_station_counterexample :
  let stations := [station_at 1 50 3] in
  Forall (fun n => Node.price n = Fin 3) stations /\
  gaps_within 500 (build_nodes stations 100) /\
  exists p,
    min_cost_plan stations 100 10 500 = Returned (Some p, None) /\
    Plan.total_cost p = Fin 15 /\
    (exists c, total_cost (raw_scan stations 100 10 500) = Fin c /\ c == 15) /\
    ~ Qabs (15 - 100 / 10 * 3) <= 1 # 20000.
Proof.
  cbv zeta. split; [repeat constructor|]. split.
  - vm_compute. constructor; [discriminate | constructor].
  - eexists. split; [vm_compute; reflexivity|].
    split; [reflexivity|]. split.
    + eexists. split; [vm_compute; reflexivity | reflexivity].
    + vm_compute. intro H. apply H. reflexivity.
Qed.


(** A purchase of at most [1e-6] gallons is paid but not recorded: the
    first station, at 3.00, buys the 0.0000005 gallons that reach a
    cheaper station 0.000005 miles on.  The unrounded total then exceeds
    the unrounded cost of the one recorded purchase. *)
Example skipped_purchase_is_paid :
  let stations := [station_at 1 0 3; station_at 2 (5 # 1000000) 2] in
  let vs := visits 100 10 500 (build_nodes stations 100) 0 in
  map is_recorded vs = [false; true] /\
  exists c,
    total_cost (raw_scan stations 100 10 500) = Fin c /\
    qsum (map cost_q (filter is_recorded vs)) < c.
Proof.
  cbv zeta. split; [vm_compute; reflexivity|].
  eexists. split; [vm_compute; reflexivity | reflexivity].
Qed.

(** ** C3: buy only what reaches the next cheaper station *)

Lemma find_none_Forall {A : Type} (f : A -> bool) (l : list A) :
  Forall (fun a => f a = false) l -> find f l = None.
Proof. induction 1 as [|a l Ha _ IH]; simpl; [|rewrite Ha]; auto. Qed.

(** On an ascending list the lookahead that gives up at the first node
    out of range finds the first node in range that is cheaper. *)
Lemma lookahead_is_find (max_range_miles : Q) (here : Node.t)
    (ahead : list Node.t) :
  ascending_by miles ahead ->
  lookahead max_range_miles (miles here) (Node.price here) ahead
  = find (fun n => negb (out_of_range max_range_miles (miles here) n)
                   && xltb (Node.price n) (Node.price here)) ahead.
Proof.
  induction 1 as [|nk ahead Hasc IH Hnk]; [reflexivity|].
  cbn [lookahead find].
  destruct (out_of_range max_range_miles (miles here) nk) eqn:Er.
  - cbn [negb andb]. symmetry. apply find_none_Forall.
    eapply Forall_impl; [|exact Hnk]. cbv beta. intros n Hn.
    rewrite (out_of_range_later max_range_miles (miles here) nk n Hn Er).
    reflexivity.
  - cbn [negb andb].
    now destruct (xltb (Node.price nk) (Node.price here)).
Qed.

Lemma buy_gal_is_spec_buy (total_miles mpg max_range_miles : Q)
    (here : Node.t) (ahead : list Node.t) (f : Q) :
  ascending_by miles ahead ->
  buy_gal total_miles mpg max_range_miles here ahead f
  == spec_buy total_miles mpg max_range_miles here ahead f.
Proof.
  intro Hasc. unfold buy_gal, spec_buy, target_miles, spec_target.
  rewrite lookahead_is_find by exact Hasc.
  destruct (find _ ahead) as [nj|].
  - now rewrite py_max_Qmax, py_min_Qmin.
  - rewrite py_max_Qmax, py_min_Qmin, py_min_Qmin. reflexivity.
Qed.

Lemma ascending_by_app_r {A : Type} (key : A -> Q) (l1 l2 : list A) :
  ascending_by key (l1 ++ l2) -> ascending_by key l2.
Proof.
  induction l1 as [|x l1 IH]; simpl; intro H; [exact H|].
  apply IH. now inversion H.
Qed.

(** The start station at 4.00 and a station at mile 200 for 3.00. *)
Lemma cheaper_ahead_nodes (total_miles : Q) :
  200 <= total_miles ->
  build_nodes [station_at 1 0 4; station_at 2 200 3] total_miles
  = [station_at 1 0 4; station_at 2 200 3; terminal total_miles].
Proof.
  intro H. unfold build_nodes. cbn [filter station_at Node.route_miles].
  rewrite (Qle_bool_true 0 total_miles) by lra.
  rewrite (Qle_bool_true 200 total_miles) by lra.
  cbn [app]. unfold sort_by_route_miles, sort_by.
  cbn [fold_right insert_by terminal Node.route_miles].
  change (miles (station_at 2 200 3)) with 200.
  rewrite (Qle_bool_true 200 total_miles) by lra.
  reflexivity.
Qed.

Lemma Forall2_impl_In {A B : Type} (P Q : A -> B -> Prop)
    (l1 : list A) (l2 : list B) :
  Forall2 P l1 l2 ->
  (forall a b, In a l1 -> P a b -> Q a b) ->
  Forall2 Q l1 l2.
Proof.
  induction 1 as [|a b l1 l2 Hab _ IH]; intro H; constructor.
  - apply H; [now left | exact Hab].
  - apply IH. intros a' b' Hin. apply H. now right.
Qed.

(** Every purchase of the scan is the one the specification words. *)
Lemma visit_buys_spec_buy (stations : list Node.t)
    (total_miles mpg max_range_miles : Q) (v : visit) :
  In v (visits total_miles mpg max_range_miles
          (build_nodes stations total_miles) (fuel init_state)) ->
  (exists pre,
      build_nodes stations total_miles = pre ++ v_here v :: v_ahead v) /\
  v_buy v == spec_buy total_miles mpg max_range_miles
               (v_here v) (v_ahead v) (v_fuel_in v).
Proof.
  intro Hv. apply visits_split in Hv.
  destruct Hv as (pre & next & post & Hnodes & Hahead & Hbuy & _).
  split.
  - exists pre. now rewrite Hahead.
  - rewrite Hbuy. apply buy_gal_is_spec_buy.
    pose proof (build_nodes_ascending stations total_miles) as Hasc.
    rewrite Hnodes in Hasc. apply ascending_by_app_r in Hasc.
    rewrite Hahead. now inversion Hasc.
Qed.

(** C3.  The loop of [min_cost_plan] runs visit by visit: the state it
    ends in is the one the visits lead to, each visit starting with the
    fuel the one before left.  At every visit the gallons bought are
    [max(0, min(tankCapacity, requiredGallons) - fuelLevel)], where the
    required gallons cover the distance to the first later node that is
    within [max_range_miles] and strictly cheaper or, without one, to
    [min(total_miles, here + max_range_miles)]; and the [gallons_bought]
    of the stops of a returned plan are these amounts, rounded to four
    decimals, of the visits that are recorded, in order.  In particular,
    with a start station at 4.00 and a station at mile 200 for 3.00, a
    range of 500 and [mpg = 10], on any route from 200 to 700 miles, the
    first entry of the plan is the start station with exactly 20 gallons,
    while the tank holds 50. *)
Theorem C3_buy_to_next_cheaper :
  (forall (stations : list Node.t) (total_miles mpg max_range_miles : Q),
      let vs := visits total_miles mpg max_range_miles
                  (build_nodes stations total_miles) (fuel init_state) in
      raw_scan stations total_miles mpg max_range_miles
        = fold_left state_after vs init_state /\
      fuel_chain mpg (fuel init_state) vs /\
      (forall v,
          In v vs ->
          (exists pre,
              build_nodes stations total_miles
              = pre ++ v_here v :: v_ahead v) /\
          v_buy v == spec_buy total_miles mpg max_range_miles
                       (v_here v) (v_ahead v) (v_fuel_in v)) /\
      (forall p,
          min_cost_plan stations total_miles mpg max_range_miles
            = Returned (Some p, None) ->
          Forall2
            (fun v e =>
               exists s,
                 Node.fs (v_here v) = Some s /\
                 entry_of_station e s /\
                 Stop.gallons_bought e
                 = py_round (spec_buy total_miles mpg max_range_miles
                               (v_here v) (v_ahead v) (v_fuel_in v)) 4)
            (filter is_recorded vs) (Plan.stops p))) /\
  (forall total_miles : Q,
      200 <= total_miles -> total_miles <= 700 ->
      exists p e rest,
        min_cost_plan [station_at 1 0 4; station_at 2 200 3] total_miles 10 500
          = Returned (Some p, None) /\
        Plan.stops p = e :: rest /\
        Stop.id e = 1%Z /\
        Stop.route_miles e = 0 /\
        Stop.price e = Fin 4 /\
        Stop.gallons_bought e = 20 /\
        Plan.tank_gallons_capacity p = 50).
Proof.
  split.
  - intros stations total_miles mpg max_range_miles vs.
    split; [apply raw_scan_as_visits|].
    split; [apply visits_fuel_chain|].
    split; [intros v Hv; now apply visit_buys_spec_buy|].
    intros p Hp. apply min_cost_plan_Some in Hp.
    destruct Hp as (_ & _ & _ & ->). cbn [Plan.stops].
    rewrite raw_scan_plan.
    change (visits total_miles mpg max_range_miles
              (build_nodes stations total_miles) 0) with vs.
    eapply Forall2_impl_In; [apply flat_map_recorded|].
    cbv beta. intros v e Hv (s & Hfs & ->).
    apply filter_In in Hv. destruct Hv as [Hv _].
    exists s. split; [exact Hfs|]. split.
    + repeat split; reflexivity.
    + cbn [plan_entry Stop.gallons_bought]. apply py_round_proper.
      now apply (visit_buys_spec_buy stations).
  - intros total_miles Hlo Hhi.
    pose proof (cheaper_ahead_nodes total_miles Hlo) as Hnodes.
    eexists. eexists. eexists. split.
    + apply min_cost_plan_feasible; [vm_compute; discriminate|].
      rewrite Hnodes.
      repeat first [apply gaps_nil | apply gaps_one | apply gaps_cons];
        cbn [station_at terminal Node.route_miles]; lra.
    + cbn [Plan.stops Plan.tank_gallons_capacity].
      rewrite raw_scan_plan, Hnodes, visits_cons. cbv zeta.
      cbn [flat_map]. unfold visit_entries at 1.
      cbn [v_here v_buy v_cost].
      set (buy := buy_gal total_miles 10 500 (station_at 1 0 4)
                    [station_at 2 200 3; terminal total_miles] 0).
      assert (Hbuy : buy = 200 / 10) by (vm_compute; reflexivity).
      rewrite Hbuy. unfold recorded. cbn [station_at Node.fs].
      change (Qltb eps (200 / 10)) with true. cbv iota.
      split; [reflexivity|].
      repeat split; vm_compute; reflexivity.
Qed.

(** ** C5 and C8: [cumulative_miles] *)

Section CumulativeFacts.

Variables radians sin cos asin sqrt : Q -> Q.

Let hav := haversine_miles radians sin cos asin sqrt.
Let cum_loop := cumulative_loop radians sin cos asin sqrt.
Let cum_miles := cumulative_miles radians sin cos asin sqrt.

Lemma cumulative_loop_length (rest : list point) (prev : point) (last : Q) :
  List.length (cum_loop prev rest last) = List.length rest.
Proof.
  revert prev last. induction rest as [|p rest IH]; intros prev last;
    [reflexivity|].
  cbn. now rewrite IH.
Qed.

Lemma cumulative_miles_length (poly : list point) :
  List.length (cum_miles poly) = Nat.max 1 (List.length poly).
Proof.
  destruct poly as [|p0 rest]; [reflexivity|].
  unfold cum_miles, cumulative_miles. cbn [List.length].
  fold cum_loop. rewrite cumulative_loop_length. reflexivity.
Qed.

Hypothesis sqrt_nonneg : forall x, 0 <= sqrt x.
Hypothesis asin_nonneg : forall x, 0 <= x -> 0 <= asin x.

Lemma haversine_miles_nonneg (lat1 lon1 lat2 lon2 : Q) :
  0 <= hav lat1 lon1 lat2 lon2.
Proof.
  unfold hav, haversine_miles. cbv zeta.
  apply Qmult_le_0_compat; [reflexivity || (vm_compute; discriminate)|].
  apply asin_nonneg, sqrt_nonneg.
Qed.

Lemma cumulative_loop_sorted (rest : list point) (prev : point) (last : Q) :
  Sorted Qle (last :: cum_loop prev rest last).
Proof.
  revert prev last. induction rest as [|p rest IH]; intros prev last.
  - repeat constructor.
  - cbn. constructor; [apply IH|]. constructor.
    pose proof (haversine_miles_nonneg (fst prev) (snd prev) (fst p) (snd p)).
    unfold hav in *. lra.
Qed.

Lemma cumulative_miles_sorted (poly : list point) :
  hd_error (cum_miles poly) = Some 0 /\ non_decreasing (cum_miles poly).
Proof.
  split; [reflexivity|]. unfold non_decreasing.
  destruct poly as [|p0 rest]; [repeat constructor|].
  apply cumulative_loop_sorted.
Qed.

End CumulativeFacts.

(** C5 (as amended).  [cumulative_miles] returns one entry per point for
    a non-empty sequence, and the one-entry sequence [[0.0]] for the empty
    one: the List.length of its result is [max(1, len(poly))]. *)
Theorem C5_cumulative_miles_length (radians sin cos asin sqrt : Q -> Q)
    (poly : list point) :
  List.length (cumulative_miles radians sin cos asin sqrt poly)
  = Nat.max 1 (List.length poly) /\
  (poly <> [] ->
   List.length (cumulative_miles radians sin cos asin sqrt poly) = List.length poly) /\
  cumulative_miles radians sin cos asin sqrt [] = [0].
Proof.
  split; [apply cumulative_miles_length|]. split; [|reflexivity].
  intro Hne. rewrite cumulative_miles_length.
  destruct poly; [contradiction | cbn; lia].
Qed.

(** C5 as stated fails on the empty sequence: the result has one entry,
    the input none. *)
Lemma C5_empty_sequence_counterexample :
  List.length (cumulative_miles flat_radians flat_sin flat_cos flat_asin flat_sqrt
            [])
  <> List.length (@nil point).
Proof. discriminate. Qed.

(** C8.  With a square root that is never negative and an arc sine that
    is non-negative on non-negative arguments, every haversine distance is
    non-negative, and the result of [cumulative_miles] starts with [0] and
    never decreases from one entry to the next. *)
Theorem C8_cumulative_miles_monotone (radians sin cos asin sqrt : Q -> Q)
    (poly : list point) :
  (forall x, 0 <= sqrt x) ->
  (forall x, 0 <= x -> 0 <= asin x) ->
  (forall lat1 lon1 lat2 lon2,
      0 <= haversine_miles radians sin cos asin sqrt lat1 lon1 lat2 lon2) /\
  hd_error (cumulative_miles radians sin cos asin sqrt poly) = Some 0 /\
  non_decreasing (cumulative_miles radians sin cos asin sqrt poly).
Proof.
  intros Hsqrt Hasin. split.
  - intros. now apply haversine_miles_nonneg.
  - now apply cumulative_miles_sorted.
Qed.

(** ** C7: [attach_route_miles] *)

Section ProjectionFacts.

Variables radians sin cos asin sqrt : Q -> Q.

Let hav := haversine_miles radians sin cos asin sqrt.

(** The distance the scan of lines 85-89 computes for a vertex. *)
Let dist (s : FuelStop.t) (p : point) : Q :=
  hav (FuelStop.lat s) (FuelStop.lon s) (fst p) (snd p).

(** The scan from vertex [i] on either keeps the best it started with,
    which no vertex from [i] on beats, or ends on the first vertex from
    [i] on that is nearest among them and beats the start. *)
Lemma nearest_loop_spec (s : FuelStop.t) (poly : list point) :
  forall (i best_i : nat) (best_d : Q),
    let r := nearest_loop radians sin cos asin sqrt s poly i best_i best_d in
    (r = (best_i, best_d) /\ forall p, In p poly -> best_d <= dist s p) \/
    (exists k p,
        nth_error poly k = Some p /\
        r = ((i + k)%nat, dist s p) /\
        dist s p < best_d /\
        (forall j p', (j < k)%nat -> nth_error poly j = Some p' ->
                      dist s p < dist s p') /\
        (forall p', In p' poly -> dist s p <= dist s p')).
Proof.
  induction poly as [|p0 poly IH]; intros i best_i best_d.
  - left. split; [reflexivity | intros p []].
  - cbn [nearest_loop]. fold hav. fold (dist s p0).
    destruct (Qltb_spec (dist s p0) best_d) as [Hlt | Hge].
    + destruct (IH (S i) i (dist s p0))
        as [[Hr Hmin] | (k & p & Hk & Hr & Hd & Hbefore & Hmin)].
      * right. exists 0%nat, p0. rewrite Hr, Nat.add_0_r.
        repeat split; auto.
        -- intros j p' Hj. lia.
        -- intros p' [<- | Hin]; [lra | now apply Hmin].
      * right. exists (S k), p. rewrite Hr.
        replace (S i + k)%nat with (i + S k)%nat by lia.
        repeat split; auto.
        -- lra.
        -- intros [|j] p' Hj Hnth; cbn in Hnth.
           ++ injection Hnth as <-. exact Hd.
           ++ apply (Hbefore j); [lia | exact Hnth].
        -- intros p' [<- | Hin]; [lra | now apply Hmin].
    + destruct (IH (S i) best_i best_d)
        as [[Hr Hmin] | (k & p & Hk & Hr & Hd & Hbefore & Hmin)].
      * left. split; [exact Hr|].
        intros p' [<- | Hin]; [exact Hge | now apply Hmin].
      * right. exists (S k), p. rewrite Hr.
        replace (S i + k)%nat with (i + S k)%nat by lia.
        repeat split; auto.
        -- intros [|j] p' Hj Hnth; cbn in Hnth.
           ++ injection Hnth as <-. lra.
           ++ apply (Hbefore j); [lia | exact Hnth].
        -- intros p' [<- | Hin]; [lra | now apply Hmin].
Qed.

Hypothesis asin_le_2 : forall x, asin x <= 2.

(** Every distance is below the [1e18] the scan starts from. *)
Lemma dist_lt_far_away (s : FuelStop.t) (p : point) : dist s p < far_away.
Proof.
  unfold dist, hav, haversine_miles. cbv zeta.
  match goal with |- _ * asin ?a < _ => pose proof (asin_le_2 a) as H end.
  unfold far_away.
  change (inject_Z (10 ^ 18)) with (1000000000000000000 # 1). lra.
Qed.

Lemma nearest_vertex_spec (s : FuelStop.t) (poly : list point) :
  poly <> [] ->
  exists k p,
    nearest_vertex radians sin cos asin sqrt s poly = (k, dist s p) /\
    nth_error poly k = Some p /\
    first_nearest (dist s) poly k.
Proof.
  intro Hne. unfold nearest_vertex.
  destruct (nearest_loop_spec s poly 0 0 far_away)
    as [[_ Hmin] | (k & p & Hk & Hr & _ & Hbefore & Hmin)].
  - destruct poly as [|p0 poly]; [contradiction|].
    pose proof (Hmin p0 (or_introl eq_refl)).
    pose proof (dist_lt_far_away s p0). lra.
  - exists k, p. split; [exact Hr|]. split; [exact Hk|].
    exists p. repeat split; auto.
    intros j p' Hj. apply Hmin. eapply nth_error_In, Hj.
Qed.

Lemma enrich_spec (stops : list FuelStop.t) (poly : list point)
    (cum : list Q) :
  poly <> [] ->
  List.length cum = List.length poly ->
  exists annotated,
    enrich radians sin cos asin sqrt stops poly cum = Returned annotated /\
    Forall2
      (fun s e =>
         Enriched.fs e = s /\
         exists k p,
           first_nearest (dist s) poly k /\
           nth_error poly k = Some p /\
           nth_error cum k = Some (Enriched.route_miles e) /\
           Enriched.offroute_miles e = dist s p)
      stops annotated.
Proof.
  intros Hne Hlen. induction stops as [|s stops IH].
  - exists []. split; [reflexivity | constructor].
  - destruct IH as (annotated & Hrest & Hall).
    destruct (nearest_vertex_spec s poly Hne) as (k & p & Hnv & Hk & Hfirst).
    cbn [enrich]. rewrite Hnv, Hrest. cbn [fst snd].
    assert (Hlt : (k < List.length cum)%nat).
    { rewrite Hlen. apply nth_error_Some. congruence. }
    destruct (nth_error cum k) as [m|] eqn:Ecum.
    + eexists. split; [reflexivity|]. constructor; [|exact Hall].
      cbn. split; [reflexivity|]. exists k, p. auto.
    + apply nth_error_None in Ecum. lia.
Qed.

End ProjectionFacts.

(** C7.  With an arc sine that stays at or below 2 (so that every
    distance is below the [1e18] the scan starts from), for every list of
    stations and every non-empty route with its cumulative distances,
    [attach_route_miles] returns; its entries are the stations, each with
    [route_miles = cum[k]] and [offroute_miles] the distance to vertex [k],
    for the lowest index [k] at which the distance from the station is
    least; and they come sorted ascending by [route_miles], entries with
    equal [route_miles] in the order of the stations. *)
Theorem C7_attach_route_miles (radians sin cos asin sqrt : Q -> Q)
    (stops : list FuelStop.t) (poly : list point) :
  (forall x, asin x <= 2) ->
  poly <> [] ->
  let cum := cumulative_miles radians sin cos asin sqrt poly in
  let dist s p :=
    haversine_miles radians sin cos asin sqrt
      (FuelStop.lat s) (FuelStop.lon s) (fst p) (snd p) in
  exists annotated result,
    attach_route_miles radians sin cos asin sqrt stops poly cum
      = Returned result /\
    Forall2
      (fun s e =>
         Enriched.fs e = s /\
         exists k p,
           first_nearest (dist s) poly k /\
           nth_error poly k = Some p /\
           nth_error cum k = Some (Enriched.route_miles e) /\
           Enriched.offroute_miles e = dist s p)
      stops annotated /\
    Permutation result annotated /\
    ascending_by Enriched.route_miles result /\
    (forall q,
        filter (fun e => Qeq_bool (Enriched.route_miles e) q) result
        = filter (fun e => Qeq_bool (Enriched.route_miles e) q) annotated).
Proof.
  intros Hasin Hne cum dist.
  assert (Hlen : List.length cum = List.length poly).
  { unfold cum. rewrite cumulative_miles_length.
    destruct poly; [contradiction | cbn; lia]. }
  destruct (enrich_spec radians sin cos asin sqrt Hasin stops poly cum Hne Hlen)
    as (annotated & Henrich & Hall).
  exists annotated, (sort_by Enriched.route_miles annotated).
  unfold attach_route_miles. rewrite Henrich.
  split; [reflexivity|]. split; [exact Hall|]. split; [apply sort_by_perm|].
  split; [apply sort_by_ascending | intro q; apply sort_by_stable].
Qed.

(** ** C6: [decode_polyline] *)

Lemma get_lt (s : string) (i : nat) :
  (i < String.length s)%nat -> exists c, String.get i s = Some c.
Proof.
  revert i. induction s as [|a s IH]; intros i Hi; cbn in *; [lia|].
  destruct i as [|i]; [now exists a|]. apply IH. lia.
Qed.

Lemma str_index_in (s : string) (i : Z) :
  (0 <= i < Z.of_nat (String.length s))%Z ->
  exists c, str_index s i = Returned c /\ String.get (Z.to_nat i) s = Some c.
Proof.
  intro Hi. unfold str_index.
  destruct (Z.ltb_spec i 0); [lia|].
  destruct (Z.leb_spec 0 i); [|lia].
  destruct (Z.ltb_spec i (Z.of_nat (String.length s))); [|lia].
  cbn [andb]. destruct (get_lt s (Z.to_nat i)) as (c & Hc); [lia|].
  exists c. now rewrite Hc.
Qed.

Lemma str_index_out (s : string) (i : Z) :
  (Z.of_nat (String.length s) <= i)%Z -> str_index s i = Raised IndexError.
Proof.
  intro Hi. unfold str_index.
  destruct (Z.ltb_spec i 0); [lia|].
  destruct (Z.ltb_spec i (Z.of_nat (String.length s))); [lia|].
  now rewrite andb_false_r.
Qed.

Lemma first_indices_succ (i : Z) :
  (0 <= i)%Z -> first_indices (i + 1) = first_indices i ++ [i].
Proof.
  intro Hi. unfold first_indices.
  replace (Z.to_nat (i + 1)) with (S (Z.to_nat i)) by lia.
  rewrite seq_S, map_app. cbn. now rewrite Z2Nat.id.
Qed.

Lemma first_indices_In (n i : Z) :
  In i (first_indices n) -> (0 <= i < n)%Z.
Proof.
  unfold first_indices. intro H. apply in_map_iff in H.
  destruct H as (k & <- & Hk). apply in_seq in Hk. lia.
Qed.

Lemma int_div_float_raises (n : Z) (d : Q) (e : exn) :
  int_div_float n d = Raised e -> e = OverflowError.
Proof.
  unfold int_div_float, float_of_int.
  destruct (to_float (inject_Z n)); intro H; try discriminate;
    now injection H as <-.
Qed.

Section DecoderFacts.

Variable s : string.

Let n : Z := Z.of_nat (String.length s).

(** A group read from [index] either ends on a terminating character
    before the end of the string, or reads every character up to the end
    and fails on the read after the last one.  It never uses up its
    budget. *)
Lemma read_group_spec (budget : nat) :
  forall index shift result reads,
    (0 <= index <= n)%Z ->
    (n - index < Z.of_nat budget)%Z ->
    reads = first_indices index ->
    match read_group budget s index shift result reads with
    | (Some (Returned (_, index')), reads') =>
        (index < index' <= n)%Z /\ reads' = first_indices index' /\
        exists c, String.get (Z.to_nat (index' - 1)) s = Some c /\
                  (ord c - 63 < 32)%Z
    | (Some (Raised e), reads') =>
        e = IndexError /\ reads' = first_indices n
    | (None, _) => False
    end.
Proof.
  induction budget as [|budget IH]; intros index shift result reads Hi Hb Hr;
    [lia|].
  cbn [read_group].
  destruct (Z.eq_dec index n) as [-> | Hneq].
  - rewrite str_index_out by (fold n; lia). auto.
  - destruct (str_index_in s index) as (c & Hc & Hget); [fold n; lia|].
    rewrite Hc.
    destruct (Z.ltb_spec (ord c - 63) 32) as [Hend | Hcont].
    + split; [lia|]. split.
      * rewrite Hr. symmetry. apply first_indices_succ. lia.
      * exists c. replace (index + 1 - 1)%Z with index by lia. auto.
    + specialize (IH (index + 1)%Z (shift + 5)%Z
                     (Z.lor result (Z.shiftl (Z.land (ord c - 63) 31) shift))
                     (reads ++ [index])).
      destruct (read_group budget s (index + 1) (shift + 5) _ (reads ++ [index]))
        as [[[[r i']|e]|] reads'].
      * destruct IH as (Hlt & Hreads & Hlast);
          [lia | lia | rewrite Hr; symmetry; apply first_indices_succ; lia |].
        split; [lia | auto].
      * apply IH; [lia | lia |].
        rewrite Hr. symmetry. apply first_indices_succ. lia.
      * apply IH; [lia | lia |].
        rewrite Hr. symmetry. apply first_indices_succ. lia.
Qed.

(** The loop from [index] on: when it returns, it stopped at the end of
    the string, right after a terminating character unless it started
    there, having read every character; when it raises [IndexError], it
    is on the read after the last character; when it raises
    [OverflowError], it is at the end of a group, with the characters
    after it unread.  The characters read are always the first ones, once
    each and in order, and the budget is never used up. *)
Lemma decode_loop_spec (budget : nat) :
  forall index lat lng coords reads,
    (0 <= index <= n)%Z ->
    (n - index < Z.of_nat budget)%Z ->
    reads = first_indices index ->
    match decode_loop budget s index lat lng coords reads with
    | (Some (Returned _), reads') =>
        reads' = first_indices n /\
        (index = n \/
         exists c, String.get (Z.to_nat (n - 1)) s = Some c /\
                   (ord c - 63 < 32)%Z)
    | (Some (Raised e), reads') =>
        (e = IndexError /\ reads' = first_indices n) \/
        (e = OverflowError /\
         exists k, (index < k <= n)%Z /\ reads' = first_indices k)
    | (None, _) => False
    end.
Proof.
  induction budget as [|budget IH];
    intros index lat lng coords reads Hi Hb Hr; [lia|].
  cbn [decode_loop]. fold n.
  destruct (Z.ltb_spec index n) as [Hlt | Hge].
  - pose proof (read_group_spec (S (String.length s)) index 0 0 reads Hi)
      as H1.
    destruct (read_group (S (String.length s)) s index 0 0 reads)
      as [[[[r1 i1]|e1]|] reads1].
    + destruct H1 as (Hi1 & Hr1 & _); [unfold n in *; lia | exact Hr |].
      pose proof (read_group_spec (S (String.length s)) i1 0 0 reads1) as H2.
      destruct (read_group (S (String.length s)) s i1 0 0 reads1)
        as [[[[r2 i2]|e2]|] reads2].
      * destruct H2 as (Hi2 & Hr2 & Hlast);
          [lia | unfold n in *; lia | exact Hr1 |].
        destruct (int_div_float (lat + unzigzag r1) 100000) as [y|ey] eqn:Ey.
        2:{ right. split; [now apply int_div_float_raises in Ey|].
            exists i2. split; [lia | exact Hr2]. }
        destruct (int_div_float (lng + unzigzag r2) 100000) as [x|ex] eqn:Ex.
        2:{ right. split; [now apply int_div_float_raises in Ex|].
            exists i2. split; [lia | exact Hr2]. }
        specialize (IH i2 (lat + unzigzag r1)%Z (lng + unzigzag r2)%Z
                       (coords ++ [(y, x)]) reads2).
        destruct (decode_loop budget s i2 _ _ _ reads2)
          as [[[pts|e]|] reads'].
        -- destruct IH as (Hreads & Hend); [lia | lia | exact Hr2 |].
           split; [exact Hreads|]. right.
           destruct Hend as [-> | Hend]; [exact Hlast | exact Hend].
        -- destruct IH as [IH | (He & k & Hk & Hreads)];
             [lia | lia | exact Hr2 | now left |].
           right. split; [exact He|]. exists k. split; [lia | exact Hreads].
        -- apply IH; [lia | lia | exact Hr2].
      * left. apply H2; [lia | unfold n in *; lia | exact Hr1].
      * apply H2; [lia | unfold n in *; lia | exact Hr1].
    + left. apply H1; [unfold n in *; lia | exact Hr].
    + apply H1; [unfold n in *; lia | exact Hr].
  - split; [|left; lia]. rewrite Hr. f_equal. lia.
Qed.

Lemma decode_run_spec :
  match decode_run s with
  | (Some (Returned _), reads') =>
      reads' = first_indices n /\
      (n = 0%Z \/
       exists c, String.get (Z.to_nat (n - 1)) s = Some c /\
                 (ord c - 63 < 32)%Z)
  | (Some (Raised e), reads') =>
      (e = IndexError /\ reads' = first_indices n) \/
      (e = OverflowError /\
       exists k, (0 < k <= n)%Z /\ reads' = first_indices k)
  | (None, _) => False
  end.
Proof.
  unfold decode_run.
  pose proof (decode_loop_spec (S (String.length s)) 0 0 0 [] []) as H.
  destruct (decode_loop (S (String.length s)) s 0 0 0 [] [])
    as [[[pts|e]|] reads'].
  - destruct H as (Hr & Hend); [unfold n; lia | unfold n; lia | reflexivity |].
    split; [exact Hr|]. destruct Hend as [<- | Hend]; auto.
  - apply H; [unfold n; lia | unfold n; lia | reflexivity].
  - apply H; [unfold n; lia | unfold n; lia | reflexivity].
Qed.

End DecoderFacts.

(** For a character of the polyline alphabet ([?] to [~]) the code's test
    [b < 0x20] says that bit [0x20] of [b] is clear. *)
Lemma continues_bit_0x20 (c : ascii) :
  (63 <= ord c <= 126)%Z ->
  (continues c <-> Z.testbit (ord c - 63) 5 = true).
Proof.
  intro Hc. unfold continues. rewrite Z.testbit_true by lia.
  change (2 ^ 5)%Z with 32%Z. split; intro H.
  - Z.div_mod_to_equations. lia.
  - Z.div_mod_to_equations. lia.
Qed.

(** The decoder never returns points for a string whose last character
    continues a group. *)
Lemma decode_polyline_truncated (s : string) (c : ascii) :
  String.get (Nat.pred (String.length s)) s = Some c ->
  continues c ->
  exists e,
    decode_polyline s = Some (Raised e) /\
    (e = IndexError \/ e = OverflowError).
Proof.
  intros Hget Hcont. unfold decode_polyline.
  pose proof (decode_run_spec s) as H.
  destruct (decode_run s) as [[[pts|e]|] reads']; cbn [fst].
  - exfalso. destruct H as (_ & [Hz | (c' & Hget' & Hend)]).
    + destruct s; [discriminate Hget | discriminate Hz].
    + replace (Z.to_nat (Z.of_nat (String.length s) - 1))
        with (Nat.pred (String.length s)) in Hget' by lia.
      rewrite Hget in Hget'. injection Hget' as <-.
      unfold continues in Hcont. lia.
  - exists e. split; [reflexivity|].
    destruct H as [(-> & _) | (-> & _)]; auto.
  - contradiction.
Qed.

(** The characters read are the first [k] of the string, for some [k];
    all of them when the decoder returns or raises [IndexError]. *)
Lemma decode_reads_prefix (s : string) :
  exists k,
    (0 <= k <= Z.of_nat (String.length s))%Z /\
    decode_reads s = first_indices k /\
    (forall pts, decode_polyline s = Some (Returned pts) ->
                 k = Z.of_nat (String.length s)) /\
    (decode_polyline s = Some (Raised IndexError) ->
     k = Z.of_nat (String.length s)).
Proof.
  unfold decode_reads, decode_polyline.
  pose proof (decode_run_spec s) as H.
  destruct (decode_run s) as [[[pts|e]|] reads']; cbn [fst snd].
  - exists (Z.of_nat (String.length s)). destruct H as (-> & _).
    repeat split; auto; lia.
  - destruct H as [(-> & ->) | (-> & k & Hk & ->)].
    + exists (Z.of_nat (String.length s)). repeat split; auto; lia.
    + exists k. repeat split; try lia; discriminate.
  - contradiction.
Qed.

(** C6.  [decode_polyline] returns the empty sequence for the empty
    string; it always finishes, with a result or an exception; when the
    last character of the input continues a group (the code's test
    [b < 0x20] fails on it, which on the polyline alphabet means bit
    [0x20] is set) it raises, [IndexError] on the read past the end or
    [OverflowError] on a coordinate beyond the floats before it gets
    there, and returns no points; and the indices at which it reads a
    character are [0, 1, ..., k - 1] for some [k] up to the length, each
    once and in order, so every read is inside the string; it has read
    the whole string when it returns or raises [IndexError]. *)
Theorem C6_decode_polyline_bounds :
  decode_polyline EmptyString = Some (Returned []) /\
  (forall s, exists r, decode_polyline s = Some r) /\
  (forall s c,
      String.get (Nat.pred (String.length s)) s = Some c ->
      continues c ->
      exists e,
        decode_polyline s = Some (Raised e) /\
        (e = IndexError \/ e = OverflowError)) /\
  (forall s,
      (exists k,
          (0 <= k <= Z.of_nat (String.length s))%Z /\
          decode_reads s = first_indices k /\
          (forall pts, decode_polyline s = Some (Returned pts) ->
                       k = Z.of_nat (String.length s)) /\
          (decode_polyline s = Some (Raised IndexError) ->
           k = Z.of_nat (String.length s))) /\
      forall i, In i (decode_reads s) ->
                (0 <= i < Z.of_nat (String.length s))%Z /\
                exists c, str_index s i = Returned c).
Proof.
  split; [reflexivity|]. split; [|split].
  - intro s. unfold decode_polyline.
    pose proof (decode_run_spec s) as H.
    destruct (decode_run s) as [[r|] reads']; [now exists r | contradiction].
  - exact decode_polyline_truncated.
  - intro s. split; [apply decode_reads_prefix|].
    destruct (decode_reads_prefix s) as (k & Hk & Hreads & _).
    intros i Hi. rewrite Hreads in Hi.
    apply first_indices_In in Hi.
    assert (Hi' : (0 <= i < Z.of_nat (String.length s))%Z) by lia.
    split; [exact Hi'|].
    destruct (str_index_in s i Hi') as (c & Hc & _). now exists c.
Qed.

(** On the truncated string [overflowing_polyline] the decoder stops
    before the end: the division of line 41 raises [OverflowError] with
    the last character, which continues a group, unread. *)
Example decode_polyline_overflow :
  String.length overflowing_polyline = 208%nat /\
  String.get 207 overflowing_polyline = Some "_"%char /\
  decode_polyline overflowing_polyline = Some (Raised OverflowError) /\
  decode_reads overflowing_polyline = first_indices 207.
Proof. vm_compute. repeat split; reflexivity. Qed.

(** * Further properties of the planner *)

(** ** The stops follow the route *)

Section StopsOrder.

Variables total_miles mpg max_range_miles : Q.

Lemma visit_entries_cases (v : visit) :
  visit_entries v = [] \/
  exists s,
    Node.fs (v_here v) = Some s /\ eps < v_buy v /\
    visit_entries v
    = [plan_entry s (miles (v_here v)) (v_buy v) (v_cost v)].
Proof.
  unfold visit_entries, recorded.
  destruct (Node.fs (v_here v)) as [s|]; [|now left].
  destruct (Qltb_spec eps (v_buy v)); [|now left].
  right. now exists s.
Qed.

Lemma entries_lower_bound (lo : Q) (nodes : list Node.t) :
  forall f,
    Forall (fun n => lo <= miles n) nodes ->
    Forall (fun e => py_round lo 3 <= Stop.route_miles e)
           (flat_map visit_entries
              (visits total_miles mpg max_range_miles nodes f)).
Proof.
  induction nodes as [|here ahead IH]; intros f Hlo; [constructor|].
  destruct ahead as [|next ahead]; [constructor|].
  rewrite visits_cons. cbv zeta. cbn [flat_map].
  inversion Hlo as [|? ? Hhere Hrest]; subst.
  apply Forall_app. split; [|now apply IH].
  match goal with |- Forall _ (visit_entries ?v) =>
    destruct (visit_entries_cases v) as [-> | (s & _ & _ & ->)] end;
    [constructor|].
  constructor; [|constructor].
  cbn [v_here plan_entry Stop.route_miles]. now apply py_round_mono.
Qed.

Lemma entries_ascending (nodes : list Node.t) :
  forall f,
    ascending_by miles nodes ->
    ascending_by Stop.route_miles
      (flat_map visit_entries
         (visits total_miles mpg max_range_miles nodes f)).
Proof.
  induction nodes as [|here ahead IH]; intros f Hasc; [constructor|].
  destruct ahead as [|next ahead]; [constructor|].
  rewrite visits_cons. cbv zeta. cbn [flat_map].
  inversion Hasc as [|? ? Hasc' Hhere]; subst.
  match goal with |- ascending_by _ (visit_entries ?v ++ _) =>
    destruct (visit_entries_cases v) as [-> | (s & _ & _ & ->)] end.
  - now apply IH.
  - cbn [app]. constructor; [now apply IH|].
    cbn [v_here plan_entry Stop.route_miles].
    now apply entries_lower_bound.
Qed.

End StopsOrder.

(** The stops of a returned plan are listed in route order: their
    [route_miles] never decrease. *)
Theorem stops_in_route_order (stations : list Node.t)
    (total_miles mpg max_range_miles : Q) (p : Plan.t) :
  min_cost_plan stations total_miles mpg max_range_miles
    = Returned (Some p, None) ->
  ascending_by Stop.route_miles (Plan.stops p).
Proof.
  intro H. apply min_cost_plan_Some in H. destruct H as (_ & _ & _ & ->).
  cbn [Plan.stops]. rewrite raw_scan_plan.
  apply entries_ascending, build_nodes_ascending.
Qed.

(** ** The plan buys the fuel it burns *)

Section ArriveEmpty.

Variables total_miles mpg max_range_miles : Q.
Variable t : Node.t.

Hypothesis mpg_pos : 0 < mpg.
Hypothesis t_at_total : miles t == total_miles.

(** The purchases from [here] on, arriving there with [f] gallons that
    would not carry past the destination, add up to the fuel for the rest
    of the route less [f]; and the scan ends with an empty tank. *)
Lemma purchases_cover_route (reals : list Node.t) :
  forall (here : Node.t) (st : scan_state),
    ascending_by miles (here :: reals ++ [t]) ->
    gaps_within max_range_miles (here :: reals ++ [t]) ->
    fuel st <= (total_miles - miles here) / mpg ->
    qsum (map v_buy (visits total_miles mpg max_range_miles
                       (here :: reals ++ [t]) (fuel st)))
    == (total_miles - miles here) / mpg - fuel st /\
    fuel (scan total_miles mpg max_range_miles (here :: reals ++ [t]) st)
    == 0.
Proof.
  pose proof (Qinv_lt_0_compat mpg mpg_pos) as Hi.
  induction reals as [|next reals' IH]; intros here st Hasc Hgaps Hf.
  - cbn [app] in *. rewrite visits_cons, scan_cons. cbv zeta.
    change (visits total_miles mpg max_range_miles [t]) with
      (fun _ : Q => @nil visit).
    cbn [map qsum fold_right v_buy scan scan_step fuel].
    inversion Hgaps as [| |? ? ? Hgap _]; subst.
    inversion Hasc as [|? ? _ Hup]; subst.
    inversion Hup as [|? ? Hle _]; subst.
    assert (Ht : miles t <= total_miles) by lra.
    pose proof (target_reaches_next total_miles max_range_miles
                  here t [] Hasc Ht Hgap) as Hlo.
    assert (Hhi : target_miles total_miles max_range_miles here [t]
                  <= total_miles).
    { apply target_le_total. constructor; [exact Ht | constructor]. }
    unfold buy_gal, burn, Qdiv in *. set (i := / mpg) in *.
    set (tgt := target_miles total_miles max_range_miles here [t]) in *.
    split; minmax; nra.
  - cbn [app] in *. rewrite visits_cons, scan_cons. cbv zeta.
    cbn [map qsum fold_right v_buy]. fold qsum.
    inversion Hgaps as [| |? ? ? Hgap Hgaps']; subst.
    inversion Hasc as [|? ? Hasc' Hup]; subst.
    assert (Hle : miles here <= miles next) by now inversion Hup.
    assert (Hall : Forall (fun n => miles n <= total_miles)
                          (next :: reals' ++ [t])).
    { assert (Hlast : forall n, In n (next :: reals' ++ [t]) ->
                                miles n <= total_miles).
      { intros n Hn. rewrite <- t_at_total.
        change (next :: reals' ++ [t]) with ((next :: reals') ++ [t]) in Hn.
        apply in_app_or in Hn. destruct Hn as [Hn | [<- | []]]; [|lra].
        apply (ascending_by_app_r miles [here]) in Hasc. cbn [app] in Hasc.
        clear - Hasc Hn.
        change (next :: reals' ++ [t]) with ((next :: reals') ++ [t]) in Hasc.
        induction (next :: reals') as [|a l IHl]; [destruct Hn|].
        cbn [app] in Hasc. inversion Hasc as [|? ? Hl Ha]; subst.
        destruct Hn as [<- | Hn]; [|now apply IHl].
        rewrite Forall_forall in Ha. apply Ha.
        apply in_or_app. right. now left. }
      now apply Forall_forall. }
    assert (Hnt : miles next <= total_miles) by now inversion Hall.
    pose proof (target_le_total total_miles max_range_miles here _ Hall)
      as Hhi.
    set (st' := scan_step total_miles mpg max_range_miles here next
                  (next :: reals' ++ [t]) st).
    assert (Hf' : fuel st' <= (total_miles - miles next) / mpg).
    { unfold st'. cbn [scan_step fuel].
      unfold buy_gal, burn, Qdiv in *. set (i := / mpg) in *.
      set (tgt := target_miles total_miles max_range_miles here
                    (next :: reals' ++ [t])) in *.
      minmax; nra. }
    destruct (IH next st' Hasc' Hgaps' Hf') as (Hsum & Hend).
    split; [|exact Hend].
    change (fuel st + buy_gal total_miles mpg max_range_miles here
                        (next :: reals' ++ [t]) (fuel st)
            - burn mpg here next) with (fuel st').
    rewrite Hsum. unfold st'. cbn [scan_step fuel].
    unfold burn, Qdiv. lra.
Qed.

End ArriveEmpty.

Lemma build_nodes_purchases (stations : list Node.t)
    (total_miles mpg max_range_miles : Q) (n0 : Node.t) (rest : list Node.t) :
  0 < mpg ->
  gaps_within max_range_miles (build_nodes stations total_miles) ->
  build_nodes stations total_miles = n0 :: rest ->
  qsum (map v_buy (visits total_miles mpg max_range_miles
                     (build_nodes stations total_miles) 0))
  == (total_miles - miles n0) / mpg.
Proof.
  intros Hmpg Hgaps Hnodes.
  pose proof (build_nodes_ascending stations total_miles) as Hasc.
  pose proof (build_nodes_le_total stations total_miles) as Htot.
  rewrite Hnodes in *. destruct rest as [|next rest'].
  - cbn. assert (Hn0 : miles n0 == total_miles).
    { pose proof (build_nodes_shape stations total_miles) as Hs.
      rewrite Hnodes in Hs.
      destruct (real_nodes stations total_miles) as [|a [|b l]];
        cbn in Hs; try discriminate.
      injection Hs as ->. reflexivity. }
    unfold Qdiv. rewrite Hn0. lra.
  - pose proof (build_nodes_shape stations total_miles) as Hs.
    rewrite Hnodes in Hs.
    destruct (real_nodes stations total_miles) as [|here reals];
      [discriminate|].
    cbn [app] in Hs. injection Hs as -> Hrest. rewrite Hrest in *.
    inversion Htot as [|? ? Hhere _]; subst.
    destruct (purchases_cover_route total_miles mpg max_range_miles
                (terminal total_miles) Hmpg (Qeq_refl _) reals here init_state
                Hasc Hgaps) as (Hsum & _).
    + cbn [fuel init_state]. apply Qdiv_nonneg; [exact Hmpg | lra].
    + cbn [fuel init_state] in Hsum. rewrite Hsum. lra.
Qed.

(** In exact arithmetic the scan ends with an empty tank. *)
Lemma raw_scan_ends_empty (stations : list Node.t)
    (total_miles mpg max_range_miles : Q) :
  0 < mpg ->
  gaps_within max_range_miles (build_nodes stations total_miles) ->
  fuel (raw_scan stations total_miles mpg max_range_miles) == 0.
Proof.
  intros Hmpg Hgaps. unfold raw_scan.
  pose proof (build_nodes_ascending stations total_miles) as Hasc.
  pose proof (build_nodes_le_total stations total_miles) as Htot.
  rewrite build_nodes_shape in *.
  destruct (real_nodes stations total_miles) as [|here reals].
  - reflexivity.
  - cbn [app] in *.
    inversion Htot as [|? ? Hhere _]; subst.
    destruct (purchases_cover_route total_miles mpg max_range_miles
                (terminal total_miles) Hmpg (Qeq_refl _) reals here init_state
                Hasc Hgaps) as (_ & Hend); [|exact Hend].
    cbn [fuel init_state]. apply Qdiv_nonneg; [exact Hmpg | lra].
Qed.


(** ** No stop buys more than a tank *)

Section BuyBounds.

Variables total_miles mpg max_range_miles : Q.
Hypothesis mpg_pos : 0 < mpg.

Lemma visits_buy_bounds (nodes : list Node.t) (f : Q) :
  ascending_by miles nodes ->
  Forall (fun n => miles n <= total_miles) nodes ->
  gaps_within max_range_miles nodes ->
  0 <= f <= max_range_miles / mpg ->
  Forall (fun v => 0 <= v_buy v <= max_range_miles / mpg)
         (visits total_miles mpg max_range_miles nodes f).
Proof.
  revert f. induction nodes as [|here ahead IH]; intros f Hasc Htot Hgaps Hf;
    [constructor|].
  destruct ahead as [|next ahead]; [constructor|].
  rewrite visits_cons. cbv zeta.
  inversion Hgaps as [| |? ? ? Hgap Hgaps']; subst.
  inversion Htot as [|? ? _ Htot']; subst.
  inversion Hasc as [|? ? Hasc' Hhere]; subst.
  assert (Hnext : miles next <= total_miles) by now inversion Htot'.
  assert (Hup : miles here <= miles next) by now inversion Hhere.
  pose proof (target_reaches_next total_miles max_range_miles
                here next ahead Hasc Hnext Hgap) as Htgt.
  set (tank := max_range_miles / mpg) in *.
  set (need := (target_miles total_miles max_range_miles here (next :: ahead)
                - miles here) / mpg).
  assert (Hburn_need : burn mpg here next <= need).
  { unfold burn, need. apply Qdiv_le_mono; [exact mpg_pos | lra]. }
  assert (Hburn_tank : burn mpg here next <= tank).
  { unfold burn, tank. apply Qdiv_le_mono; [exact mpg_pos | lra]. }
  assert (Hburn0 : 0 <= burn mpg here next).
  { unfold burn. apply Qdiv_nonneg; [exact mpg_pos | lra]. }
  assert (Hbuy : buy_gal total_miles mpg max_range_miles here (next :: ahead) f
                 = py_max 0 (py_min tank need - f)) by reflexivity.
  assert (Hb : 0 <= py_max 0 (py_min tank need - f) <= tank).
  { minmax; lra. }
  assert (Hout : 0 <= f + py_max 0 (py_min tank need - f)
                      - burn mpg here next <= tank).
  { minmax; lra. }
  constructor.
  - cbn [v_buy]. rewrite Hbuy. exact Hb.
  - apply IH; assumption.
Qed.

End BuyBounds.

Lemma py_round_0_4 : py_round 0 4 = 0.
Proof. reflexivity. Qed.


(** ** The total cost lies between the cheapest and the dearest price *)

Lemma weighted_sum_bounds {A : Type} (w price : A -> Q) (lo hi : Q)
    (l : list A) :
  Forall (fun a => 0 <= w a /\ lo <= price a <= hi) l ->
  lo * qsum (map w l) <= qsum (map (fun a => w a * price a) l)
  <= hi * qsum (map w l).
Proof.
  induction 1 as [|a l (Hw & Hlo & Hhi) _ IH]; [cbn; lra|].
  change (qsum (map w (a :: l))) with (w a + qsum (map w l)).
  change (qsum (map (fun a0 => w a0 * price a0) (a :: l)))
    with (w a * price a + qsum (map (fun a0 => w a0 * price a0) l)).
  pose proof (Qmult_le_0_compat (w a) (price a - lo) Hw) as H1.
  pose proof (Qmult_le_0_compat (w a) (hi - price a) Hw) as H2.
  split; lra.
Qed.

(** With every station price finite and between [lo] and [hi], a positive
    [mpg] and no gap over the range, the unrounded total cost is between
    [lo] and [hi] times the gallons burnt from the first node to the
    destination. *)
Theorem total_cost_between_prices (stations : list Node.t)
    (total_miles mpg max_range_miles lo hi : Q)
    (n0 : Node.t) (rest : list Node.t) :
  0 < mpg ->
  gaps_within max_range_miles (build_nodes stations total_miles) ->
  build_nodes stations total_miles = n0 :: rest ->
  Forall (fun n => exists q, Node.price n = Fin q /\ lo <= q <= hi) stations ->
  exists c,
    total_cost (raw_scan stations total_miles mpg max_range_miles) = Fin c /\
    lo * ((total_miles - miles n0) / mpg) <= c
    <= hi * ((total_miles - miles n0) / mpg).
Proof.
  intros Hmpg Hgaps Hnodes Hprices.
  pose proof (build_nodes_purchases stations total_miles mpg max_range_miles
                n0 rest Hmpg Hgaps Hnodes) as Hsum.
  set (vs := visits total_miles mpg max_range_miles
               (build_nodes stations total_miles) 0) in *.
  assert (Hv : forall v, In v vs ->
             0 <= v_buy v /\
             lo <= finite_part (Node.price (v_here v)) <= hi /\
             v_cost v
             = Fin (v_buy v * finite_part (Node.price (v_here v)))).
  { intros v Hin.
    pose proof (visit_build_nodes_station _ _ _ _ _ _ Hin) as [Hst _].
    rewrite Forall_forall in Hprices.
    destruct (Hprices _ Hst) as (q & Hq & Hlo).
    apply visits_split in Hin.
    destruct Hin as (? & ? & ? & _ & _ & Hbuy & Hcost & _).
    rewrite Hcost, Hq. cbn [xscale finite_part].
    repeat split; try tauto.
    rewrite Hbuy. apply py_max_0_nonneg. }
  rewrite raw_scan_total_cost. fold vs.
  assert (Hmap : map v_cost vs
                 = map Fin (map (fun v => v_buy v
                                          * finite_part (Node.price (v_here v)))
                                vs)).
  { rewrite map_map. apply map_ext_in. intros v Hin. now apply Hv. }
  rewrite Hmap.
  destruct (xsum_from_Fin 0 (map (fun v => v_buy v
                                   * finite_part (Node.price (v_here v))) vs))
    as (c & Hc & Heq).
  exists c. split; [exact Hc|].
  pose proof (weighted_sum_bounds v_buy
                (fun v => finite_part (Node.price (v_here v))) lo hi vs) as Hw.
  rewrite Hsum in Hw. rewrite Heq.
  assert (Hall : Forall (fun a => 0 <= v_buy a /\
                    lo <= finite_part (Node.price (v_here a)) <= hi) vs).
  { apply Forall_forall. intros v Hin. destruct (Hv v Hin) as (? & ? & _).
    auto. }
  specialize (Hw Hall). lra.
Qed.

(** * Further properties of the decoder *)

(** ** The sign of a delta is the lowest bit of its group value *)

(** [unzigzag] undoes the zig-zag coding of a signed delta: [2z] decodes
    to [z] when [z] is not negative, and [-2z - 1] decodes to [z] when it
    is. *)
Theorem unzigzag_inverts_zigzag (z : Z) :
  unzigzag (if (z <? 0)%Z then (- 2 * z - 1)%Z else (2 * z)%Z) = z.
Proof.
  unfold unzigzag.
  assert (Hland : forall r, Z.land r 1 = (r mod 2)%Z).
  { intro r. change 1%Z with (Z.ones 1). now rewrite Z.land_ones by lia. }
  rewrite Hland, Z.shiftr_div_pow2 by lia. change (2 ^ 1)%Z with 2%Z.
  destruct (Z.ltb_spec z 0).
  - destruct (Z.eqb_spec ((- 2 * z - 1) mod 2) 0) as [He | Hne].
    + Z.div_mod_to_equations. lia.
    + unfold Z.lnot. Z.div_mod_to_equations. lia.
  - destruct (Z.eqb_spec ((2 * z) mod 2) 0) as [He | Hne].
    + Z.div_mod_to_equations. lia.
    + Z.div_mod_to_equations. lia.
Qed.

(** ** A decoded point for every two groups *)

Lemma get_nth_error (s : string) (k : nat) :
  String.get k s = nth_error (list_ascii_of_string s) k.
Proof.
  revert k. induction s as [|a s IH]; intros [|k]; cbn; auto.
Qed.

Lemma length_list_ascii (s : string) :
  List.length (list_ascii_of_string s) = String.length s.
Proof. induction s as [|a s IH]; cbn; auto. Qed.

Lemma firstn_snoc {A : Type} (l : list A) (k : nat) (a : A) :
  nth_error l k = Some a -> firstn (S k) l = firstn k l ++ [a].
Proof.
  revert k. induction l as [|x l IH]; intros [|k] H; cbn in *;
    try discriminate.
  - now injection H as ->.
  - now rewrite (IH k H).
Qed.

Lemma terminators_upto_succ (s : string) (k : nat) (c : ascii) :
  String.get k s = Some c ->
  terminators_upto s (S k)
  = (terminators_upto s k + (if terminates c then 1 else 0))%nat.
Proof.
  intro H. rewrite get_nth_error in H. unfold terminators_upto.
  rewrite (firstn_snoc _ _ _ H), filter_app, length_app. cbn [filter].
  now destruct (terminates c).
Qed.

Lemma terminators_upto_mono (s : string) (j k : nat) :
  (j <= k)%nat -> (terminators_upto s j <= terminators_upto s k)%nat.
Proof.
  intro H. unfold terminators_upto.
  replace k with (j + (k - j))%nat by lia.
  generalize (k - j)%nat as d. intro d.
  generalize (list_ascii_of_string s) as l. clear.
  induction j as [|j IH]; intro l; [cbn; lia|].
  destruct l as [|a l]; [cbn; lia|].
  cbn [Nat.add firstn filter]. specialize (IH l).
  destruct (terminates a); cbn [List.length]; lia.
Qed.

Section DecoderCount.

Variable s : string.

Let n : Z := Z.of_nat (String.length s).

Lemma read_group_count (budget : nat) :
  forall index shift result reads,
    (0 <= index <= n)%Z ->
    match fst (read_group budget s index shift result reads) with
    | Some (Returned (_, index')) =>
        terminators_upto s (Z.to_nat index')
        = S (terminators_upto s (Z.to_nat index))
    | Some (Raised _) =>
        terminators_upto s (Z.to_nat n) = terminators_upto s (Z.to_nat index)
    | None => True
    end.
Proof.
  induction budget as [|budget IH]; intros index shift result reads Hi;
    [exact I|].
  cbn [read_group].
  destruct (Z.eq_dec index n) as [-> | Hneq].
  - rewrite str_index_out by (fold n; lia). reflexivity.
  - destruct (str_index_in s index) as (c & Hc & Hget); [fold n; lia|].
    rewrite Hc.
    pose proof (terminators_upto_succ s _ c Hget) as Hs.
    replace (S (Z.to_nat index)) with (Z.to_nat (index + 1)) in Hs by lia.
    unfold terminates in Hs.
    destruct (Z.ltb_spec (ord c - 63) 32) as [Hend | Hcont].
    + cbn [fst]. rewrite Hs. lia.
    + specialize (IH (index + 1)%Z (shift + 5)%Z
                     (Z.lor result (Z.shiftl (Z.land (ord c - 63) 31) shift))
                     (reads ++ [index])).
      destruct (fst (read_group budget s (index + 1) (shift + 5) _
                       (reads ++ [index]))) as [[[r i']|e]|];
        [rewrite IH by lia; lia | rewrite IH by lia; lia | exact I].
Qed.

(** With no terminating character from [k] on and [k] inside the string,
    the last character continues a group. *)
Lemma no_terminator_after (k : nat) :
  (k < String.length s)%nat ->
  terminators_upto s (String.length s) = terminators_upto s k ->
  exists c, String.get (Nat.pred (String.length s)) s = Some c /\ continues c.
Proof.
  intros Hk Heq.
  destruct (get_lt s (Nat.pred (String.length s))) as (c & Hc); [lia|].
  exists c. split; [exact Hc|].
  pose proof (terminators_upto_succ s _ c Hc) as Hs.
  replace (S (Nat.pred (String.length s))) with (String.length s) in Hs
    by lia.
  pose proof (terminators_upto_mono s k (Nat.pred (String.length s))).
  unfold continues. unfold terminates in Hs.
  destruct (Z.ltb_spec (ord c - 63) 32); lia.
Qed.

Lemma decode_loop_count (budget : nat) :
  forall index lat lng coords reads,
    (0 <= index <= n)%Z ->
    (n - index < Z.of_nat budget)%Z ->
    reads = first_indices index ->
    terminators_upto s (Z.to_nat index) = (2 * List.length coords)%nat ->
    match fst (decode_loop budget s index lat lng coords reads) with
    | Some (Returned pts) =>
        terminators s = (2 * List.length pts)%nat
    | Some (Raised e) =>
        e = IndexError ->
        Nat.odd (terminators s) = true \/
        exists c,
          String.get (Nat.pred (String.length s)) s = Some c /\ continues c
    | None => True
    end.
Proof.
  induction budget as [|budget IH];
    intros index lat lng coords reads Hi Hb Hr Hcount; [exact I|].
  cbn [decode_loop]. fold n.
  destruct (Z.ltb_spec index n) as [Hlt | Hge].
  - pose proof (read_group_spec s (S (String.length s)) index 0 0 reads Hi)
      as H1.
    pose proof (read_group_count (S (String.length s)) index 0 0 reads Hi)
      as C1.
    destruct (read_group (S (String.length s)) s index 0 0 reads)
      as [[[[r1 i1]|e1]|] reads1]; cbn [fst] in C1.
    + destruct H1 as (Hi1 & Hr1 & _); [unfold n in *; lia | exact Hr |].
      assert (Hi1' : (0 <= i1 <= n)%Z) by lia.
      pose proof (read_group_spec s (S (String.length s)) i1 0 0 reads1 Hi1')
        as H2.
      pose proof (read_group_count (S (String.length s)) i1 0 0 reads1 Hi1')
        as C2.
      destruct (read_group (S (String.length s)) s i1 0 0 reads1)
        as [[[[r2 i2]|e2]|] reads2]; cbn [fst] in C2.
      * destruct H2 as (Hi2 & Hr2 & _); [unfold n in *; lia | exact Hr1 |].
        destruct (int_div_float (lat + unzigzag r1) 100000) as [y|ey] eqn:Ey.
        2:{ cbn [fst]. apply int_div_float_raises in Ey. subst ey.
            discriminate. }
        destruct (int_div_float (lng + unzigzag r2) 100000) as [x|ex] eqn:Ex.
        2:{ cbn [fst]. apply int_div_float_raises in Ex. subst ex.
            discriminate. }
        apply IH; [lia | lia | exact Hr2 |].
        rewrite length_app. cbn [List.length]. lia.
      * cbn [fst]. intros _. left. unfold terminators.
        replace (String.length s) with (Z.to_nat n) by (unfold n; lia).
        rewrite C2, C1, Hcount.
        rewrite Nat.odd_succ, Nat.even_mul. reflexivity.
      * exact I.
    + cbn [fst]. intros _. right.
      apply (no_terminator_after (Z.to_nat index)).
      * unfold n in *. lia.
      * replace (String.length s) with (Z.to_nat n) by (unfold n; lia).
        exact C1.
    + exact I.
  - cbn [fst]. unfold terminators.
    replace (String.length s) with (Z.to_nat index) by (unfold n in *; lia).
    exact Hcount.
Qed.

End DecoderCount.

Lemma decode_polyline_cases (s : string) :
  (exists pts,
      decode_polyline s = Some (Returned pts) /\
      (s = EmptyString \/
       exists c, String.get (Nat.pred (String.length s)) s = Some c /\
                 terminates c = true)) \/
  (exists e,
      decode_polyline s = Some (Raised e) /\
      (e = IndexError \/ e = OverflowError)).
Proof.
  unfold decode_polyline. pose proof (decode_run_spec s) as H.
  destruct (decode_run s) as [[[pts|e]|] reads']; cbn [fst].
  - left. exists pts. split; [reflexivity|].
    destruct H as (_ & [Hz | (c & Hget & Hend)]).
    + left. destruct s; [reflexivity | discriminate Hz].
    + right. exists c.
      replace (Z.to_nat (Z.of_nat (String.length s) - 1))
        with (Nat.pred (String.length s)) in Hget by lia.
      split; [exact Hget|]. unfold terminates. now apply Z.ltb_lt.
  - right. exists e. split; [reflexivity|].
    destruct H as [(-> & _) | (-> & _)]; auto.
  - contradiction.
Qed.


(** * The corridor search *)

(** ** [_box] *)

(** For a radius that is not negative the box of [_box] contains its
    centre and is symmetric about it; its half-height is
    [radius / 69] degrees; its half-width is at most [radius / 6.9]
    degrees whatever the latitude (the [0.1] floor on the cosine), and at
    least the half-height when the cosine is at most 1. *)
Theorem box_around_centre (radians cos : Q -> Q) (lat lon radius_miles : Q) :
  0 <= radius_miles ->
  let '(lat_min, lat_max, lon_min, lon_max) :=
    _box radians cos lat lon radius_miles in
  lat_min <= lat <= lat_max /\
  lon_min <= lon <= lon_max /\
  lat_max - lat == radius_miles / 69 /\
  lat - lat_min == radius_miles / 69 /\
  lon_max - lon == lon - lon_min /\
  lon_max - lon <= radius_miles * (10 # 69) /\
  (cos (radians lat) <= 1 -> radius_miles / 69 <= lon_max - lon).
Proof.
  intro Hr. unfold _box. cbv zeta.
  set (m := py_max (1 # 10) (cos (radians lat))).
  assert (Hm : 1 # 10 <= m) by apply py_max_le_l.
  set (dlon := radius_miles / (69 * m)).
  assert (Hden : 0 < 69 * m) by lra.
  assert (Hdlon : dlon * (69 * m) == radius_miles).
  { unfold dlon. field. lra. }
  assert (Hdlon0 : 0 <= dlon).
  { unfold dlon. apply Qdiv_nonneg; assumption. }
  assert (Hdlat : radius_miles / 69 == radius_miles * (1 # 69))
    by (unfold Qdiv; reflexivity).
  repeat split; try lra.
  - nra.
  - intro Hcos.
    assert (Hm1 : m <= 1) by (unfold m; apply py_max_lub; lra).
    nra.
Qed.

(** ** The box query *)

Lemma priced_located_In (table : list Row.t) (s : FuelStop.t) :
  In s (priced_located table) <-> in_catalog table s.
Proof.
  unfold priced_located, in_catalog. rewrite in_flat_map. split.
  - intros (r & Hr & Hs). exists r. split; [exact Hr|].
    destruct (row_stop r) as [s'|]; [|destruct Hs].
    destruct Hs as [-> | []]. reflexivity.
  - intros (r & Hr & Hs). exists r. split; [exact Hr|].
    rewrite Hs. now left.
Qed.

Lemma box_query_In (table : list Row.t) (b : box) (s : FuelStop.t) :
  In s (box_query table b) <->
  in_catalog table s /\ stop_in_box b s = true.
Proof.
  unfold box_query. rewrite <- priced_located_In, <- filter_In. split.
  - apply Permutation_in, sort_by_perm.
  - apply Permutation_in, Permutation_sym, sort_by_perm.
Qed.

Lemma box_query_ascending (table : list Row.t) (b : box) :
  ascending_by FuelStop.price (box_query table b).
Proof. apply sort_by_ascending. Qed.

(** [choose_start_station] returns a station of the catalog inside the
    box around the origin whose price is the lowest of all such stations,
    and returns nothing exactly when the box holds none. *)
Theorem choose_start_station_cheapest (radians cos : Q -> Q)
    (table : list Row.t) (origin_lat origin_lon radius_miles : Q) :
  let b := _box radians cos origin_lat origin_lon radius_miles in
  match choose_start_station radians cos table
          origin_lat origin_lon radius_miles with
  | Some s =>
      in_catalog table s /\ stop_in_box b s = true /\
      forall s', in_catalog table s' -> stop_in_box b s' = true ->
                 FuelStop.price s <= FuelStop.price s'
  | None =>
      forall s', in_catalog table s' -> stop_in_box b s' = false
  end.
Proof.
  intro b. unfold choose_start_station. fold b.
  pose proof (box_query_ascending table b) as Hasc.
  pose proof (box_query_In table b) as Hin.
  destruct (box_query table b) as [|s l]; cbn [hd_error].
  - intros s' Hs'. destruct (stop_in_box b s') eqn:E; [|reflexivity].
    exfalso. apply (proj2 (Hin s')). now split.
  - destruct (proj1 (Hin s) (or_introl eq_refl)) as (Hcat & Hbox).
    split; [exact Hcat|]. split; [exact Hbox|].
    intros s' Hs' Hbox'.
    destruct (proj2 (Hin s') (conj Hs' Hbox')) as [<- | Hl]; [lra|].
    inversion Hasc as [|? ? _ Hall]; subst.
    rewrite Forall_forall in Hall. now apply Hall.
Qed.

(** ** The dict of candidates *)

Lemma dict_set_In (k : Z) (v : FuelStop.t) (d : list (Z * FuelStop.t))
    (kv : Z * FuelStop.t) :
  In kv (dict_set k v d) -> kv = (k, v) \/ In kv d.
Proof.
  induction d as [|[k' v'] d IH]; cbn [dict_set].
  - intros [<- | []]. now left.
  - destruct (Z.eqb_spec k k') as [-> | Hne].
    + intros [<- | Hin]; [now left | right; now right].
    + intros [<- | Hin]; [right; now left|].
      destruct (IH Hin) as [-> | Hd]; [now left | right; now right].
Qed.

Lemma dict_set_keys (k : Z) (v : FuelStop.t) (d : list (Z * FuelStop.t))
    (k' : Z) :
  In k' (map fst (dict_set k v d)) <-> k' = k \/ In k' (map fst d).
Proof.
  induction d as [|[k0 v0] d IH]; cbn [dict_set map fst In].
  - intuition.
  - destruct (Z.eqb_spec k k0) as [-> | Hne]; cbn [map fst In].
    + intuition.
    + rewrite IH. intuition.
Qed.

Lemma dict_set_NoDup (k : Z) (v : FuelStop.t) (d : list (Z * FuelStop.t)) :
  NoDup (map fst d) -> NoDup (map fst (dict_set k v d)).
Proof.
  induction d as [|[k0 v0] d IH]; cbn [dict_set map fst]; intro Hnd.
  - constructor; [intros [] | constructor].
  - inversion Hnd as [|? ? Hnot Hnd']; subst.
    destruct (Z.eqb_spec k k0) as [-> | Hne]; cbn [map fst].
    + now constructor.
    + constructor; [|now apply IH].
      rewrite dict_set_keys. intros [-> | Hin]; [congruence | contradiction].
Qed.

Lemma dict_set_length (k : Z) (v : FuelStop.t) (d : list (Z * FuelStop.t)) :
  (List.length (dict_set k v d) <= S (List.length d))%nat.
Proof.
  induction d as [|[k0 v0] d IH]; cbn [dict_set List.length]; [lia|].
  destruct (k =? k0)%Z; cbn [List.length]; lia.
Qed.

Lemma add_rows_spec (qs : list FuelStop.t) :
  forall d,
    well_keyed d ->
    well_keyed (add_rows d qs) /\
    (forall kv, In kv (add_rows d qs) -> In kv d \/ In (snd kv) qs) /\
    (forall k, In k (map fst (add_rows d qs)) <->
               In k (map fst d) \/ In k (map FuelStop.id qs)) /\
    (List.length (add_rows d qs) <= List.length d + List.length qs)%nat.
Proof.
  unfold add_rows.
  induction qs as [|s qs IH]; intros d (Hnd & Hkeys); cbn [fold_left].
  - repeat split; auto.
    + intros [H | []]. exact H.
    + lia.
  - destruct (IH (dict_set (FuelStop.id s) s d)) as (Hwk & Hin & Hk & Hlen).
    { split; [now apply dict_set_NoDup|].
      apply Forall_forall. intros kv Hkv.
      destruct (dict_set_In _ _ _ _ Hkv) as [-> | Hd]; [reflexivity|].
      rewrite Forall_forall in Hkeys. now apply Hkeys. }
    split; [exact Hwk|]. split; [|split].
    + intros kv Hkv. destruct (Hin kv Hkv) as [Hd | Hq];
        [|right; now right].
      destruct (dict_set_In _ _ _ _ Hd) as [-> | Hd'];
        [right; now left | now left].
    + intro k. rewrite Hk, dict_set_keys. cbn [map In]. intuition.
    + pose proof (dict_set_length (FuelStop.id s) s d).
      cbn [List.length]. lia.
Qed.

(** ** [gather_candidates] *)

Section GatherFacts.

Variables radians sin cos asin sqrt : Q -> Q.
Variable table : list Row.t.
Variables corridor_miles sample_every_miles : Q.
Variable max_per_sample : nat.
Variable total : Q.

Let query := sample_query radians cos table corridor_miles max_per_sample.

Lemma gather_loop_sampled (pairs : list (point * Q)) :
  forall next_sample d,
    gather_loop radians cos table corridor_miles sample_every_miles
      max_per_sample total pairs next_sample d
    = fold_left (fun d p => add_rows d (query p))
        (sampled sample_every_miles total pairs next_sample) d.
Proof.
  induction pairs as [|[p m] pairs IH]; intros next_sample d; [reflexivity|].
  cbn [gather_loop sampled].
  destruct (Qltb (m + eps) next_sample); [apply IH|].
  cbn [fold_left]. fold query.
  destruct (Qltb total (next_sample + sample_every_miles));
    [reflexivity | apply IH].
Qed.

Lemma fold_add_rows_spec (ps : list point) :
  forall d,
    well_keyed d ->
    let d' := fold_left (fun d p => add_rows d (query p)) ps d in
    well_keyed d' /\
    (forall kv, In kv d' ->
                In kv d \/ exists p, In p ps /\ In (snd kv) (query p)) /\
    (forall p s, In p ps -> In s (query p) ->
                 In (FuelStop.id s) (map fst d')) /\
    (forall k, In k (map fst d) -> In k (map fst d')) /\
    (List.length d'
     <= List.length d + max_per_sample * List.length ps)%nat.
Proof.
  induction ps as [|p ps IH]; intros d Hwk; cbn [fold_left]; cbv zeta.
  - repeat split; auto; try (intros ? ? []); try apply Hwk. lia.
  - destruct (add_rows_spec (query p) d Hwk) as (Hwk1 & Hin1 & Hk1 & Hlen1).
    destruct (IH (add_rows d (query p)) Hwk1)
      as (Hwk2 & Hin2 & Hq2 & Hk2 & Hlen2).
    split; [exact Hwk2|]. split; [|split; [|split]].
    + intros kv Hkv. destruct (Hin2 kv Hkv) as [Hd | (p' & Hp' & Hs)].
      * destruct (Hin1 kv Hd) as [Hd0 | Hq]; [now left|].
        right. exists p. split; [now left | exact Hq].
      * right. exists p'. split; [now right | exact Hs].
    + intros p' s [<- | Hp'] Hs.
      * apply Hk2, Hk1. right. now apply in_map.
      * now apply (Hq2 p' s).
    + intros k Hk. apply Hk2, Hk1. now left.
    + assert (Hq : (List.length (query p) <= max_per_sample)%nat).
      { unfold query, sample_query. apply firstn_le_length. }
      cbn [List.length]. nia.
Qed.

(** No vertex is sampled that is not on the route, and the walk stops
    sampling once the next sample point is past the end of the route. *)
Lemma sampled_spec (pairs : list (point * Q)) :
  forall next_sample,
    let ps := sampled sample_every_miles total pairs next_sample in
    (forall p, In p ps -> In p (map fst pairs)) /\
    (next_sample <= total ->
     ps <> [] ->
     next_sample
     + inject_Z (Z.of_nat (List.length ps) - 1) * sample_every_miles
     <= total).
Proof.
  induction pairs as [|[p m] pairs IH]; intros next_sample; cbv zeta.
  - split; [intros p [] | intros _ H; now elim H].
  - cbn [sampled map fst].
    destruct (IH next_sample) as (Hin0 & Hcnt0).
    destruct (IH (next_sample + sample_every_miles)) as (Hin1 & Hcnt1).
    destruct (Qltb (m + eps) next_sample).
    + split; [|exact Hcnt0]. intros p' Hp'. right. now apply Hin0.
    + destruct (Qltb_spec total (next_sample + sample_every_miles))
        as [Hpast | Hmore].
      * split; [intros p' [<- | []]; now left|].
        intros Hns _.
        change (inject_Z (Z.of_nat (List.length [p]) - 1)) with 0. lra.
      * split.
        -- intros p' [<- | Hp']; [now left | right; now apply Hin1].
        -- intros Hns _. cbn [List.length].
           destruct (sampled sample_every_miles total pairs
                       (next_sample + sample_every_miles)) as [|p1 ps1] eqn:E.
           ++ cbn [List.length]. change (inject_Z (Z.of_nat 1 - 1)) with 0.
              clear - Hns. lra.
           ++ specialize (Hcnt1 Hmore ltac:(discriminate)).
              cbn [List.length] in *.
              replace (Z.of_nat (S (S (List.length ps1))) - 1)%Z
                with ((Z.of_nat (S (List.length ps1)) - 1) + 1)%Z by lia.
              rewrite inject_Z_plus. change (inject_Z 1) with 1.
              clear - Hcnt1. lra.
Qed.

End GatherFacts.

Lemma well_keyed_ids (d : list (Z * FuelStop.t)) :
  well_keyed d -> map FuelStop.id (map snd d) = map fst d.
Proof.
  intros (_ & Hkeys). induction Hkeys as [|kv d Hkv _ IH]; [reflexivity|].
  cbn [map]. now rewrite IH, Hkv.
Qed.

Lemma In_firstn {A : Type} (k : nat) (l : list A) (a : A) :
  In a (firstn k l) -> In a l.
Proof.
  revert l. induction k as [|k IH]; intros [|x l]; cbn; try tauto.
  intros [-> | H]; [now left | right; now apply IH].
Qed.

Lemma well_keyed_nil : well_keyed [].
Proof. split; constructor. Qed.

Lemma in_combine_fst {A B : Type} (l : list A) (l' : list B) (a : A) :
  In a (map fst (combine l l')) -> In a l.
Proof.
  intro H. apply in_map_iff in H. destruct H as ([a' b] & <- & Hin).
  now apply in_combine_l in Hin.
Qed.

Section GatherResult.

Variables radians sin cos asin sqrt : Q -> Q.
Variable table : list Row.t.
Variable poly : list point.
Variables corridor_miles sample_every_miles : Q.
Variable max_per_sample : nat.

Let cum := cumulative_miles radians sin cos asin sqrt poly.
Let total := last cum 0.
Let ps := sampled sample_every_miles total (combine poly cum) 0.
Let d := gather_loop radians cos table corridor_miles sample_every_miles
           max_per_sample total (combine poly cum) 0 [].

Lemma gather_candidates_unfold :
  gather_candidates radians sin cos asin sqrt table poly corridor_miles
    sample_every_miles max_per_sample
  = (map snd d, cum).
Proof. reflexivity. Qed.

Lemma gather_dict_spec :
  well_keyed d /\
  (forall kv, In kv d ->
     exists p, In p ps /\
       In (snd kv) (sample_query radians cos table corridor_miles
                      max_per_sample p)) /\
  (forall p s, In p ps ->
     In s (sample_query radians cos table corridor_miles max_per_sample p) ->
     In (FuelStop.id s) (map fst d)) /\
  (List.length d <= max_per_sample * List.length ps)%nat.
Proof.
  unfold d. rewrite gather_loop_sampled. fold ps.
  destruct (fold_add_rows_spec radians cos table corridor_miles
              max_per_sample ps [] well_keyed_nil)
    as (Hwk & Hin & Hq & _ & Hlen).
  split; [exact Hwk|]. split; [|split].
  - intros kv Hkv. destruct (Hin kv Hkv) as [[] | H]. exact H.
  - exact Hq.
  - cbn [List.length] in Hlen. lia.
Qed.

End GatherResult.

Lemma gather_candidates_catalog (radians sin cos asin sqrt : Q -> Q)
    (table : list Row.t) (poly : list point)
    (corridor_miles sample_every_miles : Q) (max_per_sample : nat)
    (s : FuelStop.t) :
  In s (fst (gather_candidates radians sin cos asin sqrt table poly
               corridor_miles sample_every_miles max_per_sample)) ->
  in_catalog table s.
Proof.
  rewrite gather_candidates_unfold. cbn [fst]. intro Hs.
  destruct (gather_dict_spec radians sin cos asin sqrt table poly
              corridor_miles sample_every_miles max_per_sample)
    as (_ & Hin & _ & _).
  apply in_map_iff in Hs. destruct Hs as (kv & <- & Hkv).
  destruct (Hin kv Hkv) as (p & _ & Hq).
  unfold sample_query in Hq. apply In_firstn in Hq.
  now apply box_query_In in Hq.
Qed.

(** Every candidate [gather_candidates] returns is a station of the
    catalog, with a price and coordinates, inside the corridor box of some
    vertex of the route; no two candidates share an id. *)
Theorem gather_candidates_in_corridor (radians sin cos asin sqrt : Q -> Q)
    (table : list Row.t) (poly : list point)
    (corridor_miles sample_every_miles : Q) (max_per_sample : nat) :
  let candidates :=
    fst (gather_candidates radians sin cos asin sqrt table poly
           corridor_miles sample_every_miles max_per_sample) in
  NoDup (map FuelStop.id candidates) /\
  forall s, In s candidates ->
    in_catalog table s /\
    exists p, In p poly /\
      stop_in_box (_box radians cos (fst p) (snd p) corridor_miles) s = true.
Proof.
  cbv zeta. rewrite gather_candidates_unfold. cbn [fst].
  destruct (gather_dict_spec radians sin cos asin sqrt table poly
              corridor_miles sample_every_miles max_per_sample)
    as (Hwk & Hin & _ & _).
  split.
  - rewrite well_keyed_ids by exact Hwk. apply Hwk.
  - intros s Hs. apply in_map_iff in Hs. destruct Hs as (kv & <- & Hkv).
    destruct (Hin kv Hkv) as (p & Hp & Hq).
    unfold sample_query in Hq. apply In_firstn in Hq.
    apply box_query_In in Hq. destruct Hq as (Hcat & Hbox).
    split; [exact Hcat|]. exists p. split; [|exact Hbox].
    apply sampled_spec in Hp. now apply in_combine_fst in Hp.
Qed.

(** The walk of [gather_candidates] always queries the first vertex of
    the route, and every station a query at a sampled vertex returns has
    its id among the candidates.  There are at most [max_per_sample]
    candidates per sampled vertex, and, on a route whose length is not
    negative, a walk that samples [k] vertices has
    [(k - 1) * sample_every_miles <= total]. *)
Theorem gather_candidates_sampling (radians sin cos asin sqrt : Q -> Q)
    (table : list Row.t) (poly : list point)
    (corridor_miles sample_every_miles : Q) (max_per_sample : nat) :
  let cum := cumulative_miles radians sin cos asin sqrt poly in
  let total := last cum 0 in
  let ps := sampled sample_every_miles total (combine poly cum) 0 in
  let candidates :=
    fst (gather_candidates radians sin cos asin sqrt table poly
           corridor_miles sample_every_miles max_per_sample) in
  hd_error ps = hd_error poly /\
  (forall p s,
      In p ps ->
      In s (sample_query radians cos table corridor_miles max_per_sample p) ->
      In (FuelStop.id s) (map FuelStop.id candidates)) /\
  (List.length candidates <= max_per_sample * List.length ps)%nat /\
  (0 <= total -> ps <> [] ->
   inject_Z (Z.of_nat (List.length ps) - 1) * sample_every_miles <= total).
Proof.
  cbv zeta. rewrite gather_candidates_unfold. cbn [fst].
  destruct (gather_dict_spec radians sin cos asin sqrt table poly
              corridor_miles sample_every_miles max_per_sample)
    as (Hwk & _ & Hq & Hlen).
  split; [|split; [|split]].
  - destruct poly as [|p0 rest]; [reflexivity|].
    unfold cumulative_miles. cbn [combine sampled].
    rewrite Qltb_false by (unfold eps; lra). reflexivity.
  - intros p s Hp Hs. rewrite well_keyed_ids by exact Hwk.
    now apply (Hq p s).
  - now rewrite length_map.
  - intros Htot Hne.
    pose proof (proj2 (sampled_spec sample_every_miles
                         (last (cumulative_miles radians sin cos asin sqrt
                                  poly) 0)
                         (combine poly
                            (cumulative_miles radians sin cos asin sqrt poly))
                         0) Htot Hne) as H.
    lra.
Qed.

(** * Projection and the view *)

Lemma sort_by_ascending_id {A : Type} (key : A -> Q) (l : list A) :
  ascending_by key l -> sort_by key l = l.
Proof.
  induction 1 as [|x l Hl IH Hx]; [reflexivity|].
  cbn [sort_by fold_right]. fold (sort_by key l). rewrite IH.
  destruct l as [|y l']; [reflexivity|].
  cbn [insert_by]. inversion Hx; subst. now rewrite Qle_bool_true.
Qed.

Lemma ascending_by_map {A B : Type} (f : A -> B) (key : B -> Q)
    (l : list A) :
  ascending_by (fun a => key (f a)) l -> ascending_by key (map f l).
Proof.
  induction 1 as [|x l Hl IH Hx]; cbn [map]; constructor; [exact IH|].
  apply Forall_map. exact Hx.
Qed.

Lemma filter_all {A : Type} (f : A -> bool) (l : list A) :
  Forall (fun a => f a = true) l -> filter f l = l.
Proof.
  induction 1 as [|x l Hx _ IH]; [reflexivity|].
  cbn [filter]. now rewrite Hx, IH.
Qed.

(** In a sequence that starts at 0 and never decreases every entry lies
    between 0 and the last one. *)
Lemma non_decreasing_bounds (l : list Q) (x : Q) :
  hd_error l = Some 0 -> non_decreasing l -> In x l ->
  0 <= x <= last l 0.
Proof.
  intros Hhd Hnd Hx. unfold non_decreasing in Hnd.
  apply Sorted_StronglySorted in Hnd; [|intros a b c; apply Qle_trans].
  destruct l as [|a l]; [destruct Hx|]. injection Hhd as ->.
  assert (Hlast : forall (l0 : list Q) (a0 y : Q),
             StronglySorted Qle (a0 :: l0) -> In y (a0 :: l0) ->
             a0 <= y <= last (a0 :: l0) 0).
  { clear. induction l0 as [|b l0 IH]; intros a0 y Hs Hy.
    - destruct Hy as [<- | []]. cbn. lra.
    - inversion Hs as [|? ? Hs' Ha]; subst.
      assert (Hab : a0 <= b) by now inversion Ha.
      change (last (a0 :: b :: l0) 0) with (last (b :: l0) 0).
      destruct Hy as [<- | Hy].
      + destruct (IH b b Hs' (or_introl eq_refl)). lra.
      + destruct (IH b y Hs' Hy). lra. }
  now apply Hlast.
Qed.

Section AttachFacts.

Variables radians sin cos asin sqrt : Q -> Q.

Let dist (s : FuelStop.t) (p : point) : Q :=
  haversine_miles radians sin cos asin sqrt
    (FuelStop.lat s) (FuelStop.lon s) (fst p) (snd p).

(** The nearest-vertex scan ends on index 0 with the distance it started
    from, or on a vertex of the route with the distance to it. *)
Lemma nearest_vertex_cases (s : FuelStop.t) (poly : list point) :
  nearest_vertex radians sin cos asin sqrt s poly = (0%nat, far_away) \/
  exists k p,
    nth_error poly k = Some p /\
    nearest_vertex radians sin cos asin sqrt s poly = (k, dist s p).
Proof.
  unfold nearest_vertex.
  destruct (nearest_loop_spec radians sin cos asin sqrt s poly 0 0 far_away)
    as [[Hr _] | (k & p & Hk & Hr & _)].
  - now left.
  - right. exists k, p. now split.
Qed.

(** With at least one cumulative distance and no fewer than there are
    vertices, no lookup [cum[best_i]] is out of range. *)
Lemma enrich_returns (stops : list FuelStop.t) (poly : list point)
    (cum : list Q) :
  (1 <= List.length cum)%nat ->
  (List.length poly <= List.length cum)%nat ->
  exists annotated,
    enrich radians sin cos asin sqrt stops poly cum = Returned annotated /\
    map Enriched.fs annotated = stops /\
    Forall (fun e =>
              In (Enriched.route_miles e) cum /\
              (Enriched.offroute_miles e = far_away \/
               exists p, In p poly /\
                         Enriched.offroute_miles e = dist (Enriched.fs e) p))
           annotated.
Proof.
  intros Hone Hlen. induction stops as [|s stops IH].
  - exists []. repeat split; constructor.
  - destruct IH as (annotated & Hrest & Hfs & Hall).
    cbn [enrich]. rewrite Hrest.
    assert (Hk : exists m,
               nth_error cum
                 (fst (nearest_vertex radians sin cos asin sqrt s poly))
               = Some m).
    { destruct (nearest_vertex_cases s poly) as [-> | (k & p & Hk & ->)];
        cbn [fst].
      - destruct cum as [|c0 cum']; [cbn in Hone; lia|]. now exists c0.
      - assert (Hlt : (k < List.length cum)%nat).
        { apply Nat.lt_le_trans with (List.length poly); [|exact Hlen].
          apply nth_error_Some. congruence. }
        destruct (nth_error cum k) as [m|] eqn:E; [now exists m|].
        apply nth_error_None in E. lia. }
    destruct Hk as (m & Hm). rewrite Hm.
    eexists. split; [reflexivity|]. split; [cbn [map Enriched.fs];
                                            now rewrite Hfs|].
    constructor; [|exact Hall]. cbn [Enriched.route_miles
                                       Enriched.offroute_miles Enriched.fs].
    split; [eapply nth_error_In, Hm|].
    destruct (nearest_vertex_cases s poly) as [-> | (k & p & Hk & ->)];
      cbn [snd]; [now left|].
    right. exists p. split; [eapply nth_error_In, Hk | reflexivity].
Qed.

End AttachFacts.

Section AttachResult.

Variables radians sin cos asin sqrt : Q -> Q.
Hypothesis sqrt_nonneg : forall x, 0 <= sqrt x.
Hypothesis asin_nonneg : forall x, 0 <= x -> 0 <= asin x.

Lemma far_away_nonneg : 0 <= far_away.
Proof. unfold far_away. discriminate. Qed.

(** What [attach_route_miles] gives on a route with its own cumulative
    distances. *)
Lemma attach_on_route (stops : list FuelStop.t) (poly : list point) :
  let cum := cumulative_miles radians sin cos asin sqrt poly in
  exists result,
    attach_route_miles radians sin cos asin sqrt stops poly cum
      = Returned result /\
    Permutation (map Enriched.fs result) stops /\
    ascending_by Enriched.route_miles result /\
    Forall (fun e => 0 <= Enriched.route_miles e <= last cum 0 /\
                     0 <= Enriched.offroute_miles e) result.
Proof.
  intro cum.
  assert (Hlen : List.length cum = Nat.max 1 (List.length poly))
    by apply cumulative_miles_length.
  destruct (enrich_returns radians sin cos asin sqrt stops poly cum)
    as (annotated & Henrich & Hfs & Hall); [lia | lia |].
  exists (sort_by Enriched.route_miles annotated).
  unfold attach_route_miles. rewrite Henrich.
  pose proof (sort_by_perm Enriched.route_miles annotated) as Hperm.
  split; [reflexivity|]. split; [|split].
  - rewrite <- Hfs. now apply Permutation_map.
  - apply sort_by_ascending.
  - eapply Permutation_Forall; [apply Permutation_sym, Hperm|].
    eapply Forall_impl; [|exact Hall]. cbv beta.
    intros e (Hin & Hoff). split.
    + destruct (cumulative_miles_sorted radians sin cos asin sqrt
                  sqrt_nonneg asin_nonneg poly) as (Hhd & Hnd).
      now apply non_decreasing_bounds.
    + destruct Hoff as [-> | (p & _ & ->)]; [apply far_away_nonneg|].
      apply haversine_miles_nonneg; assumption.
Qed.

(** The node list the planner builds from the stations of the view. *)
Lemma view_build_nodes (start_fs : FuelStop.t) (enriched : list Enriched.t)
    (total : Q) :
  ascending_by Enriched.route_miles enriched ->
  Forall (fun e => 0 <= Enriched.route_miles e <= total) enriched ->
  0 <= total ->
  build_nodes (view_stations start_fs enriched) total
  = start_node start_fs :: map enriched_node enriched ++ [terminal total].
Proof.
  intros Hasc Hall Htot. unfold build_nodes, view_stations.
  rewrite filter_all.
  - unfold sort_by_route_miles.
    change ((start_node start_fs :: map enriched_node enriched)
              ++ [terminal total])
      with (start_node start_fs
              :: (map enriched_node enriched ++ [terminal total])).
    cbn [sort_by fold_right].
    change (fold_right (insert_by miles) []
              (map enriched_node enriched ++ [terminal total]))
      with (sort_by miles (map enriched_node enriched ++ [terminal total])).
    rewrite sort_by_snoc.
    + rewrite sort_by_ascending_id by now apply ascending_by_map.
      destruct enriched as [|e enriched']; cbn [map app insert_by].
      * now rewrite Qle_bool_true.
      * inversion Hall as [|? ? He _]; subst.
        rewrite Qle_bool_true; [reflexivity | cbn; lra].
    + apply Forall_map. eapply Forall_impl; [|exact Hall].
      cbn. intros; lra.
  - constructor.
    + apply Qle_bool_true. exact Htot.
    + apply Forall_map. eapply Forall_impl; [|exact Hall].
      cbn. intros e He. apply Qle_bool_true. lra.
Qed.

End AttachResult.

(** With a square root that is never negative and an arc sine that is
    non-negative on non-negative arguments, [attach_route_miles] on a
    route with its own cumulative distances never raises, also on the
    empty route; it keeps every station, and gives each a [route_miles]
    between 0 and the length of the route and an [offroute_miles] that is
    not negative. *)
Theorem attach_route_miles_on_route (radians sin cos asin sqrt : Q -> Q)
    (stops : list FuelStop.t) (poly : list point) :
  (forall x, 0 <= sqrt x) ->
  (forall x, 0 <= x -> 0 <= asin x) ->
  let cum := cumulative_miles radians sin cos asin sqrt poly in
  exists result,
    attach_route_miles radians sin cos asin sqrt stops poly cum
      = Returned result /\
    Permutation (map Enriched.fs result) stops /\
    Forall (fun e => 0 <= Enriched.route_miles e <= last cum 0 /\
                     0 <= Enriched.offroute_miles e) result.
Proof.
  intros Hsqrt Hasin cum.
  destruct (attach_on_route radians sin cos asin sqrt Hsqrt Hasin stops poly)
    as (result & Hres & Hperm & _ & Hall).
  exists result. auto.
Qed.

(** In the view the planner's filter and sort change nothing: with the
    stations [attach_route_miles] returned for a route, the node list of
    [min_cost_plan] is the start station at mile 0, then the candidates in
    the order [attach_route_miles] gave them, then the terminal. *)
Theorem view_node_list (radians sin cos asin sqrt : Q -> Q)
    (start_fs : FuelStop.t) (stops : list FuelStop.t) (poly : list point)
    (enriched : list Enriched.t) :
  (forall x, 0 <= sqrt x) ->
  (forall x, 0 <= x -> 0 <= asin x) ->
  let cum := cumulative_miles radians sin cos asin sqrt poly in
  attach_route_miles radians sin cos asin sqrt stops poly cum
    = Returned enriched ->
  build_nodes (view_stations start_fs enriched) (last cum 0)
  = start_node start_fs :: map enriched_node enriched
      ++ [terminal (last cum 0)].
Proof.
  intros Hsqrt Hasin cum Hattach.
  destruct (attach_on_route radians sin cos asin sqrt Hsqrt Hasin stops poly)
    as (result & Hres & _ & Hasc & Hall).
  fold cum in Hres. rewrite Hattach in Hres. injection Hres as <-.
  destruct (cumulative_miles_sorted radians sin cos asin sqrt
              Hsqrt Hasin poly) as (Hhd & Hnd).
  assert (Htot : 0 <= last cum 0).
  { destruct (non_decreasing_bounds cum 0 Hhd Hnd) as (_ & H); [|exact H].
    unfold cum, cumulative_miles. now left. }
  apply view_build_nodes; [exact Hasc | | exact Htot].
  eapply Forall_impl; [|exact Hall]. cbv beta. tauto.
Qed.

(** On an empty route every station gets index 0: with a first
    cumulative distance [c0] each station is returned at [route_miles =
    c0] with the starting distance [1e18] as its [offroute_miles], in the
    order given; without any cumulative distance the first station raises
    [IndexError]. *)
Theorem attach_route_miles_empty_route (radians sin cos asin sqrt : Q -> Q)
    (stops : list FuelStop.t) :
  (forall c0 cum',
      attach_route_miles radians sin cos asin sqrt stops [] (c0 :: cum')
      = Returned (map (fun s => Enriched.mk s c0 far_away) stops)) /\
  (stops <> [] ->
   attach_route_miles radians sin cos asin sqrt stops [] []
   = Raised IndexError).
Proof.
  split.
  - intros c0 cum'. unfold attach_route_miles.
    assert (He : enrich radians sin cos asin sqrt stops [] (c0 :: cum')
                 = Returned (map (fun s => Enriched.mk s c0 far_away) stops)).
    { induction stops as [|s stops' IH]; [reflexivity|].
      cbn [enrich nearest_vertex nearest_loop fst snd nth_error map].
      now rewrite IH. }
    rewrite He. f_equal. apply sort_by_ascending_id.
    clear He. induction stops as [|s stops' IH]; cbn [map]; constructor;
      [exact IH|].
    apply Forall_map, Forall_forall. intros s' _. cbn. lra.
  - intro Hne. destruct stops as [|s stops']; [contradiction|]. reflexivity.
Qed.

(** ** [RoutePlanView.post] *)

Section ViewFacts.

Variables radians sin cos asin sqrt : Q -> Q.
Variable table : list Row.t.
Variable geocode_us : string -> option (Q * Q * string).
Variable compute_route_osrm : Q -> Q -> Q -> Q -> option Route.t.

(** In the view [attach_route_miles] never raises, and every station it
    returns is one of the candidates. *)
Lemma view_attach_returns (stops : list FuelStop.t) (poly : list point) :
  exists enriched,
    attach_route_miles radians sin cos asin sqrt stops poly
      (cumulative_miles radians sin cos asin sqrt poly)
    = Returned enriched /\
    forall x, In x enriched -> In (Enriched.fs x) stops.
Proof.
  pose proof (cumulative_miles_length radians sin cos asin sqrt poly) as Hlen.
  destruct (enrich_returns radians sin cos asin sqrt stops poly
              (cumulative_miles radians sin cos asin sqrt poly))
    as (annotated & Henrich & Hfs & _); [lia | lia |].
  exists (sort_by Enriched.route_miles annotated).
  unfold attach_route_miles. rewrite Henrich. split; [reflexivity|].
  intros x Hx. rewrite <- Hfs. apply in_map.
  eapply Permutation_in; [apply sort_by_perm | exact Hx].
Qed.

(** What a 200 response of [plan_on_route] was computed from. *)
Lemma plan_on_route_200 (o d : Q * Q * string) (route : Route.t)
    (corridor_miles max_range_miles mpg : Q) (b : Body.t) :
  plan_on_route radians sin cos asin sqrt table o d route
    corridor_miles max_range_miles mpg
  = Some (Returned (Response200 b)) ->
  exists poly start_fs enriched plan,
    let candidates :=
      fst (gather_candidates radians sin cos asin sqrt table poly
             corridor_miles 20 25) in
    let cum := cumulative_miles radians sin cos asin sqrt poly in
    decode_polyline (Route.encodedPolyline route) = Some (Returned poly) /\
    (2 <= List.length poly)%nat /\
    attach_route_miles radians sin cos asin sqrt candidates poly cum
      = Returned enriched /\
    choose_start_station radians cos table (fst (fst o)) (snd (fst o)) 25
      = Some start_fs /\
    min_cost_plan (view_stations start_fs enriched) (last cum 0) mpg
      max_range_miles = Returned (Some plan, None) /\
    Body.stops b = Plan.stops plan /\
    Body.total_money_spent b = Plan.total_cost plan /\
    Body.tank_capacity_gallons b = Plan.tank_gallons_capacity plan /\
    Body.distance_miles b = py_round (last cum 0) 3 /\
    Body.gallons_used_total b = py_round (last cum 0 / mpg) 4.
Proof.
  destruct o as [[o_lat o_lon] o_name]. destruct d as [[d_lat d_lon] d_name].
  unfold plan_on_route.
  destruct (decode_polyline (Route.encodedPolyline route))
    as [[poly|e]|]; try discriminate.
  destruct (Nat.ltb_spec (List.length poly) 2) as [Hshort | Hlong];
    [discriminate|].
  rewrite gather_candidates_unfold.
  destruct (attach_route_miles _ _ _ _ _ _ poly _) as [enriched|e] eqn:Ea;
    [|discriminate].
  destruct (choose_start_station radians cos table o_lat o_lon 25)
    as [start_fs|] eqn:Es; [|discriminate].
  destruct (min_cost_plan _ _ mpg max_range_miles)
    as [[[plan|] [err|]]|e] eqn:Ep; try discriminate.
  intro H. injection H as <-.
  exists poly, start_fs, enriched, plan. cbv zeta.
  rewrite gather_candidates_unfold. cbn [fst snd Body.stops
    Body.total_money_spent Body.tank_capacity_gallons Body.distance_miles
    Body.gallons_used_total].
  repeat split; try assumption; reflexivity.
Qed.

Lemma post_200 (data : Request.t) (b : Body.t) :
  post radians sin cos asin sqrt table geocode_us compute_route_osrm data
  = Some (Returned (Response200 b)) ->
  exists o d route,
    plan_on_route radians sin cos asin sqrt table o d route
      (get_default (Request.corridor_miles data) 10)
      (get_default (Request.max_range_miles data) 500)
      (get_default (Request.mpg data) 10)
    = Some (Returned (Response200 b)).
Proof.
  unfold post.
  destruct (resolve_place geocode_us (Request.start_latlng data) _ _)
    as [[[o_lat o_lon] o_name]|]; [|discriminate].
  destruct (resolve_place geocode_us (Request.end_latlng data) _ _)
    as [[[d_lat d_lon] d_name]|]; [|discriminate].
  destruct (compute_route_osrm o_lat o_lon d_lat d_lon) as [route|];
    [|discriminate].
  intro H. now exists (o_lat, o_lon, o_name), (d_lat, d_lon, d_name), route.
Qed.

(** The stops of a 200 response of [plan_on_route]. *)
Lemma plan_on_route_stops (o d : Q * Q * string) (route : Route.t)
    (corridor_miles max_range_miles mpg : Q) (b : Body.t) :
  plan_on_route radians sin cos asin sqrt table o d route
    corridor_miles max_range_miles mpg
  = Some (Returned (Response200 b)) ->
  ascending_by Stop.route_miles (Body.stops b) /\
  Forall (fun e =>
            (exists s, in_catalog table s /\ entry_of_station e s) /\
            Stop.route_miles e <= Body.distance_miles b)
         (Body.stops b).
Proof.
  intro H. apply plan_on_route_200 in H.
  destruct H as (poly & start_fs & enriched & plan & _ & _ & Ha & Hs & Hp
                 & -> & _ & _ & -> & _).
  pose proof Hp as Hp'. apply min_cost_plan_Some in Hp'.
  destruct Hp' as (_ & _ & _ & ->). cbn [Plan.stops].
  rewrite raw_scan_plan. split.
  - apply entries_ascending, build_nodes_ascending.
  - apply Forall_forall. intros e He. apply in_flat_map in He.
    destruct He as (v & Hv & He).
    apply visit_build_nodes_station in Hv. destruct Hv as (Hin & Hle).
    apply recorded_entry in He. destruct He as (s & Hfs & _ & ->).
    split.
    + exists s. split; [|repeat split].
      destruct Hin as [Heq | Hin].
      * rewrite <- Heq in Hfs. cbn in Hfs. injection Hfs as <-.
        unfold choose_start_station in Hs.
        destruct (box_query table _) as [|s0 l] eqn:Eq; [discriminate|].
        injection Hs as ->.
        apply (box_query_In table
                 (_box radians cos (fst (fst o)) (snd (fst o)) 25)).
        rewrite Eq. now left.
      * apply in_map_iff in Hin. destruct Hin as (x & Heq & Hx).
        rewrite <- Heq in Hfs. cbn in Hfs. injection Hfs as <-.
        destruct (view_attach_returns
                    (fst (gather_candidates radians sin cos asin sqrt table
                            poly corridor_miles 20 25)) poly)
          as (enriched' & Ha' & Hfrom).
        rewrite Ha in Ha'. injection Ha' as <-.
        apply Hfrom in Hx.
        now apply (gather_candidates_catalog radians sin cos asin sqrt
                     table poly corridor_miles 20 25) in Hx.
    + cbn [plan_entry Stop.route_miles]. now apply py_round_mono.
Qed.

End ViewFacts.

Section ViewTheorems.

Variables radians sin cos asin sqrt : Q -> Q.
Variable table : list Row.t.
Variable geocode_us : string -> option (Q * Q * string).
Variable compute_route_osrm : Q -> Q -> Q -> Q -> option Route.t.

(** Every stop of a 200 response of [post] carries the fields of a
    station of the catalog; the stops are listed in route order, and none
    lies beyond [distance_miles]. *)
Theorem post_stops_from_catalog (data : Request.t) (b : Body.t) :
  post radians sin cos asin sqrt table geocode_us compute_route_osrm data
  = Some (Returned (Response200 b)) ->
  ascending_by Stop.route_miles (Body.stops b) /\
  Forall (fun e =>
            (exists s, in_catalog table s /\ entry_of_station e s) /\
            Stop.route_miles e <= Body.distance_miles b)
         (Body.stops b).
Proof.
  intro H. apply post_200 in H. destruct H as (o & d & route & H).
  now apply plan_on_route_stops in H.
Qed.

End ViewTheorems.

(** * The theorems at concrete inputs *)

(** Decide a closed comparison of rationals by computing it. *)
Ltac qle := apply Qle_bool_imp_le; vm_compute; reflexivity.

Ltac gaps := repeat first [apply gaps_nil | apply gaps_one
                           | apply gaps_cons; [qle|]].

(** The specification's example: stations at miles 0, 100 and 650 with a
    range of 500 fail with a gap of 550 miles. *)
Example gap_stations_infeasible :
  min_cost_plan gap_stations 700 10 500
  = Returned (None, Some (NO_FEASIBLE_PLAN (Fin 550))).
Proof. vm_compute. reflexivity. Qed.

(** The test of line 113 is the one on floats: with a range of 1024 the
    float sum [1024 + 1e-6] lies above the exact sum, and a gap equal to
    it, which exceeds the exact sum, passes the test; the plan is
    returned. *)
Example float_sum_decides :
  let gap := 4503599631768543 # 4398046511104 in
  let stations := [station_at 1 0 3; station_at 2 gap 3] in
  float_add 1024 float_eps = Fin gap /\
  1024 + eps < gap /\
  too_far 1024 (station_at 1 0 3) (station_at 2 gap 3) = false /\
  exists p, min_cost_plan stations gap 10 1024 = Returned (Some p, None).
Proof.
  cbv zeta. split; [vm_compute; reflexivity|]. split; [reflexivity|].
  split; [vm_compute; reflexivity|].
  eexists. vm_compute. reflexivity.
Qed.


Lemma C2_witness :
  0 < 10 /\
  gaps_within 500 (build_nodes uniform_stations 200) /\
  exists p c,
    min_cost_plan uniform_stations 200 10 500 = Returned (Some p, None) /\
    qsum (map v_buy (visits 200 10 500 (build_nodes uniform_stations 200) 0))
      == 200 / 10 /\
    total_cost (raw_scan uniform_stations 200 10 500) = Fin c /\
    c == 200 / 10 * 3 /\
    Plan.total_cost p = Fin (py_round c 4) /\
    Qabs (py_round c 4 - 200 / 10 * 3) <= 1 # 20000.
Proof.
  assert (Hgaps : gaps_within 500 (build_nodes uniform_stations 200)).
  { vm_compute. gaps. }
  split; [reflexivity|]. split; [exact Hgaps|].
  apply (C2_uniform_price_total_cost uniform_stations 200 10 500).
  - reflexivity.
  - repeat constructor.
  - exact Hgaps.
  - eexists. eexists. split; [vm_compute; reflexivity | reflexivity].
Defined.

(** On [carry_stations] the three purchases are 20, 50 and 10 gallons:
    the first reaches the cheaper station at mile 200, the second fills
    the tank, and the third, arriving with 40 gallons, tops up to the 50
    that reach the destination. *)
Lemma C3_witness :
  let vs := visits 800 10 500 (build_nodes carry_stations 800)
              (fuel init_state) in
  (200 <= 300 /\ 300 <= 700 /\
   exists p e rest,
     min_cost_plan cheaper_ahead_stations 300 10 500
       = Returned (Some p, None) /\
     Plan.stops p = e :: rest /\
     Stop.id e = 1%Z /\
     Stop.route_miles e = 0 /\
     Stop.price e = Fin 4 /\
     Stop.gallons_bought e = 20 /\
     Plan.tank_gallons_capacity p = 50) /\
  raw_scan carry_stations 800 10 500 = fold_left state_after vs init_state /\
  map (fun v => Qred (v_fuel_in v)) vs = [0; 0; 40] /\
  map (fun v => Qred (v_buy v)) vs = [20; 50; 10] /\
  Forall (fun v => v_buy v == spec_buy 800 10 500 (v_here v) (v_ahead v)
                                (v_fuel_in v)) vs /\
  exists p,
    min_cost_plan carry_stations 800 10 500 = Returned (Some p, None) /\
    map Stop.gallons_bought (Plan.stops p) = [20; 50; 10] /\
    Forall2
      (fun v e =>
         exists s,
           Node.fs (v_here v) = Some s /\
           entry_of_station e s /\
           Stop.gallons_bought e
           = py_round (spec_buy 800 10 500 (v_here v) (v_ahead v)
                         (v_fuel_in v)) 4)
      (filter is_recorded vs) (Plan.stops p).
Proof.
  cbv zeta. split.
  { split; [discriminate|]. split; [discriminate|].
    apply (proj2 C3_buy_to_next_cheaper 300); discriminate. }
  destruct (proj1 C3_buy_to_next_cheaper carry_stations 800 10 500)
    as (Htie & _ & Hbuy & Hstops).
  split; [exact Htie|].
  split; [vm_compute; reflexivity|]. split; [vm_compute; reflexivity|].
  split.
  { apply Forall_forall. intros v Hv. now apply Hbuy. }
  eexists. split; [vm_compute; reflexivity|].
  split; [reflexivity|].
  apply Hstops. vm_compute. reflexivity.
Defined.

Lemma C4_witness :
  exists p,
    min_cost_plan cheaper_ahead_stations 300 10 500
      = Returned (Some p, None) /\
    Forall
      (fun e =>
         exists n s,
           In n cheaper_ahead_stations /\ n <> terminal 300 /\
           Node.fs n = Some s /\ entry_of_station e s /\
           Stop.route_miles e = py_round (miles n) 3 /\
           Stop.price e <> PInf /\
           exists q, Stop.price e = Fin q)
      (Plan.stops p).
Proof.
  eexists. split; [vm_compute; reflexivity|].
  apply (C4_no_terminal_in_stops cheaper_ahead_stations 300 10 500).
  vm_compute. reflexivity.
Defined.

Lemma C5_witness :
  example_route <> [] /\
  List.length (cumulative_miles flat_radians flat_sin flat_cos flat_asin
                 flat_sqrt example_route)
  = List.length example_route.
Proof.
  split; [discriminate|].
  apply (proj1 (proj2 (C5_cumulative_miles_length flat_radians flat_sin
                         flat_cos flat_asin flat_sqrt example_route))).
  discriminate.
Defined.

(** On ["??_"] the read past the end raises [IndexError]; on
    [overflowing_polyline] the latitude raises [OverflowError] first. *)
Lemma C6_witness :
  (String.get (Nat.pred (String.length "??_")) "??_" = Some "_"%char /\
   continues "_"%char /\
   decode_polyline "??_" = Some (Raised IndexError) /\
   decode_reads "??_" = first_indices 3) /\
  (String.get (Nat.pred (String.length overflowing_polyline))
     overflowing_polyline = Some "_"%char /\
   exists e,
     decode_polyline overflowing_polyline = Some (Raised e) /\
     (e = IndexError \/ e = OverflowError)).
Proof.
  split.
  - split; [reflexivity|]. split; [vm_compute; discriminate|].
    split; vm_compute; reflexivity.
  - split; [vm_compute; reflexivity|].
    apply (proj1 (proj2 (proj2 C6_decode_polyline_bounds))
             overflowing_polyline "_"%char).
    + vm_compute. reflexivity.
    + vm_compute. discriminate.
Defined.

Lemma flat_sqrt_nonneg (x : Q) : 0 <= flat_sqrt x.
Proof. apply Qabs_nonneg. Qed.

Lemma flat_asin_nonneg (x : Q) : 0 <= x -> 0 <= flat_asin x.
Proof. intros _. apply Q.le_max_l. Qed.

Lemma flat_asin_le_2 (x : Q) : flat_asin x <= 2.
Proof.
  unfold flat_asin. apply Q.max_lub; [discriminate|].
  eapply Qle_trans; [apply Q.le_min_r | discriminate].
Qed.

Lemma C7_witness :
  (forall x, flat_asin x <= 2) /\
  example_route <> [] /\
  exists annotated result,
    attach_route_miles flat_radians flat_sin flat_cos flat_asin flat_sqrt
      example_stops example_route
      (cumulative_miles flat_radians flat_sin flat_cos flat_asin flat_sqrt
         example_route)
    = Returned result /\
    Permutation result annotated /\
    ascending_by Enriched.route_miles result /\
    map Enriched.fs annotated = example_stops.
Proof.
  split; [exact flat_asin_le_2|]. split; [discriminate|].
  destruct (C7_attach_route_miles flat_radians flat_sin flat_cos flat_asin
              flat_sqrt example_stops example_route flat_asin_le_2)
    as (annotated & result & Hres & Hall & Hperm & Hasc & _);
    [discriminate|].
  exists annotated, result. repeat split; try assumption.
  clear - Hall. induction Hall as [|s e stops anns (Hfs & _) _ IH];
    [reflexivity|].
  cbn. now rewrite Hfs, IH.
Defined.

Lemma C8_witness :
  (forall x, 0 <= flat_sqrt x) /\
  (forall x, 0 <= x -> 0 <= flat_asin x) /\
  hd_error (cumulative_miles flat_radians flat_sin flat_cos flat_asin
              flat_sqrt example_route) = Some 0 /\
  non_decreasing (cumulative_miles flat_radians flat_sin flat_cos flat_asin
                    flat_sqrt example_route).
Proof.
  split; [exact flat_sqrt_nonneg|]. split; [exact flat_asin_nonneg|].
  apply (C8_cumulative_miles_monotone flat_radians flat_sin flat_cos
           flat_asin flat_sqrt example_route
           flat_sqrt_nonneg flat_asin_nonneg).
Defined.



(** * The further properties at concrete inputs *)

Lemma cheaper_ahead_gaps :
  gaps_within 500 (build_nodes cheaper_ahead_stations 300).
Proof. vm_compute. gaps. Qed.

Lemma stops_in_route_order_witness :
  exists p,
    min_cost_plan cheaper_ahead_stations 300 10 500
      = Returned (Some p, None) /\
    ascending_by Stop.route_miles (Plan.stops p).
Proof.
  eexists. split; [vm_compute; reflexivity|].
  apply (stops_in_route_order cheaper_ahead_stations 300 10 500).
  vm_compute. reflexivity.
Defined.

Lemma carry_gaps : gaps_within 500 (build_nodes carry_stations 800).
Proof. vm_compute. gaps. Qed.



Lemma total_cost_between_prices_witness :
  exists c,
    total_cost (raw_scan cheaper_ahead_stations 300 10 500) = Fin c /\
    3 * ((300 - 0) / 10) <= c <= 4 * ((300 - 0) / 10).
Proof.
  apply (total_cost_between_prices cheaper_ahead_stations 300 10 500 3 4
           (station_at 1 0 4) [station_at 2 200 3; terminal 300]).
  - reflexivity.
  - exact cheaper_ahead_gaps.
  - vm_compute. reflexivity.
  - repeat constructor; eexists;
      (split; [reflexivity | split; discriminate]).
Defined.


Lemma box_around_centre_witness :
  0 <= 25 /\
  let '(lat_min, lat_max, lon_min, lon_max) :=
    _box flat_radians flat_cos 40 (-100) 25 in
  lat_min <= 40 <= lat_max /\
  lon_min <= -100 <= lon_max /\
  lat_max - 40 == 25 / 69 /\
  40 - lat_min == 25 / 69 /\
  lon_max - -100 == -100 - lon_min /\
  lon_max - -100 <= 25 * (10 # 69) /\
  (flat_cos (flat_radians 40) <= 1 -> 25 / 69 <= lon_max - -100).
Proof.
  split; [discriminate|].
  apply (box_around_centre flat_radians flat_cos 40 (-100) 25).
  discriminate.
Defined.

Lemma attach_route_miles_on_route_witness :
  exists result,
    attach_route_miles flat_radians flat_sin flat_cos flat_asin flat_sqrt
      example_stops example_route
      (cumulative_miles flat_radians flat_sin flat_cos flat_asin flat_sqrt
         example_route)
    = Returned result /\
    Permutation (map Enriched.fs result) example_stops /\
    Forall (fun e =>
              0 <= Enriched.route_miles e
              <= last (cumulative_miles flat_radians flat_sin flat_cos
                         flat_asin flat_sqrt example_route) 0 /\
              0 <= Enriched.offroute_miles e) result.
Proof.
  apply (attach_route_miles_on_route flat_radians flat_sin flat_cos
           flat_asin flat_sqrt example_stops example_route
           flat_sqrt_nonneg flat_asin_nonneg).
Defined.

Lemma view_node_list_witness :
  exists enriched,
    attach_route_miles flat_radians flat_sin flat_cos flat_asin flat_sqrt
      example_stops example_route
      (cumulative_miles flat_radians flat_sin flat_cos flat_asin flat_sqrt
         example_route)
    = Returned enriched /\
    let total :=
      last (cumulative_miles flat_radians flat_sin flat_cos flat_asin
              flat_sqrt example_route) 0 in
    build_nodes
      (view_stations (FuelStop.mk 9 "Start" "City" "ST" 3 0 0) enriched)
      total
    = start_node (FuelStop.mk 9 "Start" "City" "ST" 3 0 0)
        :: map enriched_node enriched ++ [terminal total].
Proof.
  eexists. split; [vm_compute; reflexivity|].
  apply (view_node_list flat_radians flat_sin flat_cos flat_asin flat_sqrt
           (FuelStop.mk 9 "Start" "City" "ST" 3 0 0)
           example_stops example_route _
           flat_sqrt_nonneg flat_asin_nonneg).
  vm_compute. reflexivity.
Defined.

Lemma post_stops_from_catalog_witness :
  exists b,
    post flat_radians flat_sin flat_cos flat_asin flat_sqrt example_table
      no_geocoder example_router example_request
    = Some (Returned (Response200 b)) /\
    ascending_by Stop.route_miles (Body.stops b) /\
    Forall (fun e =>
              (exists s, in_catalog example_table s /\ entry_of_station e s)
              /\ Stop.route_miles e <= Body.distance_miles b)
           (Body.stops b).
Proof.
  eexists. split; [vm_compute; reflexivity|].
  apply (post_stops_from_catalog flat_radians flat_sin flat_cos flat_asin
           flat_sqrt example_table no_geocoder example_router
           example_request).
  vm_compute. reflexivity.
Defined.
